(** * Adjacency-list graph of [graph.py]: store, traversals, shortest paths,
      cycle detection and topological sort.

    The Python class [Graph] keeps three fields:
    - [graph]    : a [defaultdict(list)] from vertex to a list of
                   [(neighbor, weight)] pairs,
    - [directed] : the mode flag,
    - [vertices] : a [set] of vertices.

    A vertex is any hashable, comparable Python value.  The code uses three
    things of a vertex besides equality and hashing: its truthiness
    ([if end]), its ordering (tuples [(distance, vertex)] are compared inside
    the heap of [dijkstra]) and equality with the integer [-1] (the default
    [parent] of [has_cycle_util]).  The class [PyKey] collects them; Python
    [int] and [str] are the two instances.  Weights are Python integers. *)

From stdpp Require Import gmap strings list fin_maps sets.
From Stdlib Require Import ZArith.

Local Open Scope Z_scope.

#[local] Set Warnings "-clear-no-such-hyp".

(** ** Python values used as vertices *)

Class PyKey (V : Type) `{Countable V} := {
  py_lt : V → V → bool;      (* [a < b] *)
  py_truthy : V → bool;      (* [bool(a)], as tested by [if a] *)
  py_eq_int : V → Z → bool;  (* [a == n] for an [int] n *)
}.

(** Python [int]: zero is falsy. *)
#[export] Instance PyKey_int : PyKey Z := {|
  py_lt := Z.ltb;
  py_truthy := fun a => negb (a =? 0);
  py_eq_int := Z.eqb;
|}.

(** Python [str]: the empty string is falsy, strings are ordered
    lexicographically by code point, and no string equals an integer. *)
#[export] Instance PyKey_str : PyKey string := {|
  py_lt := String.ltb;
  py_truthy := fun a => negb (String.eqb a "");
  py_eq_int := fun _ _ => false;
|}.

(** Exceptions the graph code can raise. *)
Inductive exn := KeyError | ValueError.

Inductive outcome (A : Type) :=
| Ok (a : A)
| Raise (e : exn).
Arguments Ok {A} a.
Arguments Raise {A} e.

(** Distances of [dijkstra]: an integer or [float('infinity')]. *)
Inductive dist := Fin (z : Z) | Inf.

#[export] Instance dist_eq_dec : EqDecision dist.
Proof. solve_decision. Defined.

(** [distance < distances[neighbor]] with an integer on the left. *)
Definition dist_lt (z : Z) (d : dist) : bool :=
  match d with
  | Fin z' => z <? z'
  | Inf => true
  end.

Section Graph.
Context {V : Type} {EqV : EqDecision V} {CntV : Countable V} {PyV : PyKey V}.

(** ** The store *)

Abbreviation adj := (gmap V (list (V * Z))).

Record Graph := mkGraph {
  graph : gmap V (list (V * Z));
  directed : bool;
  vertices : gset V;
}.

(** [Graph(directed)] *)
Definition init (d : bool) : Graph := mkGraph ∅ d ∅.

Definition set_graph (g : Graph) (d : adj) : Graph :=
  mkGraph d (directed g) (vertices g).

(** [self.graph[k]] on a [defaultdict(list)]: a missing key is created with
    an empty list, so reading changes the dictionary. *)
Definition getitem (d : adj) (k : V) : list (V * Z) * adj :=
  match d !! k with
  | Some l => (l, d)
  | None => ([], <[k := []]> d)
  end.

(** The list a read of key [k] yields. *)
Definition nbrs (d : adj) (k : V) : list (V * Z) := default [] (d !! k).

Definition add_vertex (g : Graph) (vertex : V) : Graph :=
  mkGraph
    (match graph g !! vertex with
     | Some _ => graph g
     | None => <[vertex := []]> (graph g)
     end)
    (directed g)
    ({[vertex]} ∪ vertices g).

(** [self.graph[u].append(x)] *)
Definition append_to (d : adj) (u : V) (x : V * Z) : adj :=
  let '(l, d') := getitem d u in <[u := l ++ [x]]> d'.

Definition add_edge (g : Graph) (u v : V) (weight : Z) : Graph :=
  let d1 := append_to (graph g) u (v, weight) in
  let d2 := if directed g then d1 else append_to d1 v (u, weight) in
  mkGraph d2 (directed g) ({[v]} ∪ ({[u]} ∪ vertices g)).

(** [[(x, w) for x, w in l if x != v]] *)
Definition without (v : V) (l : list (V * Z)) : list (V * Z) :=
  filter (λ p, p.1 ≠ v) l.

(** [self.graph[u] = [... for ... in self.graph[u] if vertex != v]] *)
Definition strip_from (d : adj) (u v : V) : adj :=
  let '(l, d') := getitem d u in <[u := without v l]> d'.

Definition remove_edge (g : Graph) (u v : V) : Graph :=
  let d1 := strip_from (graph g) u v in
  let d2 := if directed g then d1 else strip_from d1 v u in
  set_graph g d2.

Definition remove_vertex (g : Graph) (vertex : V) : Graph :=
  mkGraph (delete vertex (without vertex <$> graph g))
          (directed g)
          (vertices g ∖ {[vertex]}).

Definition get_neighbors (g : Graph) (vertex : V) : list (V * Z) * Graph :=
  let '(l, d') := getitem (graph g) vertex in (l, set_graph g d').

Definition has_edge (g : Graph) (u v : V) : bool * Graph :=
  let '(l, d') := getitem (graph g) u in
  (existsb (λ p, bool_decide (p.1 = v)) l, set_graph g d').

(** ** Traversals *)

(** The [for neighbor, _ in ...] loop of [bfs]. *)
Fixpoint bfs_for (nb : list (V * Z)) (visited : gset V) (queue : list V)
  : gset V * list V :=
  match nb with
  | [] => (visited, queue)
  | (neighbor, _) :: nb' =>
      if decide (neighbor ∈ visited) then bfs_for nb' visited queue
      else bfs_for nb' ({[neighbor]} ∪ visited) (queue ++ [neighbor])
  end.

(** The [while queue] loop of [bfs]; [None] when the fuel runs out. *)
Fixpoint bfs_while (fuel : nat) (d : adj) (visited : gset V)
    (queue result : list V) : option (list V * adj) :=
  match queue with
  | [] => Some (result, d)
  | vertex :: queue' =>
      match fuel with
      | O => None
      | S fuel' =>
          let '(nb, d') := getitem d vertex in
          let '(visited', queue'') := bfs_for nb visited queue' in
          bfs_while fuel' d' visited' queue'' (result ++ [vertex])
      end
  end.

Definition bfs (fuel : nat) (g : Graph) (start : V)
  : option (list V * Graph) :=
  match bfs_while fuel (graph g) {[start]} [start] [] with
  | Some (result, d') => Some (result, set_graph g d')
  | None => None
  end.

(** State shared by the recursive calls of [dfs_recursive]. *)
Record dfs_state := mkDfs {
  dfs_graph : gmap V (list (V * Z));
  dfs_visited : gset V;
  dfs_result : list V;
}.

(** The [for] loop of [dfs_recursive], given the recursive call. *)
Fixpoint dfs_for (rec : V → dfs_state → option dfs_state)
    (nb : list (V * Z)) (s : dfs_state) : option dfs_state :=
  match nb with
  | [] => Some s
  | (neighbor, _) :: nb' =>
      if decide (neighbor ∈ dfs_visited s) then dfs_for rec nb' s
      else match rec neighbor s with
           | Some s' => dfs_for rec nb' s'
           | None => None
           end
  end.

(** [fuel] bounds the recursion depth. *)
Fixpoint dfs_recursive (fuel : nat) (vertex : V) (s : dfs_state)
  : option dfs_state :=
  match fuel with
  | O => None
  | S fuel' =>
      let '(nb, d') := getitem (dfs_graph s) vertex in
      dfs_for (dfs_recursive fuel') nb
        (mkDfs d' ({[vertex]} ∪ dfs_visited s) (dfs_result s ++ [vertex]))
  end.

Definition dfs (fuel : nat) (g : Graph) (start : V)
  : option (list V * Graph) :=
  match dfs_recursive fuel start (mkDfs (graph g) ∅ []) with
  | Some s => Some (dfs_result s, set_graph g (dfs_graph s))
  | None => None
  end.

(** ** Shortest paths *)

(** The [for] loop of [shortest_path_bfs]: [inl p] when it returns [p]
    from inside the loop. *)
Fixpoint sp_for (end_ : V) (path : list V) (nb : list (V * Z))
    (visited : gset V) (queue : list (V * list V))
  : list V + (gset V * list (V * list V)) :=
  match nb with
  | [] => inr (visited, queue)
  | (neighbor, _) :: nb' =>
      if decide (neighbor = end_) then inl (path ++ [neighbor])
      else if decide (neighbor ∈ visited) then
        sp_for end_ path nb' visited queue
      else
        sp_for end_ path nb' ({[neighbor]} ∪ visited)
               (queue ++ [(neighbor, path ++ [neighbor])])
  end.

Fixpoint sp_while (fuel : nat) (end_ : V) (d : adj) (visited : gset V)
    (queue : list (V * list V)) : option (option (list V) * adj) :=
  match queue with
  | [] => Some (None, d)
  | (vertex, path) :: queue' =>
      match fuel with
      | O => None
      | S fuel' =>
          let '(nb, d') := getitem d vertex in
          match sp_for end_ path nb visited queue' with
          | inl p => Some (Some p, d')
          | inr (visited', queue'') =>
              sp_while fuel' end_ d' visited' queue''
          end
      end
  end.

(** The result is [Some p] for a path and [None] for Python's [None]. *)
Definition shortest_path_bfs (fuel : nat) (g : Graph) (start end_ : V)
  : option (option (list V) * Graph) :=
  if decide (start = end_) then Some (Some [start], g)
  else match sp_while fuel end_ (graph g) {[start]} [(start, [start])] with
       | Some (r, d') => Some (r, set_graph g d')
       | None => None
       end.

(** *** The heap of [dijkstra]

    [heapq] is used through [heappush] and [heappop] only; [heappop] yields
    the smallest tuple.  The heap is kept as the list of its entries. *)

(** [(d1, v1) < (d2, v2)] on Python tuples. *)
Definition tuple_lt (a b : Z * V) : bool :=
  (a.1 <? b.1) || ((a.1 =? b.1) && py_lt a.2 b.2).

Fixpoint heap_min (x : Z * V) (l : list (Z * V)) : Z * V :=
  match l with
  | [] => x
  | y :: l' => heap_min (if tuple_lt y x then y else x) l'
  end.

Fixpoint remove_one (x : Z * V) (l : list (Z * V)) : list (Z * V) :=
  match l with
  | [] => []
  | y :: l' => if decide (y = x) then l' else y :: remove_one x l'
  end.

Definition heappush (pq : list (Z * V)) (x : Z * V) : list (Z * V) :=
  x :: pq.

Definition heappop (pq : list (Z * V)) : option ((Z * V) * list (Z * V)) :=
  match pq with
  | [] => None
  | x :: l => let m := heap_min x l in Some (m, remove_one m pq)
  end.

Record dij_state := mkDij {
  dij_graph : gmap V (list (V * Z));
  dij_distances : gmap V dist;
  dij_previous : gmap V V;
  dij_pq : list (Z * V);
  dij_visited : gset V;
}.

(** The relaxation loop [for neighbor, weight in self.graph[current]];
    [distances[neighbor]] raises [KeyError] on a missing key. *)
Fixpoint dijkstra_for (current : V) (current_dist : Z) (nb : list (V * Z))
    (s : dij_state) : outcome dij_state * dij_state :=
  match nb with
  | [] => (Ok s, s)
  | (neighbor, weight) :: nb' =>
      let distance := current_dist + weight in
      match dij_distances s !! neighbor with
      | None => (Raise KeyError, s)
      | Some dn =>
          if dist_lt distance dn then
            dijkstra_for current current_dist nb'
              (mkDij (dij_graph s)
                     (<[neighbor := Fin distance]> (dij_distances s))
                     (<[neighbor := current]> (dij_previous s))
                     (heappush (dij_pq s) (distance, neighbor))
                     (dij_visited s))
          else dijkstra_for current current_dist nb' s
      end
  end.

(** [if end and current == end] *)
Definition is_end (end_ : option V) (current : V) : bool :=
  match end_ with
  | Some e => py_truthy e && bool_decide (current = e)
  | None => false
  end.

(** The [while pq] loop.  The second component is the state when the loop
    is left, also when it is left by an exception. *)
Fixpoint dijkstra_while (fuel : nat) (end_ : option V) (s : dij_state)
  : option (outcome dij_state * dij_state) :=
  match heappop (dij_pq s) with
  | None => Some (Ok s, s)
  | Some ((current_dist, current), pq') =>
      match fuel with
      | O => None
      | S fuel' =>
          let s1 := mkDij (dij_graph s) (dij_distances s) (dij_previous s)
                          pq' (dij_visited s) in
          if decide (current ∈ dij_visited s) then
            dijkstra_while fuel' end_ s1
          else
            let s2 := mkDij (dij_graph s) (dij_distances s) (dij_previous s)
                            pq' ({[current]} ∪ dij_visited s) in
            if is_end end_ current then Some (Ok s2, s2)
            else
              let '(nb, d') := getitem (dij_graph s2) current in
              let s3 := mkDij d' (dij_distances s2) (dij_previous s2)
                              (dij_pq s2) (dij_visited s2) in
              match dijkstra_for current current_dist nb s3 with
              | (Ok s4, _) => dijkstra_while fuel' end_ s4
              | (Raise e, s4) => Some (Raise e, s4)
              end
      end
  end.

(** [while current in previous: path.append(current);
    current = previous[current]] *)
Fixpoint walk_previous (fuel : nat) (previous : gmap V V) (current : V)
    (path : list V) : option (list V) :=
  match previous !! current with
  | None => Some path
  | Some p =>
      match fuel with
      | O => None
      | S fuel' => walk_previous fuel' previous p (path ++ [current])
      end
  end.

(** What [dijkstra] returns: the distance dictionary, or the pair of a path
    ([None] for Python's [None]) and a distance. *)
Inductive dijkstra_result :=
| Distances (distances : gmap V dist)
| PathDist (path : option (list V)) (d : dist).

Definition dijkstra (fuel : nat) (g : Graph) (start : V) (end_ : option V)
  : option (outcome dijkstra_result * Graph) :=
  let distances := <[start := Fin 0]> (gset_to_gmap Inf (vertices g)) in
  match dijkstra_while fuel end_
          (mkDij (graph g) distances ∅ [(0, start)] ∅) with
  | None => None
  | Some (Raise e, s) => Some (Raise e, set_graph g (dij_graph s))
  | Some (Ok s, _) =>
      let g' := set_graph g (dij_graph s) in
      match end_ with
      | Some e =>
          if py_truthy e then
            match dij_distances s !! e with
            | None => Some (Raise KeyError, g')
            | Some Inf => Some (Ok (PathDist None Inf), g')
            | Some de =>
                match walk_previous fuel (dij_previous s) e [] with
                | None => None
                | Some path =>
                    Some (Ok (PathDist (Some (reverse (path ++ [start]))) de),
                          g')
                end
            end
          else Some (Ok (Distances (dij_distances s)), g')
      | None => Some (Ok (Distances (dij_distances s)), g')
      end
  end.

(** The adjacency entries of the vertices not yet finalized: together with
    the length of the heap it bounds the iterations [dijkstra] still makes. *)
Definition pending (d : adj) (visited : gset V) : nat :=
  map_fold (λ k l acc, (if decide (k ∈ visited) then O else length l) + acc)%nat
           O d.

(** ** Cycle detection and topological sort *)

Record cyc_state := mkCyc {
  cyc_graph : gmap V (list (V * Z));
  cyc_visited : gset V;
  cyc_rec_stack : gset V;
}.

(** [neighbor != parent]; [None] stands for the default [parent=-1]. *)
Definition differs_from_parent (neighbor : V) (parent : option V) : bool :=
  match parent with
  | None => negb (py_eq_int neighbor (-1))
  | Some p => bool_decide (neighbor ≠ p)
  end.

(** The [for] loop of [has_cycle_util]: [Some (true, _)] when it returns
    [True] from inside the loop. *)
Fixpoint has_cycle_for (rec : V → option V → cyc_state → option (bool * cyc_state))
    (dir : bool) (vertex : V) (parent : option V) (nb : list (V * Z))
    (s : cyc_state) : option (bool * cyc_state) :=
  match nb with
  | [] => Some (false, s)
  | (neighbor, _) :: nb' =>
      if decide (neighbor ∈ cyc_visited s) then
        if dir then
          if decide (neighbor ∈ cyc_rec_stack s) then Some (true, s)
          else has_cycle_for rec dir vertex parent nb' s
        else
          if differs_from_parent neighbor parent then Some (true, s)
          else has_cycle_for rec dir vertex parent nb' s
      else
        match rec neighbor (Some vertex) s with
        | None => None
        | Some (true, s') => Some (true, s')
        | Some (false, s') => has_cycle_for rec dir vertex parent nb' s'
        end
  end.

Fixpoint has_cycle_util (fuel : nat) (dir : bool) (vertex : V)
    (parent : option V) (s : cyc_state) : option (bool * cyc_state) :=
  match fuel with
  | O => None
  | S fuel' =>
      let visited := {[vertex]} ∪ cyc_visited s in
      let rec_stack :=
        if dir then {[vertex]} ∪ cyc_rec_stack s else cyc_rec_stack s in
      let '(nb, d') := getitem (cyc_graph s) vertex in
      match has_cycle_for (has_cycle_util fuel' dir) dir vertex parent nb
              (mkCyc d' visited rec_stack) with
      | None => None
      | Some (true, s') => Some (true, s')
      | Some (false, s') =>
          Some (false,
                mkCyc (cyc_graph s') (cyc_visited s')
                      (if dir then cyc_rec_stack s' ∖ {[vertex]}
                       else cyc_rec_stack s'))
      end
  end.

(** [for vertex in self.vertices]: a Python set is iterated in an order the
    language does not fix, so the order is an argument: [order] lists the
    elements of [vertices] once each. *)
Fixpoint has_cycle_outer (fuel : nat) (dir : bool) (order : list V)
    (s : cyc_state) : option (bool * cyc_state) :=
  match order with
  | [] => Some (false, s)
  | vertex :: rest =>
      if decide (vertex ∈ cyc_visited s) then has_cycle_outer fuel dir rest s
      else match has_cycle_util fuel dir vertex None s with
           | None => None
           | Some (true, s') => Some (true, s')
           | Some (false, s') => has_cycle_outer fuel dir rest s'
           end
  end.

Definition has_cycle (fuel : nat) (g : Graph) (order : list V)
  : option (bool * Graph) :=
  match has_cycle_outer fuel (directed g) order (mkCyc (graph g) ∅ ∅) with
  | Some (b, s) => Some (b, set_graph g (cyc_graph s))
  | None => None
  end.

Record topo_state := mkTopo {
  topo_graph : gmap V (list (V * Z));
  topo_visited : gset V;
  topo_stack : list V;
}.

Fixpoint topo_for (rec : V → topo_state → option topo_state)
    (nb : list (V * Z)) (s : topo_state) : option topo_state :=
  match nb with
  | [] => Some s
  | (neighbor, _) :: nb' =>
      if decide (neighbor ∈ topo_visited s) then topo_for rec nb' s
      else match rec neighbor s with
           | Some s' => topo_for rec nb' s'
           | None => None
           end
  end.

(** The inner [dfs] of [topological_sort]. *)
Fixpoint topo_dfs (fuel : nat) (vertex : V) (s : topo_state)
  : option topo_state :=
  match fuel with
  | O => None
  | S fuel' =>
      let '(nb, d') := getitem (topo_graph s) vertex in
      match topo_for (topo_dfs fuel') nb
              (mkTopo d' ({[vertex]} ∪ topo_visited s) (topo_stack s)) with
      | Some s' =>
          Some (mkTopo (topo_graph s') (topo_visited s')
                       (topo_stack s' ++ [vertex]))
      | None => None
      end
  end.

Fixpoint topo_outer (fuel : nat) (order : list V) (s : topo_state)
  : option topo_state :=
  match order with
  | [] => Some s
  | vertex :: rest =>
      if decide (vertex ∈ topo_visited s) then topo_outer fuel rest s
      else match topo_dfs fuel vertex s with
           | Some s' => topo_outer fuel rest s'
           | None => None
           end
  end.

Definition topological_sort (fuel : nat) (g : Graph) (order : list V)
  : option (outcome (list V) * Graph) :=
  if directed g then
    match topo_outer fuel order (mkTopo (graph g) ∅ []) with
    | Some s => Some (Ok (reverse (topo_stack s)), set_graph g (topo_graph s))
    | None => None
    end
  else Some (Raise ValueError, g).

(** ** Connected components *)

(** The inner [dfs(vertex, component)] of [connected_components] is the
    [dfs_recursive] of [dfs], with [component] in the place of [result] and
    the set [visited] shared by all the calls. *)
Fixpoint cc_outer (fuel : nat) (order : list V) (d : adj) (visited : gset V)
    (components : list (list V)) : option (list (list V) * adj) :=
  match order with
  | [] => Some (components, d)
  | vertex :: rest =>
      if decide (vertex ∈ visited) then
        cc_outer fuel rest d visited components
      else match dfs_recursive fuel vertex (mkDfs d visited []) with
           | Some s =>
               cc_outer fuel rest (dfs_graph s) (dfs_visited s)
                        (components ++ [dfs_result s])
           | None => None
           end
  end.

Definition connected_components (fuel : nat) (g : Graph) (order : list V)
  : option (list (list V) * Graph) :=
  match cc_outer fuel order (graph g) ∅ [] with
  | Some (components, d') => Some (components, set_graph g d')
  | None => None
  end.

(** ** Two-colouring *)

(** The [for] loop of [bfs_check]: [Ok None] when it returns [False] from
    inside the loop, [Ok (Some _)] when it runs to its end; a read of
    [color] at a missing key raises [KeyError]. *)
Fixpoint bip_for (vertex : V) (nb : list (V * Z)) (color : gmap V Z)
    (queue : list V) : outcome (option (gmap V Z * list V)) :=
  match nb with
  | [] => Ok (Some (color, queue))
  | (neighbor, _) :: nb' =>
      match color !! neighbor with
      | None =>
          match color !! vertex with
          | Some cv =>
              bip_for vertex nb' (<[neighbor := 1 - cv]> color)
                      (queue ++ [neighbor])
          | None => Raise KeyError
          end
      | Some cn =>
          match color !! vertex with
          | Some cv =>
              if bool_decide (cn = cv) then Ok None
              else bip_for vertex nb' color queue
          | None => Raise KeyError
          end
      end
  end.

(** The [while queue] loop of [bfs_check]: [Ok None] for [return False],
    [Ok (Some color)] for [return True] with the dictionary [color] as the
    call leaves it. *)
Fixpoint bip_while (fuel : nat) (d : adj) (color : gmap V Z)
    (queue : list V) : option (outcome (option (gmap V Z)) * adj) :=
  match queue with
  | [] => Some (Ok (Some color), d)
  | vertex :: queue' =>
      match fuel with
      | O => None
      | S fuel' =>
          let '(nb, d') := getitem d vertex in
          match bip_for vertex nb color queue' with
          | Ok (Some (color', queue'')) => bip_while fuel' d' color' queue''
          | Ok None => Some (Ok None, d')
          | Raise e => Some (Raise e, d')
          end
      end
  end.

(** [for vertex in self.vertices], in the order [order]. *)
Fixpoint bip_outer (fuel : nat) (order : list V) (d : adj)
    (color : gmap V Z) : option (outcome bool * adj) :=
  match order with
  | [] => Some (Ok true, d)
  | vertex :: rest =>
      match color !! vertex with
      | Some _ => bip_outer fuel rest d color
      | None =>
          match bip_while fuel d (<[vertex := 0]> color) [vertex] with
          | Some (Ok (Some color'), d') => bip_outer fuel rest d' color'
          | Some (Ok None, d') => Some (Ok false, d')
          | Some (Raise e, d') => Some (Raise e, d')
          | None => None
          end
      end
  end.

Definition is_bipartite (fuel : nat) (g : Graph) (order : list V)
  : option (outcome bool * Graph) :=
  match bip_outer fuel order (graph g) ∅ with
  | Some (r, d') => Some (r, set_graph g d')
  | None => None
  end.

(** ** Sequences of calls *)

Inductive op :=
| OpAddVertex (v : V)
| OpAddEdge (u v : V) (weight : Z)
| OpRemoveEdge (u v : V)
| OpRemoveVertex (v : V)
| OpGetNeighbors (v : V)
| OpHasEdge (u v : V)
| OpBfs (start : V)
| OpDfs (start : V)
| OpShortestPathBfs (start end_ : V)
| OpDijkstra (start : V) (end_ : option V).

(** The store after one call, whether the call returned or raised; [None]
    when the fuel does not suffice. *)
Definition exec (fuel : nat) (o : op) (g : Graph) : option Graph :=
  match o with
  | OpAddVertex v => Some (add_vertex g v)
  | OpAddEdge u v w => Some (add_edge g u v w)
  | OpRemoveEdge u v => Some (remove_edge g u v)
  | OpRemoveVertex v => Some (remove_vertex g v)
  | OpGetNeighbors v => Some (get_neighbors g v).2
  | OpHasEdge u v => Some (has_edge g u v).2
  | OpBfs start => snd <$> bfs fuel g start
  | OpDfs start => snd <$> dfs fuel g start
  | OpShortestPathBfs start end_ => snd <$> shortest_path_bfs fuel g start end_
  | OpDijkstra start end_ => snd <$> dijkstra fuel g start end_
  end.

(** [reaches d0 ops g]: a caller that builds [Graph(d0)] and makes the calls
    [ops] in turn (each with fuel enough to finish) ends with the store [g]. *)
Inductive reaches (d0 : bool) : list op → Graph → Prop :=
| reaches_nil : reaches d0 [] (init d0)
| reaches_snoc ops g fuel o g' :
    reaches d0 ops g → exec fuel o g = Some g' → reaches d0 (ops ++ [o]) g'.

(** The call adds the vertex [x] to [vertices]. *)
Definition adds (x : V) (o : op) : Prop :=
  match o with
  | OpAddVertex v => x = v
  | OpAddEdge u v _ => x = u ∨ x = v
  | _ => False
  end.

(** ** Notions used to state the properties *)

(** [a] has an adjacency entry targeting [b]. *)
Definition edge (d : adj) (a b : V) : Prop := ∃ w, (b, w) ∈ nbrs d a.

(** Every vertex that appears as a neighbor in some adjacency list. *)
Definition targets (d : adj) : gset V :=
  ⋃ ((λ kl : V * list (V * Z), list_to_set kl.2.*1) <$> map_to_list d).

(** What a depth-first search from the vertices [roots] has done between the
    states [s] and [s']: it appended the vertices [new], none of them visited
    before, each reachable from a root, and every edge out of them leads to
    a visited vertex. *)
Definition dfs_post (d0 : adj) (roots : list V) (s s' : dfs_state)
    (new : list V) : Prop :=
  dfs_result s' = dfs_result s ++ new
  ∧ dfs_visited s' = list_to_set new ∪ dfs_visited s
  ∧ NoDup new
  ∧ (∀ x, x ∈ new → x ∉ dfs_visited s)
  ∧ (∀ x, x ∈ new → ∃ r, r ∈ roots ∧ rtc (edge d0) r x)
  ∧ (∀ x y, x ∈ new → edge d0 x y → y ∈ dfs_visited s')
  ∧ (∀ k, nbrs (dfs_graph s') k = nbrs d0 k).

(** Consecutive vertices of [p] are joined by edges. *)
Fixpoint is_walk (d : adj) (p : list V) : Prop :=
  match p with
  | [] => True
  | a :: p' =>
      match p' with
      | [] => True
      | b :: _ => edge d a b ∧ is_walk d p'
      end
  end.

(** [p] is a path from [a] to [b]; it has [length p - 1] edges. *)
Definition is_path (d : adj) (p : list V) (a b : V) : Prop :=
  head p = Some a ∧ last p = Some b ∧ is_walk d p.

(** The invariant of the [while] loop of [shortest_path_bfs] looking for
    [e] from [start].  The queue is [front ++ back]: the entries of [front]
    carry paths of [k] edges, those of [back] paths of [k + 1] edges; every
    vertex within [k] edges of [start] is visited; a visited vertex is still
    queued or has all its neighbors visited; [e] is not visited. *)
Definition sp_inv (d0 : adj) (start e : V) (k : nat)
    (front back : list (V * list V)) (visited : gset V) : Prop :=
  (∀ v p, (v, p) ∈ front → is_path d0 p start v ∧ length p = S k)
  ∧ (∀ v p, (v, p) ∈ back → is_path d0 p start v ∧ length p = S (S k))
  ∧ (∀ x, x ∈ visited →
       x ∈ (front ++ back).*1 ∨ ∀ y, edge d0 x y → y ∈ visited)
  ∧ (∀ x, bsteps (edge d0) k start x → x ∈ visited)
  ∧ (∀ x, x ∈ visited → bsteps (edge d0) k start x ∨ x ∈ back.*1)
  ∧ (∀ x, x ∈ back.*1 → ¬ bsteps (edge d0) k start x)
  ∧ e ∉ visited.

(** What [shortest_path_bfs(start, e)] may return: a path from [start] to
    [e] with the fewest edges, or [None] when there is no path. *)
Definition sp_ok (d0 : adj) (start e : V) (r : option (list V)) : Prop :=
  match r with
  | Some p =>
      is_path d0 p start e
      ∧ ∀ q, is_path d0 q start e → (length p ≤ length q)%nat
  | None => ¬ rtc (edge d0) start e
  end.

(** [path_weight d p w]: the vertices [p] form a path whose edges can be
    chosen with total weight [w] (parallel edges may differ in weight). *)
Inductive path_weight (d : adj) : list V → Z → Prop :=
| pw_one a : path_weight d [a] 0
| pw_snoc p b c w W :
    last p = Some b → (c, w) ∈ nbrs d b → path_weight d p W →
    path_weight d (p ++ [c]) (W + w).

(** [tree_path previous start x p]: following the predecessor map back from
    [x] ends at [start], and [p] lists the vertices met, from [start] to
    [x]. *)
Inductive tree_path (previous : gmap V V) (start : V) : V → list V → Prop :=
| tp_start : previous !! start = None → tree_path previous start start [start]
| tp_step x c p :
    previous !! x = Some c → tree_path previous start c p →
    tree_path previous start x (p ++ [x]).

(** The invariant of the [while] loop of [dijkstra] on the adjacency [d0],
    the distance keys being [D].  [rel c] lists the entries of [c] that have
    been relaxed: all of them between two iterations. *)
Record dij_inv (d0 : adj) (start : V) (D : gset V)
    (rel : V → list (V * Z)) (s : dij_state) : Prop := mkDijInv {
  di_graph : ∀ k, nbrs (dij_graph s) k = nbrs d0 k;
  di_dom : dom (dij_distances s) = D;
  di_start : dij_distances s !! start = Some (Fin 0);
  di_prev_start : dij_previous s !! start = None;
  di_tree : ∀ x, x ∈ dij_visited s →
    ∃ p z, tree_path (dij_previous s) start x p
           ∧ dij_distances s !! x = Some (Fin z)
           ∧ path_weight d0 p z ∧ NoDup p
           ∧ (∀ y, y ∈ p → y ∈ dij_visited s)
           ∧ head p = Some start ∧ last p = Some x;
  di_opt : ∀ x z p W, x ∈ dij_visited s →
    dij_distances s !! x = Some (Fin z) →
    head p = Some start → last p = Some x → path_weight d0 p W → z ≤ W;
  di_fin : ∀ x z, dij_distances s !! x = Some (Fin z) →
    x ∉ dij_visited s →
    (z, x) ∈ dij_pq s
    ∧ (x = start
       ∨ ∃ c zc w, dij_previous s !! x = Some c ∧ c ∈ dij_visited s
                   ∧ dij_distances s !! c = Some (Fin zc)
                   ∧ (x, w) ∈ nbrs d0 c ∧ z = zc + w);
  di_pq : ∀ z x, (z, x) ∈ dij_pq s →
    ∃ zx, dij_distances s !! x = Some (Fin zx) ∧ zx ≤ z;
  di_relaxed : ∀ c zc x w, c ∈ dij_visited s →
    dij_distances s !! c = Some (Fin zc) → (x, w) ∈ rel c →
    ∃ zx, dij_distances s !! x = Some (Fin zx) ∧ zx ≤ zc + w;
}.

(** The entries relaxed while the [for] loop of [dijkstra] runs on [cur]:
    the part [done] of [cur]'s list, and all of every other list. *)
Definition rel_at (d0 : adj) (cur : V) (done : list (V * Z)) (c : V)
  : list (V * Z) :=
  if decide (c = cur) then done else nbrs d0 c.

(** The first occurrence of [a] in [l] comes before the first of [b]. *)
Definition precedes (a b : V) (l : list V) : bool :=
  match list_find (λ x, x = a) l, list_find (λ x, x = b) l with
  | Some (i, _), Some (j, _) => bool_decide (i < j)%nat
  | _, _ => false
  end.

(** The invariant of the data model as the specification words it:
    [vertices] contains every key of the adjacency map and every neighbor. *)
Definition vertices_superset (g : Graph) : Prop :=
  (∀ k, k ∈ dom (graph g) → k ∈ vertices g) ∧
  (∀ k l n w, graph g !! k = Some l → (n, w) ∈ l → n ∈ vertices g).

(** [a] occurs in [l] at an earlier position than [b]. *)
Definition before (a b : V) (l : list V) : Prop :=
  ∃ l1 l2 l3, l = l1 ++ a :: l2 ++ b :: l3.

(** What the inner [dfs] of [topological_sort] has done from the vertices
    [roots] between the states [s] and [s']: it pushed the vertices [new],
    none visited before, each reachable from a root; an edge out of a pushed
    vertex leads to a vertex visited before, or to one pushed earlier, or
    back to one from which its source is reachable. *)
Definition topo_post (d0 : adj) (roots : list V) (s s' : topo_state)
    (new : list V) : Prop :=
  topo_stack s' = topo_stack s ++ new
  ∧ topo_visited s' = list_to_set new ∪ topo_visited s
  ∧ NoDup new
  ∧ (∀ x, x ∈ new → x ∉ topo_visited s)
  ∧ (∀ x, x ∈ new → ∃ r, r ∈ roots ∧ rtc (edge d0) r x)
  ∧ (∀ a b, a ∈ new → edge d0 a b →
       b ∈ topo_visited s ∨ before b a new ∨ (b ∈ new ∧ rtc (edge d0) b a))
  ∧ (∀ k, nbrs (topo_graph s') k = nbrs d0 k).

(** The vertices of [F] are done with: their edges stay in [F], and no
    cycle passes through them. *)
Definition settled (d0 : adj) (F : gset V) : Prop :=
  ∀ a, a ∈ F → (∀ b, edge d0 a b → b ∈ F) ∧ ¬ tc (edge d0) a a.

(** What a call of [has_cycle_util] on a directed graph establishes: when it
    answers [True] there is a cycle; when it answers [False] the recursion
    stack is as before and the vertices visited and off the stack are
    settled. *)
Definition cyc_post (d0 : adj) (U : gset V) (s : cyc_state)
    (r : bool * cyc_state) : Prop :=
  (∀ k, nbrs (cyc_graph r.2) k = nbrs d0 k)
  ∧ if r.1 then ∃ c, tc (edge d0) c c
    else cyc_visited s ⊆ cyc_visited r.2
         ∧ cyc_visited r.2 ⊆ U
         ∧ cyc_rec_stack r.2 = cyc_rec_stack s
         ∧ settled d0 (cyc_visited r.2 ∖ cyc_rec_stack r.2).

(** The calls that ask and do not update. *)
Definition is_query (o : op) : bool :=
  match o with
  | OpAddVertex _ | OpAddEdge _ _ _ | OpRemoveEdge _ _ | OpRemoveVertex _ =>
      false
  | _ => true
  end.

(** Every adjacency entry has its mirror entry, with the same weight. *)
Definition symmetric (d : adj) : Prop :=
  ∀ u v w, (v, w) ∈ nbrs d u → (u, w) ∈ nbrs d v.

(** The components found so far: they list the visited vertices once each,
    the visited set is closed under edges, every member of a component is
    reachable from its first vertex, and in a symmetric graph a component
    holds all that its first vertex reaches. *)
Definition cc_inv (d0 : adj) (visited : gset V) (components : list (list V))
  : Prop :=
  visited = list_to_set (concat components)
  ∧ NoDup (concat components)
  ∧ (∀ a b, a ∈ visited → edge d0 a b → b ∈ visited)
  ∧ ∀ c, c ∈ components →
      ∃ x rest, c = x :: rest
        ∧ (∀ y, y ∈ c → rtc (edge d0) x y)
        ∧ (symmetric d0 → ∀ y, rtc (edge d0) x y → y ∈ c).

(** [x] is at most as many edges away from [start] as [y]. *)
Definition dist_le (d0 : adj) (start x y : V) : Prop :=
  ∀ n, bsteps (edge d0) n start y → bsteps (edge d0) n start x.

(** The invariant of the [while] loop of [bfs] from [start].  The queue is
    [front ++ back]: the vertices of [result] and [front] are within [k]
    edges of [start], those of [back] exactly [k + 1] edges away; the
    vertices are listed by distance; every vertex within [k] edges is
    visited; the visited vertices are those listed; the neighbors of a
    vertex of [result] are visited. *)
Definition bfs_inv (d0 : adj) (start : V) (k : nat)
    (front back result : list V) (visited : gset V) : Prop :=
  (∀ x, x ∈ result ++ front → bsteps (edge d0) k start x)
  ∧ (∀ x, x ∈ back →
       bsteps (edge d0) (S k) start x ∧ ¬ bsteps (edge d0) k start x)
  ∧ (∀ i j x y, (i ≤ j)%nat →
       (result ++ front ++ back) !! i = Some x →
       (result ++ front ++ back) !! j = Some y → dist_le d0 start x y)
  ∧ (∀ x, bsteps (edge d0) k start x → x ∈ visited)
  ∧ (∀ x, x ∈ visited → x ∈ result ++ front ++ back)
  ∧ (∀ x y, x ∈ result → edge d0 x y → y ∈ visited).

(** The ends of every edge get different colours. *)
Definition proper (d0 : adj) (col : V → bool) : Prop :=
  ∀ a b, edge d0 a b → col a ≠ col b.

(** The colour [bfs_check] gives to a vertex that a two-colouring puts on
    the side of the start vertex ([true]) or on the other side. *)
Definition side_color (same : bool) : Z := if same then 0 else 1.

(** The state of [bfs_check(start)], entered with the dictionary [color0]:
    the colours given stay, they are 0 or 1, the queued vertices were
    coloured by this call, every edge out of a coloured vertex that is no
    longer queued joins two colours, and, when the graph is symmetric and
    [col] is a proper colouring, the colours of this call follow [col]. *)
Definition bip_inv (d0 : adj) (col : V → bool) (start : V)
    (color0 color : gmap V Z) (queue : list V) : Prop :=
  (∀ x c, color0 !! x = Some c → color !! x = Some c)
  ∧ (∀ x c, color !! x = Some c → c = 0 ∨ c = 1)
  ∧ (∀ x, x ∈ queue → is_Some (color !! x) ∧ color0 !! x = None)
  ∧ (∀ a b, is_Some (color !! a) → a ∉ queue → edge d0 a b →
       ∃ ca cb, color !! a = Some ca ∧ color !! b = Some cb ∧ ca ≠ cb)
  ∧ (symmetric d0 → proper d0 col →
     ∀ x c, color !! x = Some c → color0 !! x = None →
            c = side_color (bool_decide (col x = col start))).

(** The invariant the code keeps: both ends of every adjacency entry are in
    [vertices]. *)
Definition edges_in_vertices (g : Graph) : Prop :=
  ∀ k l n w, graph g !! k = Some l → (n, w) ∈ l →
    k ∈ vertices g ∧ n ∈ vertices g.

End Graph.

Arguments Graph V {_ _} : assert.
Arguments op V : clear implicits.

(** ** [WeightedGraph]: the adjacency matrix *)

Module WeightedGraph.

(** [l[i]] on a Python list with an [int] index: a negative index counts
    from the end. [None] stands for [IndexError], the only exception this
    class can raise. *)
Definition py_index (len : nat) (i : Z) : option nat :=
  let n := Z.of_nat len in
  if decide (0 ≤ i < n) then Some (Z.to_nat i)
  else if decide (- n ≤ i < 0) then Some (Z.to_nat (i + n))
  else None.

(** [l[i]] *)
Definition py_get {A} (l : list A) (i : Z) : option A :=
  k ← py_index (length l) i; l !! k.

(** [l[i] = a] *)
Definition py_set {A} (l : list A) (i : Z) (a : A) : option (list A) :=
  k ← py_index (length l) i; Some (<[k := a]> l).

(** [range(n)] *)
Definition range (n : Z) : list Z := Z.of_nat <$> seq 0 (Z.to_nat n).

Record t := mk {
  V : Z;
  graph : list (list Z);
}.

(** [WeightedGraph(vertices)] *)
Definition init (vertices : Z) : t :=
  mk vertices
     (replicate (Z.to_nat vertices) (replicate (Z.to_nat vertices) 0)).

(** [m[i][j]] *)
Definition getitem2 (m : list (list Z)) (i j : Z) : option Z :=
  row ← py_get m i; py_get row j.

(** [m[i][j] = a]: the row [m[i]] is updated in place. *)
Definition setitem2 (m : list (list Z)) (i j a : Z)
  : option (list (list Z)) :=
  row ← py_get m i; row' ← py_set row j a; py_set m i row'.

(** [add_edge(u, v, weight)]: the second component is the graph as the call
    leaves it, also when it raises. *)
Definition add_edge (g : t) (u v weight : Z) : option unit * t :=
  match setitem2 (graph g) u v weight with
  | None => (None, g)
  | Some m1 =>
      match setitem2 m1 v u weight with
      | None => (None, mk (V g) m1)
      | Some m2 => (Some (), mk (V g) m2)
      end
  end.

(** [a < b] on keys, which are integers or [float('infinity')]. *)
Definition key_lt (a b : dist) : bool :=
  match a with
  | Fin x => dist_lt x b
  | Inf => false
  end.

(** The first inner loop of [prim_mst]: the unselected vertex of least
    key, the first one among equals; [u] stays [-1] when there is none with
    a finite key. *)
Fixpoint find_min (vs : list Z) (selected : list bool) (key : list dist)
    (min_key : dist) (u : Z) : option (dist * Z) :=
  match vs with
  | [] => Some (min_key, u)
  | v :: vs' =>
      sel ← py_get selected v;
      if sel : bool then find_min vs' selected key min_key u
      else
        kv ← py_get key v;
        if key_lt kv min_key then find_min vs' selected key kv v
        else find_min vs' selected key min_key u
  end.

(** The second inner loop: [key] and [parent] of the unselected neighbors
    of [u]. *)
Fixpoint update_keys (m : list (list Z)) (u : Z) (vs : list Z)
    (selected : list bool) (key : list dist) (parent : list Z)
  : option (list dist * list Z) :=
  match vs with
  | [] => Some (key, parent)
  | v :: vs' =>
      guv ← getitem2 m u v;
      if 0 <? guv then
        sel ← py_get selected v;
        if sel : bool then update_keys m u vs' selected key parent
        else
          kv ← py_get key v;
          if dist_lt guv kv then
            key' ← py_set key v (Fin guv);
            parent' ← py_set parent v u;
            update_keys m u vs' selected key' parent'
          else update_keys m u vs' selected key parent
      else update_keys m u vs' selected key parent
  end.

(** The loop [for _ in range(self.V)], [n] rounds of it. *)
Fixpoint prim_loop (n : nat) (g : t) (selected : list bool)
    (parent : list Z) (key : list dist) (mst_edges : list (Z * Z * Z))
  : option (list (Z * Z * Z)) :=
  match n with
  | O => Some mst_edges
  | S n' =>
      mu ← find_min (range (V g)) selected key Inf (-1);
      let u := mu.2 in
      selected' ← py_set selected u true;
      pu ← py_get parent u;
      mst_edges' ←
        (if decide (pu ≠ -1) then
           w ← getitem2 (graph g) pu u; Some (mst_edges ++ [(pu, u, w)])
         else Some mst_edges);
      kp ← update_keys (graph g) u (range (V g)) selected' key parent;
      prim_loop n' g selected' kp.2 kp.1 mst_edges'
  end.

Definition prim_mst (g : t) : option (list (Z * Z * Z)) :=
  let n := Z.to_nat (V g) in
  key ← py_set (replicate n Inf) 0 (Fin 0);
  prim_loop n g (replicate n false) (replicate n (-1)) key [].

(** [self.V] rows of [self.V] entries each. *)
Definition square (g : t) : Prop :=
  length (graph g) = Z.to_nat (V g)
  ∧ ∀ row, row ∈ graph g → length row = Z.to_nat (V g).

(** [graph[i][j]] and [graph[j][i]] agree. *)
Definition symmetric (g : t) : Prop :=
  ∀ i j, getitem2 (graph g) i j = getitem2 (graph g) j i.

(** There is an edge between [a] and [b]: a positive entry. *)
Definition joined (g : t) (a b : Z) : Prop :=
  0 ≤ a < V g ∧ 0 ≤ b < V g ∧ ∃ w, getitem2 (graph g) a b = Some w ∧ 0 < w.

(** Every vertex can be reached from vertex 0. *)
Definition connected (g : t) : Prop :=
  ∀ v, 0 ≤ v < V g → rtc (joined g) 0 v.

(** [(a, b, w)] is one of the edges listed. *)
Definition tree_edge (edges : list (Z * Z * Z)) (a b : Z) : Prop :=
  ∃ w, (a, b, w) ∈ edges.

(** The number of [True] in [selected]. *)
Definition count_true (l : list bool) : nat :=
  length (filter (λ b, b = true) l).

(** The state of the outer loop of [prim_mst] on a connected graph.  The
    selected vertices are reached from vertex 0 along the edges listed; an
    edge listed is an edge of the graph and ends in a selected vertex that
    no other edge listed ends in; an unselected vertex with a finite key has
    a selected parent joined to it with that weight; an unselected vertex
    joined to a selected one has a finite key; and either nothing is
    selected and vertex 0 has the key 0, or vertex 0 is selected and there
    is one edge for every other selected vertex. *)
Definition prim_inv (g : t) (selected : list bool) (parent : list Z)
    (key : list dist) (edges : list (Z * Z * Z)) : Prop :=
  let sel v := selected !! Z.to_nat v = Some true in
  (length selected = Z.to_nat (V g) ∧ length parent = Z.to_nat (V g)
   ∧ length key = Z.to_nat (V g))
  ∧ (∀ v, 0 ≤ v < V g → sel v → rtc (tree_edge edges) 0 v)
  ∧ (∀ p u w, (p, u, w) ∈ edges →
       0 ≤ p < V g ∧ 0 ≤ u < V g ∧ getitem2 (graph g) p u = Some w ∧ 0 < w
       ∧ sel u)
  ∧ NoDup ((λ e, e.1.2) <$> edges)
  ∧ (∀ v x, 0 ≤ v < V g → ¬ sel v → key !! Z.to_nat v = Some (Fin x) →
       (v = 0 ∧ ∀ v', 0 ≤ v' < V g → ¬ sel v')
       ∨ ∃ p, parent !! Z.to_nat v = Some p ∧ 0 ≤ p < V g ∧ sel p
              ∧ getitem2 (graph g) p v = Some x ∧ 0 < x)
  ∧ (∀ s v, sel s → ¬ sel v → joined g s v →
       ∃ x, key !! Z.to_nat v = Some (Fin x))
  ∧ ((count_true selected = O ∧ edges = []
      ∧ key !! O = Some (Fin 0) ∧ parent !! O = Some (-1))
     ∨ (sel 0 ∧ S (length edges) = count_true selected)).

(** The graphs a caller can build: [WeightedGraph(n)] followed by calls of
    [add_edge], whether they return or raise. *)
Inductive built : t → Prop :=
| built_init n : built (init n)
| built_add_edge g u v weight :
    built g → built (add_edge g u v weight).2.

End WeightedGraph.

(** ** Concrete graphs *)

Local Open Scope string_scope.

(** Two calls [add_edge('A', 'B')] on a fresh undirected graph. *)
Definition parallel_AB : Graph string :=
  add_edge (add_edge (init false) "A" "B" 1) "A" "B" 1.

(** The directed graph of the example run: A→C, B→C, B→D, C→E, D→F, E→F. *)
Definition dag_edges : list (string * string) :=
  [("A", "C"); ("B", "C"); ("B", "D"); ("C", "E"); ("D", "F"); ("E", "F")].

Definition dag : Graph string :=
  foldl (λ g e, add_edge g e.1 e.2 1) (init true) dag_edges.

(** The weighted graph of the example run: five vertices, seven edges. *)
Definition weighted_demo : WeightedGraph.t :=
  foldl (λ g e, (WeightedGraph.add_edge g e.1.1 e.1.2 e.2).2)
        (WeightedGraph.init 5)
        [(0, 1, 2); (0, 3, 6); (1, 2, 3); (1, 3, 8); (1, 4, 5); (2, 4, 7);
         (3, 4, 9)]%Z.

(** An undirected weighted triangle: the edge between A and B weighs 4, the
    way over C weighs 3. *)
Definition triangle : Graph string :=
  add_edge (add_edge (add_edge (init false) "A" "B" 4) "A" "C" 1) "C" "B" 2.

(** A and B before C and D, C and D before E, E before F. *)
Definition layered (l : list string) : bool :=
  precedes "A" "C" l && precedes "A" "D" l &&
  precedes "B" "C" l && precedes "B" "D" l &&
  precedes "C" "E" l && precedes "D" "E" l &&
  precedes "E" "F" l.

(** Every edge of [dag] goes forward in [l]. *)
Definition respects_edges (l : list string) : bool :=
  forallb (λ e, precedes e.1 e.2 l) dag_edges.

(** The checks of [dag] for one iteration order of its vertex set. *)
Definition dag_check (order : list string) : bool :=
  match has_cycle 6 dag order, topological_sort 6 dag order with
  | Some (false, _), Some (Ok r, _) =>
      respects_edges r && bool_decide (r ≡ₚ order)
  | _, _ => false
  end.

Local Close Scope string_scope.

(** * Properties *)

Section GraphFacts.
Context {V : Type} {EqV : EqDecision V} {CntV : Countable V} {PyV : PyKey V}.
Implicit Types (d : gmap V (list (V * Z))) (g : Graph V).
Implicit Types (x k n u v a b current start : V) (nb : list (V * Z)).
Implicit Types (order result : list V) (visited : gset V).

(** ** Reading the adjacency map *)

Lemma getitem_fst d k : (getitem d k).1 = nbrs d k.
Proof. unfold getitem, nbrs. by destruct (d !! k). Qed.

Lemma getitem_nbrs d k x : nbrs (getitem d k).2 x = nbrs d x.
Proof.
  unfold getitem, nbrs. destruct (d !! k) eqn:E; simpl; [done|].
  destruct (decide (k = x)) as [->|Hne].
  - by rewrite lookup_insert_eq, E.
  - by rewrite lookup_insert_ne.
Qed.

Lemma getitem_eq d k :
  ∃ d', getitem d k = (nbrs d k, d') ∧ ∀ x, nbrs d' x = nbrs d x.
Proof.
  exists (getitem d k).2. split.
  - rewrite <- getitem_fst. by destruct (getitem d k).
  - apply getitem_nbrs.
Qed.

(** ** [add_vertex] *)

(** C8: [add_vertex] is idempotent: a second call [add_vertex(v)] leaves the
    store ([vertices], [v]'s adjacency entry and everything else) as the
    first call left it.  The model of [add_vertex] has no error result. *)
Theorem add_vertex_idempotent g v :
  add_vertex (add_vertex g v) v = add_vertex g v
  ∧ vertices (add_vertex (add_vertex g v) v) = vertices (add_vertex g v)
  ∧ graph (add_vertex (add_vertex g v) v) !! v = graph (add_vertex g v) !! v.
Proof.
  assert (add_vertex (add_vertex g v) v = add_vertex g v) as E.
  { unfold add_vertex at 1 3. simpl. f_equal.
    - destruct (graph g !! v) eqn:E; simpl.
      + by rewrite E.
      + by rewrite lookup_insert_eq.
    - set_solver. }
  by rewrite E.
Qed.

(** C10: when [v] already has a non-empty adjacency list, [add_vertex(v)]
    leaves the whole adjacency map unchanged: [v]'s list is not reset and
    no other list changes. *)
Theorem add_vertex_keeps_adjacency g v l :
  graph g !! v = Some l → l ≠ [] →
  graph (add_vertex g v) = graph g ∧ graph (add_vertex g v) !! v = Some l.
Proof.
  intros E _. unfold add_vertex. simpl. by rewrite E.
Qed.

(** ** [has_cycle] on parallel edges *)

(** A vertex without adjacency entries is marked visited and nothing else
    happens. *)
Lemma has_cycle_util_isolated fuel x parent (s : cyc_state) :
  nbrs (cyc_graph s) x = [] →
  ∃ d', has_cycle_util (S fuel) false x parent s
        = Some (false, mkCyc d' ({[x]} ∪ cyc_visited s) (cyc_rec_stack s))
        ∧ ∀ k, nbrs d' k = nbrs (cyc_graph s) k.
Proof.
  intros Hx. simpl.
  destruct (getitem_eq (cyc_graph s) x) as (d' & -> & Hd').
  rewrite Hx. simpl. eauto.
Qed.

(** The search started at [a], whose two entries both target [b], whose two
    entries both target [a]: the call on [b] skips both entries (their target
    is the parent), and back in [a] the second entry finds [b] visited and
    different from the default parent. *)
Lemma has_cycle_util_parallel fuel a b wa1 wa2 wb1 wb2 (s : cyc_state) :
  nbrs (cyc_graph s) a = [(b, wa1); (b, wa2)] →
  nbrs (cyc_graph s) b = [(a, wb1); (a, wb2)] →
  a ≠ b → b ∉ cyc_visited s →
  py_eq_int b (-1) = false →
  ∃ s', has_cycle_util (S (S fuel)) false a None s = Some (true, s').
Proof.
  intros Ha Hb Hab Hvb Hb1.
  cbn [has_cycle_util].
  destruct (getitem_eq (cyc_graph s) a) as (d1 & -> & Hd1).
  rewrite Ha. cbn [has_cycle_for cyc_visited cyc_graph cyc_rec_stack].
  rewrite decide_False by set_solver.
  destruct (getitem_eq d1 b) as (d2 & -> & Hd2).
  rewrite Hd1, Hb. cbn [has_cycle_for cyc_visited cyc_graph cyc_rec_stack].
  rewrite decide_True by set_solver.
  unfold differs_from_parent at 1.
  rewrite bool_decide_eq_false_2 by (intros ?; congruence).
  rewrite decide_True by set_solver.
  unfold differs_from_parent at 1.
  rewrite bool_decide_eq_false_2 by (intros ?; congruence).
  cbn [cyc_visited cyc_graph cyc_rec_stack].
  rewrite decide_True by set_solver.
  unfold differs_from_parent. rewrite Hb1. simpl. eauto.
Qed.

Lemma has_cycle_outer_parallel fuel u v wu1 wu2 wv1 wv2 order :
  u ≠ v → py_eq_int u (-1) = false → py_eq_int v (-1) = false →
  u ∈ order →
  ∀ s : cyc_state,
    nbrs (cyc_graph s) u = [(v, wu1); (v, wu2)] →
    nbrs (cyc_graph s) v = [(u, wv1); (u, wv2)] →
    (∀ k, k ≠ u → k ≠ v → nbrs (cyc_graph s) k = []) →
    u ∉ cyc_visited s → v ∉ cyc_visited s →
    ∃ s', has_cycle_outer (S (S fuel)) false order s = Some (true, s').
Proof.
  intros Huv Hu1 Hv1. induction order as [|x order IH]; intros Hin s Hu Hv Hk Hnu Hnv.
  { by apply elem_of_nil in Hin. }
  cbn [has_cycle_outer].
  destruct (decide (x ∈ cyc_visited s)) as [Hx|Hx].
  { apply IH; try done. apply elem_of_cons in Hin as [->|]; done. }
  destruct (decide (x = u)) as [->|Hxu].
  { destruct (has_cycle_util_parallel fuel u v wu1 wu2 wv1 wv2 s) as [s' ->];
      eauto. }
  destruct (decide (x = v)) as [->|Hxv].
  { destruct (has_cycle_util_parallel fuel v u wv1 wv2 wu1 wu2 s) as [s' ->];
      eauto. }
  destruct (has_cycle_util_isolated (S fuel) x None s) as (d' & -> & Hd');
    [by apply Hk|].
  apply IH; cbn [cyc_graph cyc_visited].
  - apply elem_of_cons in Hin as [->|]; done.
  - by rewrite Hd'.
  - by rewrite Hd'.
  - intros k ??. rewrite Hd'. by apply Hk.
  - set_solver.
  - set_solver.
Qed.

Lemma nbrs_append_to d u (e : V * Z) k :
  nbrs (append_to d u e) k
  = if decide (k = u) then nbrs d u ++ [e] else nbrs d k.
Proof.
  unfold append_to. destruct (getitem_eq d u) as (d' & -> & Hd').
  unfold nbrs at 1. case_decide as E.
  - subst. by rewrite lookup_insert_eq.
  - rewrite lookup_insert_ne by done. apply Hd'.
Qed.

(** C1 (as the code behaves): on an undirected graph whose only edges are
    two parallel edges between distinct vertices [u] and [v], neither of
    them equal to the integer [-1], [has_cycle()] returns [True], whatever
    the iteration order of the vertex set: the call on the second vertex
    does skip both entries back to its parent, but the first vertex then
    meets its second entry with the target visited and the default parent
    [-1] different from it. *)
Theorem has_cycle_parallel_edges g0 u v w1 w2 order fuel :
  directed g0 = false →
  (∀ k, nbrs (graph g0) k = []) →
  u ≠ v →
  py_eq_int u (-1) = false → py_eq_int v (-1) = false →
  order ≡ₚ elements (vertices (add_edge (add_edge g0 u v w1) u v w2)) →
  (2 ≤ fuel)%nat →
  fst <$> has_cycle fuel (add_edge (add_edge g0 u v w1) u v w2) order
  = Some true.
Proof.
  intros Hdir Hempty Huv Hu1 Hv1 Hperm Hfuel.
  destruct fuel as [|[|fuel]]; [lia..|].
  unfold has_cycle.
  assert (directed (add_edge (add_edge g0 u v w1) u v w2) = false) as ->
    by (unfold add_edge; simpl; done).
  assert (u ∈ order) as Hin.
  { rewrite Hperm. apply elem_of_elements. unfold add_edge. simpl.
    set_solver. }
  assert (∀ k, nbrs (graph (add_edge (add_edge g0 u v w1) u v w2)) k
               = if decide (k = u) then [(v, w1); (v, w2)]
                 else if decide (k = v) then [(u, w1); (u, w2)] else [])
    as Hn.
  { intros k. unfold add_edge. simpl. rewrite Hdir. simpl.
    rewrite !nbrs_append_to. rewrite !Hempty.
    repeat case_decide; subst; try done. }
  destruct (has_cycle_outer_parallel fuel u v w1 w2 w1 w2 order Huv Hu1 Hv1 Hin
              (mkCyc (graph (add_edge (add_edge g0 u v w1) u v w2)) ∅ ∅))
    as [s' ->]; cbn [cyc_graph cyc_visited]; try done.
  - rewrite Hn. by rewrite decide_True.
  - rewrite Hn. rewrite decide_False by done. by rewrite decide_True.
  - intros k ??. rewrite Hn. by rewrite !decide_False.
Qed.

(** ** More fuel never changes a result *)

Lemma has_cycle_for_mono
    (rec1 rec2 : V → option V → cyc_state → option (bool * cyc_state))
    dir vertex parent nb :
  (∀ x p s r, rec1 x p s = Some r → rec2 x p s = Some r) →
  ∀ s r, has_cycle_for rec1 dir vertex parent nb s = Some r →
         has_cycle_for rec2 dir vertex parent nb s = Some r.
Proof.
  intros Hrec. induction nb as [|[n w] nb IH]; intros s r; simpl; [done|].
  repeat case_match; try done; intros Hr; simplify_eq;
    try (by apply IH);
    match goal with
    | E : rec1 _ _ _ = Some _ |- _ => apply Hrec in E; simplify_eq
    end; try done.
  by apply IH.
Qed.

Lemma has_cycle_util_mono fuel fuel' dir x parent (s : cyc_state) r :
  (fuel ≤ fuel')%nat →
  has_cycle_util fuel dir x parent s = Some r →
  has_cycle_util fuel' dir x parent s = Some r.
Proof.
  revert fuel' x parent s r.
  induction fuel as [|fuel IH]; intros fuel' x parent s r Hle; [done|].
  destruct fuel' as [|fuel']; [lia|]. simpl.
  destruct (getitem (cyc_graph s) x) as [nb d'].
  destruct (has_cycle_for (has_cycle_util fuel dir) _ _ _ _ _) as [r1|] eqn:E;
    [|done].
  eapply has_cycle_for_mono in E; [rewrite E; done|].
  intros. apply IH; [lia|done].
Qed.

Lemma has_cycle_outer_mono fuel fuel' dir order (s : cyc_state) r :
  (fuel ≤ fuel')%nat →
  has_cycle_outer fuel dir order s = Some r →
  has_cycle_outer fuel' dir order s = Some r.
Proof.
  intros Hle. revert s. induction order as [|x order IH]; intros s; simpl;
    [done|].
  case_decide; [by apply IH|].
  destruct (has_cycle_util fuel dir x None s) as [r1|] eqn:E; [|done].
  rewrite (has_cycle_util_mono _ _ _ _ _ _ _ Hle E).
  destruct r1 as [[] s']; [done|]. apply IH.
Qed.

Lemma has_cycle_mono fuel fuel' g order r :
  (fuel ≤ fuel')%nat →
  has_cycle fuel g order = Some r → has_cycle fuel' g order = Some r.
Proof.
  intros Hle. unfold has_cycle.
  destruct (has_cycle_outer fuel _ _ _) as [r1|] eqn:E; [|done].
  by rewrite (has_cycle_outer_mono _ _ _ _ _ _ Hle E).
Qed.

Lemma topo_for_mono (rec1 rec2 : V → topo_state → option topo_state) nb :
  (∀ x s r, rec1 x s = Some r → rec2 x s = Some r) →
  ∀ s r, topo_for rec1 nb s = Some r → topo_for rec2 nb s = Some r.
Proof.
  intros Hrec. induction nb as [|[n w] nb IH]; intros s r; simpl; [done|].
  case_decide; [by apply IH|].
  destruct (rec1 n s) as [s'|] eqn:E; [|done].
  rewrite (Hrec _ _ _ E). apply IH.
Qed.

Lemma topo_dfs_mono fuel fuel' (x : V) (s : topo_state) r :
  (fuel ≤ fuel')%nat →
  topo_dfs fuel x s = Some r → topo_dfs fuel' x s = Some r.
Proof.
  revert fuel' x s r.
  induction fuel as [|fuel IH]; intros fuel' x s r Hle; [done|].
  destruct fuel' as [|fuel']; [lia|]. simpl.
  destruct (getitem (topo_graph s) x) as [nb d'].
  destruct (topo_for (topo_dfs fuel) _ _) as [r1|] eqn:E; [|done].
  eapply topo_for_mono in E; [rewrite E; done|].
  intros. apply IH; [lia|done].
Qed.

Lemma topo_outer_mono fuel fuel' (order : list V) (s : topo_state) r :
  (fuel ≤ fuel')%nat →
  topo_outer fuel order s = Some r → topo_outer fuel' order s = Some r.
Proof.
  intros Hle. revert s. induction order as [|x order IH]; intros s; simpl;
    [done|].
  case_decide; [by apply IH|].
  destruct (topo_dfs fuel x s) as [r1|] eqn:E; [|done].
  rewrite (topo_dfs_mono _ _ _ _ _ Hle E). apply IH.
Qed.

Lemma topological_sort_mono fuel fuel' g order r :
  (fuel ≤ fuel')%nat →
  topological_sort fuel g order = Some r →
  topological_sort fuel' g order = Some r.
Proof.
  intros Hle. unfold topological_sort. destruct (directed g); [|done].
  destruct (topo_outer fuel _ _) as [r1|] eqn:E; [|done].
  by rewrite (topo_outer_mono _ _ _ _ _ Hle E).
Qed.

(** ** Queries only create empty adjacency entries *)

Lemma bfs_while_frame fuel d visited queue result r d' :
  bfs_while fuel d visited queue result = Some (r, d') →
  ∀ k, nbrs d' k = nbrs d k.
Proof.
  revert d visited queue result.
  induction fuel as [|fuel IH]; intros d visited queue result;
    destruct queue as [|x queue]; simpl; intros Hr k; simplify_eq; try done.
  destruct (getitem_eq d x) as (d1 & E & Hd1). rewrite E in Hr.
  destruct (bfs_for _ _ _) as [vis' q'].
  rewrite (IH _ _ _ _ Hr). apply Hd1.
Qed.

Lemma dfs_for_frame (rec : V → dfs_state → option dfs_state) nb :
  (∀ x s s', rec x s = Some s' →
     ∀ k, nbrs (dfs_graph s') k = nbrs (dfs_graph s) k) →
  ∀ s s', dfs_for rec nb s = Some s' →
    ∀ k, nbrs (dfs_graph s') k = nbrs (dfs_graph s) k.
Proof.
  intros Hrec. induction nb as [|[n w] nb IH]; intros s s'; simpl.
  { by intros [= ->]. }
  case_decide; [by apply IH|].
  destruct (rec n s) as [s1|] eqn:E; [|done].
  intros Hr k. rewrite (IH _ _ Hr). by apply (Hrec _ _ _ E).
Qed.

Lemma dfs_recursive_frame fuel (x : V) (s s' : dfs_state) :
  dfs_recursive fuel x s = Some s' →
  ∀ k, nbrs (dfs_graph s') k = nbrs (dfs_graph s) k.
Proof.
  revert x s s'. induction fuel as [|fuel IH]; intros x s s'; simpl; [done|].
  destruct (getitem_eq (dfs_graph s) x) as (d1 & -> & Hd1).
  intros Hr k. eapply dfs_for_frame in Hr; [|done].
  rewrite Hr. apply Hd1.
Qed.

Lemma sp_while_frame fuel end_ d visited queue r d' :
  sp_while fuel end_ d visited queue = Some (r, d') →
  ∀ k, nbrs d' k = nbrs d k.
Proof.
  revert d visited queue.
  induction fuel as [|fuel IH]; intros d visited queue;
    destruct queue as [|[x path] queue]; simpl; intros Hr k; simplify_eq;
    try done.
  destruct (getitem_eq d x) as (d1 & E & Hd1). rewrite E in Hr.
  destruct (sp_for _ _ _ _ _) as [p|[vis' q']]; simplify_eq; [done|].
  rewrite (IH _ _ _ Hr). apply Hd1.
Qed.

Lemma dijkstra_for_graph current current_dist nb (s : dij_state) :
  dij_graph (dijkstra_for current current_dist nb s).2 = dij_graph s.
Proof.
  revert s. induction nb as [|[n w] nb IH]; intros s; simpl; [done|].
  destruct (dij_distances s !! n); [|done].
  case_match; [|done]. by rewrite IH.
Qed.

Lemma dijkstra_for_ok current current_dist nb (s s1 s2 : dij_state) :
  dijkstra_for current current_dist nb s = (Ok s1, s2) → s1 = s2.
Proof.
  revert s. induction nb as [|[n w] nb IH]; intros s; simpl.
  { by intros [= -> ->]. }
  destruct (dij_distances s !! n); [|done].
  case_match; apply IH.
Qed.

Lemma dijkstra_while_frame fuel end_ (s s' : dij_state) o :
  dijkstra_while fuel end_ s = Some (o, s') →
  ∀ k, nbrs (dij_graph s') k = nbrs (dij_graph s) k.
Proof.
  revert s. induction fuel as [|fuel IH]; intros s; simpl;
    destruct (heappop (dij_pq s)) as [[[cd c] pq']|]; intros Hr k;
    simplify_eq; try done.
  case_decide.
  { by rewrite (IH _ Hr). }
  case_match.
  { by simplify_eq. }
  destruct (getitem_eq (dij_graph s) c) as (d1 & E & Hd1). rewrite E in Hr.
  match type of Hr with
  | context [dijkstra_for ?a ?b ?c ?d] =>
      pose proof (dijkstra_for_graph a b c d) as Hg;
      destruct (dijkstra_for a b c d) as [[s4|e] s5] eqn:E5
  end.
  - apply dijkstra_for_ok in E5 as ->. rewrite (IH _ Hr).
    simpl in Hg. rewrite Hg. apply Hd1.
  - simplify_eq. simpl in Hg. rewrite Hg. apply Hd1.
Qed.

Lemma dijkstra_while_ok fuel end_ (s s1 s2 : dij_state) :
  dijkstra_while fuel end_ s = Some (Ok s1, s2) → s1 = s2.
Proof.
  revert s. induction fuel as [|fuel IH]; intros s; simpl;
    destruct (heappop (dij_pq s)) as [[[cd c] pq']|]; intros Hr;
    simplify_eq; try done.
  case_decide; [by eapply IH|].
  case_match; [by simplify_eq|].
  destruct (getitem _ _) as [nb d1].
  destruct (dijkstra_for _ _ _ _) as [[s4|e] s5]; [by eapply IH|done].
Qed.

(** ** The invariant of the store *)

Lemma edges_in_vertices_nbrs g :
  edges_in_vertices g ↔
  ∀ k n w, (n, w) ∈ nbrs (graph g) k → k ∈ vertices g ∧ n ∈ vertices g.
Proof.
  unfold edges_in_vertices, nbrs. split.
  - intros Hinv k n w. destruct (graph g !! k) as [l|] eqn:E; simpl.
    + by apply Hinv.
    + by intros ?%elem_of_nil.
  - intros Hinv k l n w E Hin. apply (Hinv k n w). by rewrite E.
Qed.

Lemma edges_in_vertices_frame g d' :
  (∀ k, nbrs d' k = nbrs (graph g) k) →
  edges_in_vertices g → edges_in_vertices (set_graph g d').
Proof.
  rewrite !edges_in_vertices_nbrs. intros Hd Hinv k n w. simpl.
  rewrite Hd. apply Hinv.
Qed.

Lemma nbrs_strip_from d u v k :
  nbrs (strip_from d u v) k
  = if decide (k = u) then without v (nbrs d u) else nbrs d k.
Proof.
  unfold strip_from. destruct (getitem_eq d u) as (d' & -> & Hd').
  unfold nbrs at 1. case_decide as E.
  - subst. by rewrite lookup_insert_eq.
  - rewrite lookup_insert_ne by done. apply Hd'.
Qed.

Lemma elem_of_without v (l : list (V * Z)) n w :
  (n, w) ∈ without v l ↔ n ≠ v ∧ (n, w) ∈ l.
Proof. unfold without. by rewrite list_elem_of_filter. Qed.

Lemma nbrs_remove_vertex g v k :
  nbrs (graph (remove_vertex g v)) k
  = if decide (k = v) then [] else without v (nbrs (graph g) k).
Proof.
  unfold remove_vertex, nbrs. simpl. case_decide as E.
  - subst. by rewrite lookup_delete_eq.
  - rewrite lookup_delete_ne by done. rewrite lookup_fmap.
    by destruct (graph g !! k).
Qed.

Lemma nbrs_add_vertex g v k :
  nbrs (graph (add_vertex g v)) k = nbrs (graph g) k.
Proof.
  unfold add_vertex. simpl. destruct (graph g !! v) eqn:E; [done|].
  unfold nbrs. destruct (decide (v = k)) as [->|].
  - by rewrite lookup_insert_eq, E.
  - by rewrite lookup_insert_ne.
Qed.

Lemma exec_edges_in_vertices fuel o g g' :
  exec fuel o g = Some g' → edges_in_vertices g → edges_in_vertices g'.
Proof.
  destruct o; simpl; intros Hex Hinv.
  - (* add_vertex *)
    simplify_eq. revert Hinv. rewrite !edges_in_vertices_nbrs.
    intros Hinv k n w. rewrite nbrs_add_vertex. intros Hin.
    apply Hinv in Hin. unfold add_vertex. simpl. set_solver.
  - (* add_edge *)
    simplify_eq. revert Hinv. rewrite !edges_in_vertices_nbrs.
    intros Hinv k n w'. unfold add_edge. simpl.
    destruct (directed g); rewrite !nbrs_append_to;
      repeat case_decide; subst; rewrite ?elem_of_app, ?list_elem_of_singleton;
      intros Hin; destruct_or?; simplify_eq;
      try (apply Hinv in Hin); set_solver.
  - (* remove_edge *)
    simplify_eq. revert Hinv. rewrite !edges_in_vertices_nbrs.
    intros Hinv k n w'. unfold remove_edge. simpl.
    destruct (directed g); rewrite !nbrs_strip_from;
      repeat case_decide; subst; rewrite ?elem_of_without;
      intros Hin; destruct_and?; by apply (Hinv _ _ w').
  - (* remove_vertex *)
    simplify_eq. revert Hinv. rewrite !edges_in_vertices_nbrs.
    intros Hinv k n w'. rewrite nbrs_remove_vertex.
    case_decide; [by intros ?%elem_of_nil|].
    rewrite elem_of_without. intros [? Hin]. apply Hinv in Hin.
    unfold remove_vertex. simpl. set_solver.
  - (* get_neighbors *)
    simplify_eq. unfold get_neighbors.
    destruct (getitem_eq (graph g) v) as (d' & -> & Hd'). simpl.
    by apply edges_in_vertices_frame.
  - (* has_edge *)
    simplify_eq. unfold has_edge.
    destruct (getitem_eq (graph g) u) as (d' & -> & Hd'). simpl.
    by apply edges_in_vertices_frame.
  - (* bfs *)
    unfold bfs in Hex.
    destruct (bfs_while _ _ _ _ _) as [[r d']|] eqn:E; simplify_eq/=.
    apply edges_in_vertices_frame; [|done].
    by eapply bfs_while_frame.
  - (* dfs *)
    unfold dfs in Hex.
    destruct (dfs_recursive _ _ _) as [s'|] eqn:E; simplify_eq/=.
    apply edges_in_vertices_frame; [|done].
    intros k. by apply (dfs_recursive_frame _ _ _ _ E).
  - (* shortest_path_bfs *)
    unfold shortest_path_bfs in Hex. case_decide; [by simplify_eq/=|].
    destruct (sp_while _ _ _ _ _) as [[r d']|] eqn:E; simplify_eq/=.
    apply edges_in_vertices_frame; [|done].
    by eapply sp_while_frame.
  - (* dijkstra *)
    unfold dijkstra in Hex.
    destruct (dijkstra_while _ _ _) as [[o s']|] eqn:E; [|done].
    pose proof (dijkstra_while_frame _ _ _ _ _ E) as E'. simpl in E'.
    assert (edges_in_vertices (set_graph g (dij_graph s'))) as Hg
      by by apply edges_in_vertices_frame.
    destruct o as [s1|e]; [|by simplify_eq/=].
    apply dijkstra_while_ok in E as ->.
    repeat case_match; by simplify_eq/=.
Qed.

(** C2 (as the code behaves): after every sequence of calls of [add_vertex],
    [add_edge], [remove_edge], [remove_vertex], [get_neighbors],
    [has_edge], [bfs], [dfs], [shortest_path_bfs] and [dijkstra] on a fresh
    graph, [vertices] contains every vertex that appears as a neighbor in an
    adjacency list and every key whose adjacency list is not empty.  (Keys
    with an empty list are created by reads of unknown vertices and need not
    be in [vertices].) *)
Theorem reaches_edges_in_vertices dir (ops : list (op V)) g :
  reaches dir ops g → edges_in_vertices g.
Proof.
  induction 1 as [|ops g fuel o g' _ IH Hex].
  - intros k l n w. unfold init. simpl. by rewrite lookup_empty.
  - by eapply exec_edges_in_vertices.
Qed.

(** ** Unknown vertices *)

Lemma exec_vertices fuel (o : op V) g g' x :
  exec fuel o g = Some g' → x ∈ vertices g' → x ∈ vertices g ∨ adds x o.
Proof.
  destruct o; simpl; intros Hex Hx.
  - simplify_eq. unfold add_vertex in Hx. simpl in Hx. set_solver.
  - simplify_eq. unfold add_edge in Hx. simpl in Hx. set_solver.
  - simplify_eq. by left.
  - simplify_eq. unfold remove_vertex in Hx. simpl in Hx. set_solver.
  - simplify_eq. unfold get_neighbors in Hx.
    destruct (getitem _ _). by left.
  - simplify_eq. unfold has_edge in Hx. destruct (getitem _ _). by left.
  - unfold bfs in Hex. destruct (bfs_while _ _ _ _ _) as [[]|];
      simplify_eq/=. by left.
  - unfold dfs in Hex. destruct (dfs_recursive _ _ _); simplify_eq/=.
    by left.
  - unfold shortest_path_bfs in Hex. case_decide; [simplify_eq/=; by left|].
    destruct (sp_while _ _ _ _ _) as [[]|]; simplify_eq/=. by left.
  - unfold dijkstra in Hex. left.
    repeat case_match; simplify_eq/=; done.
Qed.

Lemma never_added_not_in_vertices dir (ops : list (op V)) g v :
  reaches dir ops g → Forall (λ o, ¬ adds v o) ops → v ∉ vertices g.
Proof.
  induction 1 as [|ops g fuel o g' _ IH Hex]; intros Hall.
  - unfold init. simpl. set_solver.
  - apply Forall_app in Hall as [Hops Ho]. rewrite Forall_singleton in Ho.
    intros Hv. eapply exec_vertices in Hv as [?|?]; [|done|done].
    by apply IH.
Qed.

Lemma nbrs_outside_vertices g v :
  edges_in_vertices g → v ∉ vertices g → nbrs (graph g) v = [].
Proof.
  rewrite edges_in_vertices_nbrs. intros Hinv Hv.
  destruct (nbrs (graph g) v) as [|[n w] l] eqn:E; [done|].
  destruct (Hinv v n w) as [? _]; [|done]. rewrite E. by left.
Qed.

(** C7: a vertex [v] that no call ever added is queried without error:
    [get_neighbors(v)] returns the empty list, and [bfs(v)] and [dfs(v)]
    return [[v]]. *)
Theorem unknown_vertex_queries dir (ops : list (op V)) g v fuel :
  reaches dir ops g →
  Forall (λ o, ¬ adds v o) ops →
  (1 ≤ fuel)%nat →
  (get_neighbors g v).1 = []
  ∧ fst <$> bfs fuel g v = Some [v]
  ∧ fst <$> dfs fuel g v = Some [v].
Proof.
  intros Hr Hnever Hfuel.
  assert (nbrs (graph g) v = []) as Hn.
  { apply nbrs_outside_vertices.
    - by eapply reaches_edges_in_vertices.
    - by eapply never_added_not_in_vertices. }
  destruct fuel as [|fuel]; [lia|].
  split; [|split].
  - unfold get_neighbors.
    destruct (getitem_eq (graph g) v) as (d' & -> & _). by rewrite Hn.
  - unfold bfs. simpl.
    destruct (getitem_eq (graph g) v) as (d' & -> & _). rewrite Hn. simpl.
    by destruct fuel.
  - unfold dfs. simpl.
    destruct (getitem_eq (graph g) v) as (d' & -> & _). by rewrite Hn.
Qed.

(** ** The heap *)

Lemma heap_min_in (x : Z * V) l : heap_min x l ∈ x :: l.
Proof.
  revert x. induction l as [|y l IH]; intros x; simpl; [by left|].
  specialize (IH (if tuple_lt y x then y else x)).
  destruct (tuple_lt y x); set_solver.
Qed.

Lemma remove_one_length (m : Z * V) l :
  m ∈ l → S (length (remove_one m l)) = length l.
Proof.
  induction l as [|y l IH]; simpl; [by intros ?%elem_of_nil|].
  intros Hin. case_decide; [done|].
  apply elem_of_cons in Hin as [?|Hin]; [congruence|].
  simpl. by rewrite IH.
Qed.

Lemma remove_one_subseteq (m : Z * V) l : remove_one m l ⊆ l.
Proof.
  induction l as [|y l IH]; simpl; [done|].
  case_decide; set_solver.
Qed.

Lemma heappop_spec (pq : list (Z * V)) m pq' :
  heappop pq = Some (m, pq') →
  m ∈ pq ∧ S (length pq') = length pq ∧ pq' ⊆ pq.
Proof.
  destruct pq as [|x l]; [done|]. intros Hq.
  assert (m = heap_min x l ∧ pq' = remove_one (heap_min x l) (x :: l))
    as [-> ->] by (unfold heappop in Hq; by simplify_eq).
  pose proof (heap_min_in x l). split; [done|].
  split; [by apply remove_one_length|apply remove_one_subseteq].
Qed.

Lemma heappop_None (pq : list (Z * V)) : heappop pq = None → pq = [].
Proof. by destruct pq. Qed.

(** ** [dijkstra]: termination, and the unknown target *)

Lemma pending_insert d visited k l :
  d !! k = None →
  pending (<[k := l]> d) visited
  = ((if decide (k ∈ visited) then O else length l) + pending d visited)%nat.
Proof.
  intros Hk. unfold pending.
  rewrite map_fold_insert_L; [done| |done].
  intros. lia.
Qed.

Lemma pending_getitem d visited k :
  pending (getitem d k).2 visited = pending d visited.
Proof.
  unfold getitem. destruct (d !! k) eqn:E; [done|]. simpl.
  rewrite pending_insert by done. by case_decide.
Qed.

Lemma pending_add_absent d visited k :
  d !! k = None → pending d ({[k]} ∪ visited) = pending d visited.
Proof.
  induction d as [|i x m Hi IH] using map_ind; [done|].
  intros Hk. apply lookup_insert_None in Hk as [Hk Hne].
  rewrite !pending_insert by done. rewrite IH by done.
  repeat case_decide; set_solver.
Qed.

Lemma pending_visit d visited k :
  k ∉ visited →
  (pending d ({[k]} ∪ visited) + length (nbrs d k))%nat = pending d visited.
Proof.
  intros Hk. induction d as [|i x m Hi IH] using map_ind.
  { done. }
  rewrite !pending_insert by done. unfold nbrs in *.
  destruct (decide (i = k)) as [->|Hne].
  - rewrite lookup_insert_eq. simpl. rewrite pending_add_absent by done.
    rewrite decide_True by set_solver. rewrite decide_False by done. lia.
  - rewrite lookup_insert_ne by done.
    repeat case_decide; try set_solver; lia.
Qed.

Lemma dijkstra_for_spec current current_dist nb (s s' : dij_state) o :
  dijkstra_for current current_dist nb s = (o, s') →
  dom (dij_distances s') = dom (dij_distances s)
  ∧ (length (dij_pq s') ≤ length (dij_pq s) + length nb)%nat
  ∧ (∀ e, e ∈ dij_pq s' → e ∈ dij_pq s ∨ e.2 ∈ dom (dij_distances s))
  ∧ dij_visited s' = dij_visited s
  ∧ (o = Raise KeyError ∨ o = Ok s').
Proof.
  revert s. induction nb as [|[n w] nb IH]; intros s; simpl.
  { intros [= <- <-]. repeat split; eauto with lia. }
  destruct (dij_distances s !! n) as [dn|] eqn:E.
  2:{ intros [= <- <-]. repeat split; eauto with lia. }
  case_match.
  - intros Hr. apply IH in Hr as (Hdom & Hlen & Hpq & Hvis & Ho).
    simpl in *. assert (n ∈ dom (dij_distances s)) as Hn
      by (apply elem_of_dom; eauto).
    repeat split; [set_solver|lia| |done|done].
    intros e He. apply Hpq in He as [He|He].
    + unfold heappush in He. apply elem_of_cons in He as [->|]; eauto.
    + right. set_solver.
  - intros Hr. apply IH in Hr as (Hdom & Hlen & Hpq & Hvis & Ho).
    repeat split; eauto with lia.
Qed.

Lemma dijkstra_while_unknown_end (D : gset V) e fuel :
  e ∉ D →
  ∀ s : dij_state,
    dom (dij_distances s) = D →
    (∀ q, q ∈ dij_pq s → q.2 ∈ D) →
    (length (dij_pq s) + pending (dij_graph s) (dij_visited s) ≤ fuel)%nat →
    ∃ o s', dijkstra_while fuel (Some e) s = Some (o, s')
            ∧ (o = Raise KeyError
               ∨ ∃ s1, o = Ok s1 ∧ dom (dij_distances s1) = D).
Proof.
  intros He. induction fuel as [|fuel IH]; intros s Hdom Hpq Hfuel.
  - simpl. destruct (heappop (dij_pq s)) as [[[cd c] pq']|] eqn:Epop.
    + apply heappop_spec in Epop as (_ & Hlen & _). lia.
    + eauto 10.
  - simpl. destruct (heappop (dij_pq s)) as [[[cd c] pq']|] eqn:Epop;
      [|eauto 10].
    apply heappop_spec in Epop as (Hin & Hlen & Hsub).
    case_decide as Hvis.
    { apply IH; simpl; [done| |lia]. intros x Hx. apply Hpq, Hsub, Hx. }
    assert (c ≠ e) as Hce.
    { intros ->. apply He. by apply (Hpq _ Hin). }
    simpl. rewrite bool_decide_eq_false_2 by done. rewrite andb_false_r.
    pose proof (getitem_fst (dij_graph s) c) as Hnb.
    pose proof (pending_getitem (dij_graph s) ({[c]} ∪ dij_visited s) c)
      as Hpend.
    destruct (getitem (dij_graph s) c) as [nb d']. simpl in Hnb, Hpend.
    subst nb.
    pose proof (pending_visit (dij_graph s) (dij_visited s) c Hvis) as Hv.
    match goal with
    | |- context [dijkstra_for ?a ?b ?c ?d] =>
        pose proof (dijkstra_for_graph a b c d) as Hg;
        destruct (dijkstra_for a b c d) as [o s5] eqn:E5
    end.
    apply dijkstra_for_spec in E5 as (Hdom5 & Hlen5 & Hpq5 & Hvis5 & Ho).
    simpl in *.
    destruct Ho as [->| ->]; [eauto 10|].
    apply IH.
    + by rewrite Hdom5.
    + intros x Hx. apply Hpq5 in Hx as [Hx|Hx].
      * apply Hpq, Hsub, Hx.
      * by rewrite <- Hdom.
    + rewrite Hg, Hvis5, Hpend. lia.
Qed.

(** C9: when [end] is truthy, differs from [start] and is not in
    [vertices], [dijkstra(start, end)] raises [KeyError]: the loop runs to
    the end (or raises [KeyError] itself) and [distances[end]] finds no
    key. *)
Theorem dijkstra_unknown_end_raises g start e :
  e ≠ start → e ∉ vertices g → py_truthy e = true →
  ∃ fuel0, ∀ fuel, (fuel0 ≤ fuel)%nat →
    fst <$> dijkstra fuel g start (Some e) = Some (Raise KeyError).
Proof.
  intros Hes Hev Htruthy.
  exists (S (pending (graph g) ∅)). intros fuel Hfuel.
  unfold dijkstra.
  destruct (dijkstra_while_unknown_end ({[start]} ∪ vertices g) e fuel
              ltac:(set_solver)
              (mkDij (graph g)
                     (<[start := Fin 0]> (gset_to_gmap Inf (vertices g)))
                     ∅ [(0, start)] ∅))
    as (o & s' & -> & Ho); simpl.
  - rewrite dom_insert_L, dom_gset_to_gmap. done.
  - intros x ->%list_elem_of_singleton. simpl. set_solver.
  - lia.
  - destruct Ho as [->|(s1 & -> & Hdom)]; [done|].
    rewrite Htruthy.
    assert (dij_distances s1 !! e = None) as ->; [|done].
    apply not_elem_of_dom. rewrite Hdom. set_solver.
Qed.

(** ** Traversals visit exactly the reachable vertices *)

Lemma edge_targets d a b : edge d a b → b ∈ targets d.
Proof.
  intros [w Hin]. unfold nbrs in Hin.
  destruct (d !! a) as [l|] eqn:E; simpl in Hin;
    [|by apply elem_of_nil in Hin].
  unfold targets. apply elem_of_union_list.
  exists (list_to_set l.*1). split.
  - apply list_elem_of_fmap. exists (a, l). split; [done|].
    by apply elem_of_map_to_list.
  - apply elem_of_list_to_set, list_elem_of_fmap. by exists (b, w).
Qed.

Lemma edge_nbrs d a b : edge d a b ↔ b ∈ (nbrs d a).*1.
Proof.
  unfold edge. rewrite list_elem_of_fmap. split.
  - intros [w Hin]. by exists (b, w).
  - intros ([y w] & -> & Hin). by exists w.
Qed.

Lemma size_difference_add (U : gset V) visited x :
  x ∈ U → x ∉ visited →
  S (size (U ∖ ({[x]} ∪ visited))) = size (U ∖ visited).
Proof.
  intros HU Hx.
  assert (U ∖ visited = {[x]} ∪ U ∖ ({[x]} ∪ visited)) as ->.
  { apply set_eq. intros y. destruct (decide (y = x)); set_solver. }
  pose proof (size_union (C:=gset V) {[x]} (U ∖ ({[x]} ∪ visited))) as Hs.
  pose proof (size_singleton (C:=gset V) x) as H1.
  rewrite Hs by set_solver. by rewrite H1.
Qed.

(** Closed under edges and containing [start] means containing everything
    reachable. *)
Lemma closed_reachable d start (X : gset V) x :
  start ∈ X → (∀ a b, a ∈ X → edge d a b → b ∈ X) →
  rtc (edge d) start x → x ∈ X.
Proof.
  intros Hs Hclosed. revert x.
  apply (rtc_ind_r (λ x, x ∈ X) start); [done|].
  intros y z _ Hyz Hy. by eapply Hclosed.
Qed.

Lemma bfs_for_spec (U : gset V) nb visited queue visited' queue' :
  bfs_for nb visited queue = (visited', queue') →
  (∀ x, x ∈ nb.*1 → x ∈ U) →
  ∃ new, queue' = queue ++ new
         ∧ visited' = list_to_set new ∪ visited
         ∧ NoDup new
         ∧ (∀ x, x ∈ new → (x ∉ visited) ∧ x ∈ nb.*1)
         ∧ (∀ x, x ∈ nb.*1 → x ∈ visited')
         ∧ (length new + size (U ∖ visited') = size (U ∖ visited))%nat.
Proof.
  revert visited queue.
  induction nb as [|[n w] nb IH]; intros visited queue; simpl.
  { intros [= <- <-] _. exists []. rewrite app_nil_r.
    repeat split; try done; try set_solver. constructor. }
  intros Hr HU. case_decide as Hn.
  - destruct (IH _ _ Hr) as (new & -> & -> & Hnd & Hnew & Hall & Hsz).
    { intros x Hx. apply HU. by right. }
    exists new. repeat split; try done.
    + by apply Hnew.
    + right. by apply Hnew.
    + intros x [->|Hx]%elem_of_cons; [set_solver|by apply Hall].
  - destruct (IH _ _ Hr) as (new & -> & -> & Hnd & Hnew & Hall & Hsz).
    { intros x Hx. apply HU. by right. }
    exists (n :: new). repeat split.
    + by rewrite <- app_assoc.
    + set_solver.
    + constructor; [|done]. intros Hin. apply Hnew in Hin. set_solver.
    + apply elem_of_cons in H as [->|Hx]; [done|].
      apply Hnew in Hx. set_solver.
    + apply elem_of_cons in H as [->|Hx]; [by left|].
      right. by apply Hnew.
    + intros x [->|Hx]%elem_of_cons; [set_solver|by apply Hall].
    + simpl. rewrite Hsz. apply size_difference_add; [|done].
      apply HU. by left.
Qed.

Lemma bfs_while_spec d0 start (U : gset V) fuel :
  (∀ a b, edge d0 a b → b ∈ U) →
  ∀ d visited queue result,
    (∀ k, nbrs d k = nbrs d0 k) →
    NoDup (result ++ queue) →
    (∀ x, x ∈ visited ↔ x ∈ result ++ queue) →
    visited ⊆ U →
    (∀ x, x ∈ visited → rtc (edge d0) start x) →
    (∀ x y, x ∈ result → edge d0 x y → y ∈ visited) →
    head (result ++ queue) = Some start →
    (length queue + size (U ∖ visited) ≤ fuel)%nat →
    ∃ r d', bfs_while fuel d visited queue result = Some (r, d')
            ∧ NoDup r ∧ head r = Some start
            ∧ ∀ x, x ∈ r ↔ rtc (edge d0) start x.
Proof.
  intros HU. induction fuel as [|fuel IH];
    intros d visited queue result Hd Hnd Hvis Hsub Hreach Hclosed Hhead Hfuel.
  - destruct queue as [|v queue]; [|simpl in Hfuel; lia].
    simpl. rewrite app_nil_r in *. exists result, d.
    repeat split; try done.
    + intros Hx. apply Hreach, Hvis, Hx.
    + intros Hx. apply Hvis.
      apply (closed_reachable d0 start visited); [| |done].
      * apply Hvis. destruct result; simplify_eq/=. by left.
      * intros a b Ha. apply Hclosed, Hvis, Ha.
  - destruct queue as [|v queue].
    { simpl. rewrite app_nil_r in *. exists result, d.
      repeat split; try done.
      + intros Hx. apply Hreach, Hvis, Hx.
      + intros Hx. apply Hvis.
        apply (closed_reachable d0 start visited); [| |done].
        * apply Hvis. destruct result; simplify_eq/=. by left.
        * intros a b Ha. apply Hclosed, Hvis, Ha. }
    simpl. destruct (getitem_eq d v) as (d1 & -> & Hd1).
    destruct (bfs_for (nbrs d v) visited queue) as [visited' queue'] eqn:Efor.
    assert (v ∈ visited) as Hv by (apply Hvis; set_solver).
    apply (bfs_for_spec U) in Efor
      as (new & -> & -> & Hndnew & Hnew & Hall & Hsz).
    2:{ intros x Hx. apply (HU v). apply edge_nbrs. by rewrite <- Hd. }
    assert ((result ++ [v]) ++ queue ++ new = (result ++ v :: queue) ++ new)
      as Heq by (by rewrite <- !app_assoc).
    apply IH.
    + intros k. by rewrite Hd1.
    + rewrite Heq. apply NoDup_app. split; [done|]. split; [|done].
      intros x Hx Hx'. apply Hnew in Hx' as [Hx' _]. apply Hx', Hvis, Hx.
    + intros x. rewrite Heq. rewrite elem_of_union, elem_of_list_to_set,
        Hvis, (elem_of_app _ new). tauto.
    + intros x [Hx%elem_of_list_to_set|Hx]%elem_of_union; [|by apply Hsub].
      apply (HU v). apply edge_nbrs. rewrite <- Hd. by apply Hnew.
    + intros x [Hx%elem_of_list_to_set|Hx]%elem_of_union; [|by apply Hreach].
      eapply rtc_r; [by apply Hreach|].
      apply edge_nbrs. rewrite <- Hd. by apply Hnew.
    + intros x y [Hx|Hx%list_elem_of_singleton]%elem_of_app Hxy.
      * apply elem_of_union. right. by eapply Hclosed.
      * subst x. apply Hall. rewrite Hd. by apply edge_nbrs.
    + rewrite Heq. destruct (result ++ v :: queue); by simplify_eq/=.
    + rewrite length_app. simpl in Hfuel. lia.
Qed.

Lemma bfs_correct g start fuel :
  (S (size ({[start]} ∪ targets (graph g))) ≤ fuel)%nat →
  ∃ r g', bfs fuel g start = Some (r, g')
          ∧ NoDup r ∧ head r = Some start
          ∧ ∀ x, x ∈ r ↔ rtc (edge (graph g)) start x.
Proof.
  intros Hfuel. unfold bfs.
  destruct (bfs_while_spec (graph g) start ({[start]} ∪ targets (graph g))
              fuel) with (d := graph g) (visited := ({[start]} : gset V))
              (queue := [start]) (result := @nil V)
    as (r & d' & -> & Hr); try done.
  - intros a b Hab. apply elem_of_union. right. by eapply edge_targets.
  - simpl. apply NoDup_singleton.
  - intros x. simpl. rewrite elem_of_singleton, list_elem_of_singleton. done.
  - set_solver.
  - intros x ->%elem_of_singleton. done.
  - intros x y ?%elem_of_nil. done.
  - simpl. pose proof (subseteq_size
      (({[start]} ∪ targets (graph g)) ∖ {[start]})
      ({[start]} ∪ targets (graph g)) ltac:(set_solver)). lia.
  - eauto.
Qed.

Lemma dfs_for_spec d0 (U : gset V) fuel
    (rec : V → dfs_state → option dfs_state) :
  (∀ a b, edge d0 a b → b ∈ U) →
  (∀ x (s : dfs_state),
     x ∉ dfs_visited s → x ∈ U → dfs_visited s ⊆ U →
     (∀ k, nbrs (dfs_graph s) k = nbrs d0 k) →
     (size (U ∖ dfs_visited s) ≤ fuel)%nat →
     ∃ s' new, rec x s = Some s' ∧ dfs_post d0 [x] s s' (x :: new)) →
  ∀ nb (s : dfs_state),
    (∀ x, x ∈ nb.*1 → x ∈ U) →
    dfs_visited s ⊆ U →
    (∀ k, nbrs (dfs_graph s) k = nbrs d0 k) →
    (size (U ∖ dfs_visited s) ≤ fuel)%nat →
    ∃ s' new, dfs_for rec nb s = Some s'
              ∧ dfs_post d0 nb.*1 s s' new
              ∧ (∀ x, x ∈ nb.*1 → x ∈ dfs_visited s')
              ∧ dfs_visited s' ⊆ U.
Proof.
  intros HUe Hrec.
  induction nb as [|[n w] nb IH]; intros s HU Hsub Hd Hfuel.
  { exists s, []. simpl. split; [done|]. split; [|split; [|done]].
    - unfold dfs_post. rewrite app_nil_r. split; [done|].
      split; [by rewrite list_to_set_nil, (left_id_L ∅ (∪))|].
      split; [constructor|].
      split; [by intros x ?%elem_of_nil|].
      split; [by intros x ?%elem_of_nil|].
      split; [by intros x y ?%elem_of_nil|done].
    - by intros x ?%elem_of_nil. }
  simpl. case_decide as Hn.
  - destruct (IH s) as (s' & new & -> & Hpost & Hall & Hsub'); try done.
    { intros x Hx. apply HU. by right. }
    exists s', new. split; [done|].
    destruct Hpost as (Hres & Hvis & Hnd & Hnew & Hroots & Hclosed & Hd').
    split; [|split; [|done]].
    + repeat split; try done.
      intros x Hx. destruct (Hroots x Hx) as (r & Hr & Hrx).
      exists r. split; [by right|done].
    + intros x [->|Hx]%elem_of_cons; [|by apply Hall].
      rewrite Hvis. set_solver.
  - destruct (Hrec n s) as (s1 & new1 & -> & Hpost1); try done.
    { apply HU. by left. }
    destruct Hpost1 as (Hres1 & Hvis1 & Hnd1 & Hnew1 & Hroots1 & Hclosed1 & Hd1).
    assert (dfs_visited s1 ⊆ U) as Hsub1.
    { rewrite Hvis1. intros x [Hx%elem_of_list_to_set|Hx]%elem_of_union;
        [|by apply Hsub].
      destruct (Hroots1 x Hx) as (r & ->%list_elem_of_singleton & Hr).
      assert (n ∈ U) as HnU by (apply HU; by left).
      revert Hr. apply (rtc_ind_r (λ x, x ∈ U) n); [done|].
      intros y z _ Hyz _. by eapply HUe. }
    destruct (IH s1) as (s' & new2 & -> & Hpost2 & Hall & Hsub'); try done.
    { intros x Hx. apply HU. by right. }
    { etrans; [|exact Hfuel]. apply subseteq_size. rewrite Hvis1.
      set_solver. }
    destruct Hpost2 as (Hres2 & Hvis2 & Hnd2 & Hnew2 & Hroots2 & Hclosed2 & Hd2).
    exists s', ((n :: new1) ++ new2). split; [done|].
    split; [|split; [|done]].
    + repeat split.
      * by rewrite Hres2, Hres1, <- app_assoc.
      * rewrite Hvis2, Hvis1, list_to_set_app_L. set_solver.
      * apply NoDup_app. split; [done|]. split; [|done].
        intros x Hx Hx'. apply Hnew2 in Hx'. apply Hx'. rewrite Hvis1.
        apply elem_of_union. left. by apply elem_of_list_to_set.
      * intros x [Hx|Hx]%elem_of_app; [by apply Hnew1|].
        apply Hnew2 in Hx. intros Hxs. apply Hx. rewrite Hvis1. set_solver.
      * intros x [Hx|Hx]%elem_of_app.
        -- destruct (Hroots1 x Hx) as (r & ->%list_elem_of_singleton & Hr).
           exists n. split; [by left|done].
        -- destruct (Hroots2 x Hx) as (r & Hr & Hrx).
           exists r. split; [by right|done].
      * intros x y [Hx|Hx]%elem_of_app Hxy.
        -- rewrite Hvis2. apply elem_of_union. right. by eapply Hclosed1.
        -- by eapply Hclosed2.
      * done.
    + intros x [->|Hx]%elem_of_cons; [|by apply Hall].
      rewrite Hvis2, Hvis1. set_solver.
Qed.

Lemma dfs_recursive_spec d0 (U : gset V) :
  (∀ a b, edge d0 a b → b ∈ U) →
  ∀ fuel x (s : dfs_state),
    x ∉ dfs_visited s → x ∈ U → dfs_visited s ⊆ U →
    (∀ k, nbrs (dfs_graph s) k = nbrs d0 k) →
    (size (U ∖ dfs_visited s) ≤ fuel)%nat →
    ∃ s' new, dfs_recursive fuel x s = Some s'
              ∧ dfs_post d0 [x] s s' (x :: new).
Proof.
  intros HUe. induction fuel as [|fuel IH]; intros x s Hx HxU Hsub Hd Hfuel.
  { pose proof (size_difference_add U (dfs_visited s) x HxU Hx). lia. }
  simpl. destruct (getitem_eq (dfs_graph s) x) as (d1 & -> & Hd1).
  destruct (dfs_for_spec d0 U fuel (dfs_recursive fuel) HUe IH
              (nbrs (dfs_graph s) x)
              (mkDfs d1 ({[x]} ∪ dfs_visited s) (dfs_result s ++ [x])))
    as (s' & new & -> & Hpost & Hall & Hsub'); simpl.
  - intros y Hy. apply (HUe x). apply edge_nbrs. by rewrite <- Hd.
  - set_solver.
  - intros k. by rewrite Hd1.
  - pose proof (size_difference_add U (dfs_visited s) x HxU Hx). lia.
  - destruct Hpost as (Hres & Hvis & Hnd & Hnew & Hroots & Hclosed & Hd').
    simpl in *. exists s', new. split; [done|].
    split; [by rewrite Hres, <- app_assoc|].
    split; [rewrite Hvis; set_solver|].
    split.
    { constructor; [|done]. intros Hin. apply Hnew in Hin. set_solver. }
    split.
    { intros y [->|Hy]%elem_of_cons; [done|].
      apply Hnew in Hy. set_solver. }
    split.
    { intros y [->|Hy]%elem_of_cons.
      - exists x. split; [by left|done].
      - destruct (Hroots y Hy) as (r & Hr & Hry).
        exists x. split; [by left|].
        eapply rtc_l; [|done]. apply edge_nbrs. by rewrite <- Hd. }
    split; [|done].
    intros y z [->|Hy]%elem_of_cons Hyz.
    + apply Hall. rewrite Hd. by apply edge_nbrs.
    + by eapply Hclosed.
Qed.

Lemma dfs_correct g start fuel :
  (S (size ({[start]} ∪ targets (graph g))) ≤ fuel)%nat →
  ∃ r g', dfs fuel g start = Some (r, g')
          ∧ NoDup r ∧ head r = Some start
          ∧ ∀ x, x ∈ r ↔ rtc (edge (graph g)) start x.
Proof.
  intros Hfuel. unfold dfs.
  destruct (dfs_recursive_spec (graph g) ({[start]} ∪ targets (graph g)))
    with (fuel := fuel) (x := start) (s := mkDfs (graph g) ∅ [])
    as (s' & new & -> & Hpost); simpl; try done.
  - intros a b Hab. apply elem_of_union. right. by eapply edge_targets.
  - set_solver.
  - pose proof (subseteq_size
      (({[start]} ∪ targets (graph g)) ∖ ∅)
      ({[start]} ∪ targets (graph g)) ltac:(set_solver)). lia.
  - destruct Hpost as (Hres & Hvis & Hnd & Hnew & Hroots & Hclosed & Hd').
    simpl in *. rewrite Hres. eexists _, _. split; [done|].
    split; [done|]. split; [done|].
    intros x. split.
    + intros Hx. destruct (Hroots x Hx) as (r & ->%list_elem_of_singleton & Hr).
      done.
    + intros Hx.
      assert (x ∈ dfs_visited s') as Hin; [|rewrite Hvis in Hin; set_solver].
      apply (closed_reachable (graph g) start); [| |done].
      * rewrite Hvis. set_solver.
      * intros a b Ha. apply Hclosed. rewrite Hvis in Ha. set_solver.
Qed.

(** C6: the sequences returned by [bfs(start)] and by [dfs(start)] each
    contain every vertex reachable from [start] exactly once, contain no
    other vertex, and begin with [start]. *)
Theorem traversals_visit_reachable g start :
  ∃ fuel0, ∀ fuel, (fuel0 ≤ fuel)%nat →
    (∃ r g', bfs fuel g start = Some (r, g')
             ∧ NoDup r ∧ head r = Some start
             ∧ ∀ x, x ∈ r ↔ rtc (edge (graph g)) start x)
    ∧ (∃ r g', dfs fuel g start = Some (r, g')
               ∧ NoDup r ∧ head r = Some start
               ∧ ∀ x, x ∈ r ↔ rtc (edge (graph g)) start x).
Proof.
  exists (S (size ({[start]} ∪ targets (graph g)))). intros fuel Hfuel.
  split; [by apply bfs_correct|by apply dfs_correct].
Qed.

(** ** Paths *)

Lemma is_walk_snoc d p v n :
  is_walk d p → last p = Some v → edge d v n → is_walk d (p ++ [n]).
Proof.
  induction p as [|a p IH]; [done|].
  destruct p as [|b p].
  - simpl. intros _ [= ->] He. done.
  - intros [Hab Hw] Hl He. rewrite last_cons_cons in Hl.
    split; [done|]. by apply IH.
Qed.

Lemma is_path_snoc d p a v n :
  is_path d p a v → edge d v n → is_path d (p ++ [n]) a n.
Proof.
  intros (Hh & Hl & Hw) He. split; [|split].
  - destruct p; by simplify_eq/=.
  - apply last_snoc.
  - by eapply is_walk_snoc.
Qed.

Lemma is_path_nsteps d p a b :
  is_path d p a b → nsteps (edge d) (pred (length p)) a b.
Proof.
  intros (Hh & Hl & Hw). revert a Hh Hl Hw.
  induction p as [|x p IH]; intros a Hh Hl Hw; [done|].
  simpl in Hh. simplify_eq. destruct p as [|y p].
  - simpl in *. simplify_eq. constructor.
  - destruct Hw as [Hxy Hw]. rewrite last_cons_cons in Hl.
    simpl. eapply nsteps_l; [done|]. by apply (IH y).
Qed.

Lemma bsteps_inv_r {A} (R : relation A) (i : nat) (p r : A) :
  bsteps R (S i) p r → bsteps R i p r ∨ ∃ q, bsteps R i p q ∧ R q r.
Proof.
  intros (m & Hm & Hs)%bsteps_nsteps.
  destruct (decide (m = S i)) as [->|Hne].
  - apply nsteps_inv_r in Hs as (q & Hq & Hqr). right. exists q.
    split; [|done]. apply bsteps_nsteps. eauto.
  - left. apply bsteps_nsteps. exists m. split; [lia|done].
Qed.

Lemma bsteps_0_inv {A} (R : relation A) (p r : A) : bsteps R 0 p r → p = r.
Proof. by inversion 1. Qed.

(** ** [shortest_path_bfs] *)

Lemma sp_for_spec (U : gset V) e path nb visited
    (queue : list (V * list V)) :
  (∀ x, x ∈ nb.*1 → x ∈ U) →
  match sp_for e path nb visited queue with
  | inl p => p = path ++ [e] ∧ e ∈ nb.*1
  | inr (visited', queue') =>
      (e ∉ nb.*1)
      ∧ ∃ new, queue' = queue ++ ((λ n, (n, path ++ [n])) <$> new)
               ∧ visited' = list_to_set new ∪ visited
               ∧ (∀ x, x ∈ new → (x ∉ visited) ∧ x ∈ nb.*1)
               ∧ (∀ x, x ∈ nb.*1 → x ∈ visited')
               ∧ (length new + size (U ∖ visited')
                  = size (U ∖ visited))%nat
  end.
Proof.
  revert visited queue.
  induction nb as [|[n w] nb IH]; intros visited queue HU; simpl.
  { split; [by intros ?%elem_of_nil|]. exists []. simpl.
    rewrite app_nil_r, (left_id_L ∅ (∪)).
    split; [done|]. split; [done|].
    split; [by intros x ?%elem_of_nil|].
    split; [by intros x ?%elem_of_nil|done]. }
  case_decide as Hne.
  { subst. split; [done|by left]. }
  case_decide as Hn.
  - specialize (IH visited queue). destruct (sp_for _ _ _ _ _) as [p|[v' q']].
    + destruct IH as [-> He]; [intros x Hx; apply HU; by right|].
      split; [done|by right].
    + destruct IH as (He & new & -> & -> & Hnew & Hall & Hsz);
        [intros x Hx; apply HU; by right|].
      split.
      { intros [?|?]%elem_of_cons; [congruence|done]. }
      exists new. repeat split; try done.
      * by apply Hnew.
      * right. by apply Hnew.
      * intros x [->|Hx]%elem_of_cons; [set_solver|by apply Hall].
  - specialize (IH ({[n]} ∪ visited) (queue ++ [(n, path ++ [n])])).
    destruct (sp_for _ _ _ _ _) as [p|[v' q']].
    + destruct IH as [-> He]; [intros x Hx; apply HU; by right|].
      split; [done|by right].
    + destruct IH as (He & new & -> & -> & Hnew & Hall & Hsz);
        [intros x Hx; apply HU; by right|].
      split.
      { intros [?|?]%elem_of_cons; [congruence|done]. }
      exists (n :: new). repeat split.
      * by rewrite <- app_assoc.
      * set_solver.
      * apply elem_of_cons in H as [->|Hx]; [done|].
        apply Hnew in Hx. set_solver.
      * apply elem_of_cons in H as [->|Hx]; [by left|].
        right. by apply Hnew.
      * intros x [->|Hx]%elem_of_cons; [set_solver|by apply Hall].
      * simpl. rewrite Hsz. apply size_difference_add; [|done].
        apply HU. by left.
Qed.

Lemma sp_inv_init d0 start e :
  start ≠ e → sp_inv d0 start e 0 [(start, [start])] [] {[start]}.
Proof.
  intros Hne. split; [|split; [|split; [|split; [|split; [|split]]]]].
  - intros v p Hin. apply list_elem_of_singleton in Hin. by simplify_eq.
  - by intros v p ?%elem_of_nil.
  - intros x ->%elem_of_singleton. left. simpl. by left.
  - intros x ->%bsteps_0_inv. by apply elem_of_singleton.
  - intros x ->%elem_of_singleton. left. constructor.
  - by intros x ?%elem_of_nil.
  - by intros ?%elem_of_singleton.
Qed.

(** When the entries with [k] edges are used up, those with [k + 1] edges
    become the front. *)
Lemma sp_inv_shift d0 start e lvl back visited :
  sp_inv d0 start e lvl [] back visited →
  sp_inv d0 start e (S lvl) back [] visited.
Proof.
  intros (Hf & Hb & Hq & Hnear & Hvis & Hfar & He).
  split; [|split; [|split; [|split; [|split; [|split]]]]];
    try done.
  - by intros v p ?%elem_of_nil.
  - intros x Hx. rewrite app_nil_r. by apply Hq.
  - intros x [Hx|(y & Hy & Hyx)]%bsteps_inv_r; [by apply Hnear|].
    destruct (Hq y (Hnear y Hy)) as [Hin|Hdone].
    + by destruct (Hfar y Hin).
    + by apply (Hdone x).
  - intros x Hx. left. destruct (Hvis x Hx) as [Hk|Hin].
    + by apply bsteps_S.
    + apply list_elem_of_fmap in Hin as ([v p] & -> & Hin).
      destruct (Hb v p Hin) as [Hp Hlen].
      apply is_path_nsteps in Hp. rewrite Hlen in Hp. simpl in Hp.
      apply bsteps_nsteps. eauto.
  - by intros x ?%elem_of_nil.
Qed.

(** The queue is empty: nothing more is reachable, and [e] was not met. *)
Lemma sp_inv_done d0 start e lvl visited :
  sp_inv d0 start e lvl [] [] visited → ¬ rtc (edge d0) start e.
Proof.
  intros (Hf & Hb & Hq & Hnear & Hvis & Hfar & He) Hr. apply He.
  apply (closed_reachable d0 start); [| |done].
  - apply Hnear. constructor.
  - intros a b Ha Hab. destruct (Hq a Ha) as [Hin|Hdone]; [|by apply Hdone].
    by apply elem_of_nil in Hin.
Qed.

(** [e] is a neighbor of the vertex at the head of the queue. *)
Lemma sp_inv_found d0 start e lvl v p front back visited :
  sp_inv d0 start e lvl ((v, p) :: front) back visited →
  e ∈ (nbrs d0 v).*1 →
  sp_ok d0 start e (Some (p ++ [e])).
Proof.
  intros (Hf & Hb & Hq & Hnear & Hvis & Hfar & He) Hin.
  destruct (Hf v p) as [Hp Hlen]; [by left|].
  split; [by apply (is_path_snoc d0 p start v), edge_nbrs|].
  intros q Hq'. rewrite length_app, Hlen. simpl.
  destruct (decide (S lvl + 1 ≤ length q)%nat) as [|Hshort]; [done|].
  destruct He. apply Hnear. apply is_path_nsteps in Hq'.
  apply bsteps_nsteps. exists (pred (length q)). split; [lia|done].
Qed.

(** One iteration that does not meet [e]. *)
Lemma sp_inv_step d0 start e lvl v p front back visited new :
  sp_inv d0 start e lvl ((v, p) :: front) back visited →
  e ∉ (nbrs d0 v).*1 →
  (∀ x, x ∈ new → (x ∉ visited) ∧ x ∈ (nbrs d0 v).*1) →
  (∀ x, x ∈ (nbrs d0 v).*1 → x ∈ list_to_set new ∪ visited) →
  sp_inv d0 start e lvl front
         (back ++ ((λ n, (n, p ++ [n])) <$> new))
         (list_to_set new ∪ visited).
Proof.
  intros (Hf & Hb & Hq & Hnear & Hvis & Hfar & He) Hne Hnew Hall.
  destruct (Hf v p) as [Hp Hlen]; [by left|].
  split; [|split; [|split; [|split; [|split; [|split]]]]].
  - intros u q Hin. apply Hf. by right.
  - intros u q [Hin|Hin]%elem_of_app; [by apply Hb|].
    apply list_elem_of_fmap in Hin as (n & [= -> ->] & Hn).
    split.
    + apply (is_path_snoc d0 p start v); [done|].
      apply edge_nbrs. by apply Hnew.
    + rewrite length_app, Hlen. simpl. lia.
  - intros x [Hx%elem_of_list_to_set|Hx]%elem_of_union.
    + left. rewrite !fmap_app, !elem_of_app. right. right.
      rewrite <- list_fmap_compose. apply list_elem_of_fmap. by exists x.
    + destruct (Hq x Hx) as [Hin|Hdone].
      * simpl in Hin. apply elem_of_cons in Hin as [->|Hin].
        -- right. intros y Hy. by apply Hall, edge_nbrs.
        -- left. rewrite !fmap_app, !elem_of_app in *. tauto.
      * right. intros y Hy. apply elem_of_union. right. by apply Hdone.
  - intros x Hx. apply elem_of_union. right. by apply Hnear.
  - intros x [Hx%elem_of_list_to_set|Hx]%elem_of_union.
    + right. rewrite fmap_app, elem_of_app. right.
      rewrite <- list_fmap_compose. apply list_elem_of_fmap. by exists x.
    + destruct (Hvis x Hx) as [?|Hin]; [by left|].
      right. rewrite fmap_app, elem_of_app. by left.
  - intros x. rewrite fmap_app, elem_of_app. intros [Hx|Hx]; [by apply Hfar|].
    rewrite <- list_fmap_compose in Hx.
    apply list_elem_of_fmap in Hx as (n & -> & Hn). simpl.
    intros Hk. apply Hnear in Hk. by apply Hnew in Hn as [Hn _].
  - intros [Hx%elem_of_list_to_set|Hx]%elem_of_union; [|done].
    apply Hne. by apply Hnew.
Qed.

Lemma sp_while_spec d0 start e (U : gset V) fuel :
  (∀ a b, edge d0 a b → b ∈ U) →
  ∀ lvl front back d visited,
    (∀ x, nbrs d x = nbrs d0 x) →
    sp_inv d0 start e lvl front back visited →
    (length (front ++ back) + size (U ∖ visited) ≤ fuel)%nat →
    ∃ r d', sp_while fuel e d visited (front ++ back) = Some (r, d')
            ∧ sp_ok d0 start e r.
Proof.
  intros HUe. induction fuel as [|fuel IH];
    intros lvl front back d visited Hd Hinv Hfuel.
  - destruct front, back; simpl in Hfuel; try lia.
    simpl. eexists _, _. split; [done|]. by eapply sp_inv_done.
  - assert (front = [] ∧ back = []
            ∨ ∃ lvl' v p front' back',
                front ++ back = (v, p) :: front' ++ back'
                ∧ sp_inv d0 start e lvl' ((v, p) :: front') back' visited)
      as [[-> ->]|(lvl' & v & p & front' & back' & Heq & Hinv')].
    { destruct front as [|[v p] front].
      - destruct back as [|[v p] back]; [by left|].
        right. exists (S lvl), v, p, back, []. split.
        + by rewrite app_nil_r.
        + by apply sp_inv_shift.
      - right. by exists lvl, v, p, front, back. }
    { simpl. eexists _, _. split; [done|]. by eapply sp_inv_done. }
    rewrite Heq in *. simpl.
    destruct (getitem_eq d v) as (d1 & -> & Hd1).
    pose proof (sp_for_spec U e p (nbrs d v) visited (front' ++ back')) as Hfor.
    destruct (sp_for e p (nbrs d v) visited (front' ++ back'))
      as [r|[visited' queue']].
    + destruct Hfor as [-> Hin].
      { intros x Hx. apply (HUe v). apply edge_nbrs. by rewrite <- Hd. }
      eexists _, _. split; [done|].
      eapply sp_inv_found; [done|]. by rewrite <- Hd.
    + destruct Hfor as (Hne & new & -> & -> & Hnew & Hall & Hsz).
      { intros x Hx. apply (HUe v). apply edge_nbrs. by rewrite <- Hd. }
      rewrite <- app_assoc. apply (IH lvl').
      * intros x. by rewrite Hd1.
      * rewrite Hd in *. by apply (sp_inv_step d0 start e lvl' v).
      * simpl in Hfuel. rewrite length_app in Hfuel.
        rewrite !length_app, length_fmap. lia.
Qed.

(** C5: [shortest_path_bfs(start, end)] returns [[start]] when [start]
    equals [end]; otherwise, when [end] is reachable from [start], it returns
    a path from [start] to [end] with the fewest edges; and when [end] is not
    reachable it returns [None]. *)
Theorem shortest_path_bfs_correct g start e :
  ∃ fuel0, ∀ fuel, (fuel0 ≤ fuel)%nat →
    ∃ r g', shortest_path_bfs fuel g start e = Some (r, g')
      ∧ (start = e → r = Some [start])
      ∧ (start ≠ e → rtc (edge (graph g)) start e →
           ∃ p, r = Some p ∧ is_path (graph g) p start e
                ∧ ∀ q, is_path (graph g) q start e →
                       (length p ≤ length q)%nat)
      ∧ (¬ rtc (edge (graph g)) start e → r = None).
Proof.
  exists (S (size ({[start]} ∪ targets (graph g)))). intros fuel Hfuel.
  unfold shortest_path_bfs. case_decide as Hse.
  { subst. eexists _, _. split; [done|]. split; [done|].
    split; [done|]. intros Hr. by destruct Hr. }
  destruct (sp_while_spec (graph g) start e
              ({[start]} ∪ targets (graph g)) fuel)
    with (lvl := O) (front := [(start, [start])])
         (back := @nil (V * list V)) (d := graph g)
         (visited := ({[start]} : gset V))
    as (r & d' & Hw & Hok); try done.
  - intros a b Hab. apply elem_of_union. right. by eapply edge_targets.
  - by apply sp_inv_init.
  - simpl. pose proof (subseteq_size
      (({[start]} ∪ targets (graph g)) ∖ {[start]})
      ({[start]} ∪ targets (graph g)) ltac:(set_solver)). lia.
  - simpl in Hw. rewrite Hw. eexists _, _. split; [done|].
    split; [done|]. destruct r as [p|]; simpl in Hok.
    + split; [by eauto|]. intros Hnr. destruct Hnr.
      destruct Hok as [Hp _]. apply is_path_nsteps in Hp.
      by eapply rtc_nsteps_2.
    + split; [|done]. intros _ Hr. done.
Qed.

End GraphFacts.

(** * [dijkstra] on non-negative weights *)

Section DijkstraFacts.
Context {V : Type} {EqV : EqDecision V} {CntV : Countable V} {PyV : PyKey V}.
Implicit Types (x y a b c n : V) (p q : list V) (s : @dij_state V _ _).
Implicit Types (pq : list (Z * V)) (z W : Z).

(** ** The heap yields a smallest key *)

Lemma heap_min_le (m : Z * V) (l : list (Z * V)) (t : Z * V) :
  t ∈ m :: l → (heap_min m l).1 ≤ t.1.
Proof.
  revert m t. induction l as [|u l IH]; intros m t Hin; simpl.
  { apply list_elem_of_singleton in Hin as ->. lia. }
  pose proof (IH (if tuple_lt u m then u else m)) as IH'.
  assert ((if tuple_lt u m then u else m).1 ≤ m.1
          ∧ (if tuple_lt u m then u else m).1 ≤ u.1) as [Hm Hu].
  { unfold tuple_lt. destruct (u.1 <? m.1) eqn:E1; simpl.
    - apply Z.ltb_lt in E1. lia.
    - apply Z.ltb_ge in E1. destruct (u.1 =? m.1) eqn:E2; simpl.
      + apply Z.eqb_eq in E2. destruct (py_lt u.2 m.2); lia.
      + lia. }
  assert ((heap_min (if tuple_lt u m then u else m) l).1
          ≤ (if tuple_lt u m then u else m).1) as Hmin
    by (apply IH'; by left).
  apply elem_of_cons in Hin as [->|Hin]; [lia|].
  apply elem_of_cons in Hin as [->|Hin]; [lia|].
  apply IH'. by right.
Qed.

Lemma heappop_min pq (m : Z * V) pq' (t : Z * V) :
  heappop pq = Some (m, pq') → t ∈ pq → m.1 ≤ t.1.
Proof.
  destruct pq as [|u l]; [done|]. intros Hq Hin.
  assert (m = heap_min u l) as -> by (unfold heappop in Hq; by simplify_eq).
  by apply heap_min_le.
Qed.

Lemma elem_of_remove_one (m t : Z * V) (l : list (Z * V)) :
  t ∈ l → t ≠ m → t ∈ remove_one m l.
Proof.
  induction l as [|u l IH]; simpl; [done|].
  intros [->|Hin]%elem_of_cons Hne.
  - rewrite decide_False by done. by left.
  - case_decide; [done|]. right. by apply IH.
Qed.

Lemma heappop_keeps pq (m : Z * V) pq' (t : Z * V) :
  heappop pq = Some (m, pq') → t ∈ pq → t ≠ m → t ∈ pq'.
Proof.
  destruct pq as [|u l]; [done|]. intros Hq Hin Hne.
  assert (m = heap_min u l ∧ pq' = remove_one (heap_min u l) (u :: l))
    as [-> ->] by (unfold heappop in Hq; by simplify_eq).
  by apply elem_of_remove_one.
Qed.

(** ** Weighted paths *)

Lemma path_weight_nonempty (d : gmap V (list (V * Z))) p W :
  path_weight d p W → p ≠ [].
Proof. destruct 1; [done|]. by destruct p. Qed.

Lemma head_snoc_nonempty p c : p ≠ [] → head (p ++ [c]) = head p.
Proof. by destruct p. Qed.

Lemma rtc_path_weight (d : gmap V (list (V * Z))) a b :
  rtc (edge d) a b →
  ∃ p W, head p = Some a ∧ last p = Some b ∧ path_weight d p W.
Proof.
  revert b. apply (rtc_ind_r (λ b, ∃ p W, head p = Some a ∧ last p = Some b
                                         ∧ path_weight d p W) a).
  - exists [a], 0. repeat split. constructor.
  - intros y c _ [w Hyc] (p & W & Hh & Hl & Hp).
    exists (p ++ [c]), (W + w). split; [|split].
    + rewrite head_snoc_nonempty; [done|]. by eapply path_weight_nonempty.
    + apply last_snoc.
    + by eapply pw_snoc.
Qed.

Lemma path_weight_rtc (d : gmap V (list (V * Z))) p W a b :
  path_weight d p W → head p = Some a → last p = Some b → rtc (edge d) a b.
Proof.
  intros Hp. revert b. induction Hp as [a'|p b' c w W Hl Hin Hp IH];
    intros b Hh Hlast.
  - simpl in *. by simplify_eq.
  - rewrite last_snoc in Hlast. simplify_eq.
    rewrite head_snoc_nonempty in Hh by (by eapply path_weight_nonempty).
    eapply rtc_r; [by apply IH|]. by exists w.
Qed.

(** ** The predecessor map *)

Lemma tree_path_insert (previous : gmap V V) start x p n c :
  tree_path previous start x p → n ∉ p →
  tree_path (<[n := c]> previous) start x p.
Proof.
  induction 1 as [Hs|x c' p Hx Hc IH]; intros Hn.
  - constructor. rewrite lookup_insert_ne; [done|]. set_solver.
  - econstructor.
    + rewrite lookup_insert_ne; [done|]. set_solver.
    + apply IH. set_solver.
Qed.

Lemma tree_path_nonempty (previous : gmap V V) start x p :
  tree_path previous start x p → p ≠ [].
Proof. destruct 1; [done|]. by destruct p. Qed.

Lemma walk_previous_tree (previous : gmap V V) start x p :
  tree_path previous start x p →
  ∀ fuel acc, (length p ≤ S fuel)%nat →
    walk_previous fuel previous x acc = Some (acc ++ reverse (tail p)).
Proof.
  induction 1 as [Hs|x c p Hx Hc IH]; intros fuel acc Hlen.
  - destruct fuel; simpl; rewrite Hs, app_nil_r; done.
  - pose proof (tree_path_nonempty _ _ _ _ Hc) as Hne.
    destruct p as [|h t]; [done|].
    rewrite length_app in Hlen. simpl in Hlen.
    destruct fuel as [|fuel]; [lia|].
    simpl. rewrite Hx. rewrite IH by (simpl; lia).
    simpl. rewrite reverse_app. simpl. by rewrite <- app_assoc.
Qed.

(** ** The loop invariant *)

Variables (d0 : gmap V (list (V * Z))) (start : V) (D : gset V).
Hypothesis Hnonneg : ∀ a b w, (b, w) ∈ nbrs d0 a → 0 ≤ w.
Hypothesis Hkeys : ∀ a b w, (b, w) ∈ nbrs d0 a → b ∈ D.

Lemma path_weight_nonneg p W : path_weight d0 p W → 0 ≤ W.
Proof.
  induction 1 as [|p b c w W Hl Hin Hp IH]; [done|].
  pose proof (Hnonneg _ _ _ Hin). lia.
Qed.

Lemma dij_inv_ext (rel rel' : V → list (V * Z)) s :
  (∀ c, rel c = rel' c) → dij_inv d0 start D rel s →
  dij_inv d0 start D rel' s.
Proof.
  intros Hrel [? ? ? ? ? ? ? ? Hr]. split; try done.
  intros c zc x w Hc Hzc Hin. rewrite <- Hrel in Hin. by eapply Hr.
Qed.

Lemma dij_inv_init (d : gmap V (list (V * Z))) (X : gset V) :
  (∀ k, nbrs d k = nbrs d0 k) → D = {[start]} ∪ X →
  dij_inv d0 start D (nbrs d0)
    (mkDij d (<[start := Fin 0]> (gset_to_gmap Inf X)) ∅ [(0, start)] ∅).
Proof.
  intros Hd ->. split; simpl.
  - done.
  - by rewrite dom_insert_L, dom_gset_to_gmap.
  - by rewrite lookup_insert_eq.
  - by rewrite lookup_empty.
  - intros x Hx. by apply not_elem_of_empty in Hx.
  - intros x z p W Hx. by apply not_elem_of_empty in Hx.
  - intros x z Hx _. destruct (decide (x = start)) as [->|Hne].
    + rewrite lookup_insert_eq in Hx. simplify_eq. split; [by left|by left].
    + rewrite lookup_insert_ne in Hx by done.
      apply lookup_gset_to_gmap_Some in Hx as [_ ?]. done.
  - intros z x Hin. apply list_elem_of_singleton in Hin. simplify_eq.
    exists 0. by rewrite lookup_insert_eq.
  - intros c zc x w Hc. by apply not_elem_of_empty in Hc.
Qed.

(** A path from [start] ends in a finalized vertex, or passes a vertex that
    is not finalized and whose distance is at most the weight of the path. *)
Lemma frontier s p W :
  dij_inv d0 start D (nbrs d0) s →
  path_weight d0 p W → head p = Some start →
  ∀ x, last p = Some x →
    x ∈ dij_visited s
    ∨ ∃ b zb, (b ∉ dij_visited s)
              ∧ dij_distances s !! b = Some (Fin zb) ∧ zb ≤ W.
Proof.
  intros Hinv Hp. induction Hp as [a|p b c w W Hl Hin Hp IH]; intros Hh x Hx.
  - simpl in Hh, Hx. injection Hh as ->. injection Hx as <-.
    destruct (decide (start ∈ dij_visited s)) as [|Hnv]; [by left|].
    right. exists start, 0. split; [done|]. split; [apply Hinv|lia].
  - rewrite last_snoc in Hx. simplify_eq.
    rewrite head_snoc_nonempty in Hh by (by eapply path_weight_nonempty).
    pose proof (Hnonneg _ _ _ Hin) as Hw.
    destruct (IH Hh b Hl) as [Hb|(b' & zb & Hb' & Hzb & Hle)].
    + destruct (di_tree _ _ _ _ _ Hinv b Hb) as (pb & zb & _ & Hzb & _).
      pose proof (di_opt _ _ _ _ _ Hinv b zb p W Hb Hzb Hh Hl Hp) as Hopt.
      destruct (di_relaxed _ _ _ _ _ Hinv b zb x w Hb Hzb Hin)
        as (zx & Hzx & Hle).
      destruct (decide (x ∈ dij_visited s)) as [|Hnv]; [by left|].
      right. exists x, zx. split; [done|]. split; [done|lia].
    + right. exists b', zb. split; [done|]. split; [done|lia].
Qed.

(** A stale heap entry is dropped. *)
Lemma dij_inv_skip (rel : V → list (V * Z)) s z c pq' :
  dij_inv d0 start D rel s →
  heappop (dij_pq s) = Some ((z, c), pq') →
  c ∈ dij_visited s →
  dij_inv d0 start D rel
    (mkDij (dij_graph s) (dij_distances s) (dij_previous s) pq'
           (dij_visited s)).
Proof.
  intros Hinv Hpop Hc. pose proof Hinv as [? ? ? ? ? ? Hfin Hpq ?].
  split; simpl; try done.
  - intros x zx Hx Hnv. destruct (Hfin x zx Hx Hnv) as [Hin Hprev].
    split; [|done]. eapply heappop_keeps; [done|done|].
    intros [= -> ->]. done.
  - intros zx x Hin. apply Hpq.
    apply heappop_spec in Hpop as (_ & _ & Hsub). by apply Hsub.
Qed.

(** The vertex popped from the heap is finalized: its distance is the
    least weight of a path from [start]. *)
Lemma dij_inv_visit s z c pq' (d' : gmap V (list (V * Z))) :
  dij_inv d0 start D (nbrs d0) s →
  heappop (dij_pq s) = Some ((z, c), pq') →
  c ∉ dij_visited s →
  (∀ k, nbrs d' k = nbrs d0 k) →
  dij_distances s !! c = Some (Fin z)
  ∧ dij_inv d0 start D (rel_at d0 c [])
      (mkDij d' (dij_distances s) (dij_previous s) pq'
             ({[c]} ∪ dij_visited s)).
Proof.
  intros Hinv Hpop Hc Hd'.
  pose proof Hinv as [Hg Hdom Hst Hps Htree Hopt Hfin Hpq Hrel].
  pose proof (heappop_spec _ _ _ Hpop) as (Hin & _ & Hsub).
  destruct (Hpq z c Hin) as (zc & Hzc & Hle).
  destruct (Hfin c zc Hzc Hc) as [Hinc Hprev].
  pose proof (heappop_min _ _ _ _ Hpop Hinc) as Hmin. simpl in Hmin.
  assert (zc = z) as -> by lia.
  split; [done|].
  assert (∀ p W, head p = Some start → last p = Some c →
                 path_weight d0 p W → z ≤ W) as Hoptc.
  { intros p W Hh Hl Hp.
    destruct (frontier s p W Hinv Hp Hh c Hl) as [?|(b & zb & Hb & Hzb & HW)];
      [done|].
    destruct (Hfin b zb Hzb Hb) as [Hinb _].
    pose proof (heappop_min _ _ _ _ Hpop Hinb) as Hmb. simpl in Hmb. lia. }
  split; simpl; try done.
  - (* di_tree *)
    intros x [->%elem_of_singleton|Hx]%elem_of_union.
    + destruct Hprev as [->|(c' & zc' & w & Hpc & Hc' & Hzc' & Hedge & ->)].
      * exists [start], z. rewrite Hst in Hzc. simplify_eq.
        split; [by constructor|]. split; [done|].
        split; [constructor|]. split; [apply NoDup_singleton|].
        split; [|done]. intros y ->%list_elem_of_singleton. set_solver.
      * destruct (Htree c' Hc') as (p' & z' & Htp & Hz' & Hpw & Hnd & Hsubp
                                    & Hh & Hl).
        rewrite Hzc' in Hz'. simplify_eq.
        exists (p' ++ [c]), (z' + w).
        split; [by econstructor|]. split; [done|].
        split; [by eapply pw_snoc|].
        split.
        { apply NoDup_app. split; [done|]. split; [|apply NoDup_singleton].
          intros y Hy ->%list_elem_of_singleton. by apply Hc, Hsubp. }
        split.
        { intros y [Hy|Hy]%elem_of_app.
          - apply elem_of_union. right. by apply Hsubp.
          - apply list_elem_of_singleton in Hy as ->. set_solver. }
        split; [|apply last_snoc].
        rewrite head_snoc_nonempty; [done|]. by eapply path_weight_nonempty.
    + destruct (Htree x Hx) as (p' & z' & Htp & Hz' & Hpw & Hnd & Hsubp
                                & Hh & Hl).
      exists p', z'. repeat split; try done.
      intros y Hy. apply elem_of_union. right. by apply Hsubp.
  - (* di_opt *)
    intros x zx p W [->%elem_of_singleton|Hx]%elem_of_union Hzx Hh Hl Hp.
    + rewrite Hzc in Hzx. simplify_eq. by eapply Hoptc.
    + by eapply Hopt.
  - (* di_fin *)
    intros x zx Hzx Hnv.
    assert (x ≠ c) as Hxc by set_solver.
    destruct (Hfin x zx Hzx) as [Hinx Hprevx]; [set_solver|].
    split.
    + eapply heappop_keeps; [done|done|]. intros [= -> ->]. done.
    + destruct Hprevx as [->|(c' & zc' & w & ? & ? & ? & ? & ?)]; [by left|].
      right. exists c', zc', w. repeat split; try done. set_solver.
  - (* di_pq *)
    intros zx x Hinx. by apply Hpq, Hsub.
  - (* di_relaxed *)
    intros c' zc' x w Hc' Hzc' Hinx. unfold rel_at in Hinx.
    case_decide as Hcc; [by apply elem_of_nil in Hinx|].
    eapply Hrel; [|done|done]. set_solver.
Qed.

(** One entry [(n, w)] of the finalized vertex [c] is relaxed. *)
Lemma dij_inv_relax s z c (done : list (V * Z)) n w :
  dij_inv d0 start D (rel_at d0 c done) s →
  c ∈ dij_visited s → dij_distances s !! c = Some (Fin z) →
  (n, w) ∈ nbrs d0 c →
  ∃ dn, dij_distances s !! n = Some dn
    ∧ if dist_lt (z + w) dn then
        n ≠ c
        ∧ dij_inv d0 start D (rel_at d0 c (done ++ [(n, w)]))
            (mkDij (dij_graph s) (<[n := Fin (z + w)]> (dij_distances s))
                   (<[n := c]> (dij_previous s))
                   (heappush (dij_pq s) (z + w, n)) (dij_visited s))
      else dij_inv d0 start D (rel_at d0 c (done ++ [(n, w)])) s.
Proof.
  intros Hinv Hc Hzc Hedge.
  pose proof Hinv as [Hg Hdom Hst Hps Htree Hopt Hfin Hpq Hrel].
  assert (is_Some (dij_distances s !! n)) as [dn Hdn].
  { apply elem_of_dom. rewrite Hdom. by eapply Hkeys. }
  exists dn. split; [done|].
  pose proof (Hnonneg _ _ _ Hedge) as Hw.
  destruct (dist_lt (z + w) dn) eqn:Hlt.
  - (* the distance of [n] decreases *)
    destruct (Htree c Hc) as (pc & zc & Htp & Hzc' & Hpw & Hnd & Hsubp
                              & Hh & Hl).
    rewrite Hzc in Hzc'. simplify_eq.
    assert (path_weight d0 (pc ++ [n]) (zc + w)) as Hq
      by (by eapply pw_snoc).
    assert (head (pc ++ [n]) = Some start) as Hqh.
    { rewrite head_snoc_nonempty; [done|]. by eapply path_weight_nonempty. }
    assert (n ∉ dij_visited s) as Hnv.
    { intros Hn. destruct (Htree n Hn) as (_ & zn & _ & Hzn & _).
      rewrite Hdn in Hzn. simplify_eq.
      pose proof (Hopt n zn _ _ Hn Hdn Hqh (last_snoc _ _) Hq).
      simpl in Hlt. apply Z.ltb_lt in Hlt. lia. }
    assert (n ≠ start) as Hns.
    { intros ->. rewrite Hst in Hdn. simplify_eq. simpl in Hlt.
      apply Z.ltb_lt in Hlt. pose proof (path_weight_nonneg _ _ Hpw). lia. }
    assert (n ≠ c) as Hnc by (intros ->; done).
    assert (∀ zx, dn = Fin zx → zc + w < zx) as Hdec.
    { intros zx ->. simpl in Hlt. by apply Z.ltb_lt in Hlt. }
    split; [done|]. split; simpl.
    + done.
    + rewrite dom_insert_lookup_L; [done|]. by exists dn.
    + by rewrite lookup_insert_ne.
    + by rewrite lookup_insert_ne.
    + intros x Hx. destruct (Htree x Hx) as (px & zx & Htx & Hzx & Hpx & Hndx
                                             & Hsubx & Hhx & Hlx).
      exists px, zx. split.
      { apply tree_path_insert; [done|]. intros Hin. by apply Hnv, Hsubx. }
      split; [|done]. rewrite lookup_insert_ne; [done|]. by intros ->.
    + intros x zx p W Hx Hzx. rewrite lookup_insert_ne in Hzx by (by intros ->).
      by apply Hopt.
    + intros x zx Hzx Hx. destruct (decide (x = n)) as [->|Hxn].
      * rewrite lookup_insert_eq in Hzx. simplify_eq.
        split; [by left|]. right. exists c, zc, w.
        rewrite lookup_insert_eq, lookup_insert_ne by done. done.
      * rewrite lookup_insert_ne in Hzx by done.
        destruct (Hfin x zx Hzx Hx) as [Hin Hprev]. split; [by right|].
        destruct Hprev as [->|(c' & zc' & w' & ? & Hc' & ? & ? & ?)];
          [by left|].
        right. exists c', zc', w'.
        rewrite !lookup_insert_ne; [done| |done]. by intros ->.
    + intros zx x [Hin|Hin]%elem_of_cons.
      * simplify_eq. exists (zc + w). by rewrite lookup_insert_eq.
      * destruct (Hpq zx x Hin) as (zx' & Hzx' & Hle).
        destruct (decide (x = n)) as [->|Hxn].
        -- rewrite Hdn in Hzx'. simplify_eq. exists (zc + w).
           rewrite lookup_insert_eq. split; [done|].
           pose proof (Hdec zx' eq_refl). lia.
        -- exists zx'. by rewrite lookup_insert_ne.
    + intros c' zc' x w' Hc' Hzc'' Hin.
      rewrite lookup_insert_ne in Hzc'' by (by intros ->).
      assert ((c' = c ∧ (x, w') = (n, w))
              ∨ ∃ zx, dij_distances s !! x = Some (Fin zx) ∧ zx ≤ zc' + w')
        as [[-> Heq]|(zx & Hzx & Hle)].
      { unfold rel_at in Hin. case_decide as Hcc.
        - subst c'. apply elem_of_app in Hin as [Hin|Hin].
          + right. eapply Hrel; [done|done|]. unfold rel_at.
            by rewrite decide_True.
          + left. by apply list_elem_of_singleton in Hin.
        - right. eapply Hrel; [done|done|]. unfold rel_at.
          by rewrite decide_False. }
      * rewrite Hzc in Hzc''. injection Hzc'' as <-. injection Heq as -> ->.
        exists (zc + w). by rewrite lookup_insert_eq.
      * destruct (decide (x = n)) as [->|Hxn].
        -- rewrite Hdn in Hzx. simplify_eq. exists (zc + w).
           rewrite lookup_insert_eq. split; [done|].
           pose proof (Hdec zx eq_refl). lia.
        -- exists zx. by rewrite lookup_insert_ne.
  - (* no change *)
    destruct dn as [zn|]; [|done]. simpl in Hlt. apply Z.ltb_ge in Hlt.
    split; try done.
    intros c' zc' x w' Hc' Hzc' Hin. unfold rel_at in Hin.
    case_decide as Hcc.
    + subst c'. rewrite Hzc in Hzc'. simplify_eq.
      apply elem_of_app in Hin as [Hin|Hin].
      * eapply Hrel; [done|done|]. unfold rel_at. by rewrite decide_True.
      * apply list_elem_of_singleton in Hin. simplify_eq. eauto.
    + eapply Hrel; [done|done|]. unfold rel_at. by rewrite decide_False.
Qed.

(** The [for] loop relaxes the remaining entries of [c]. *)
Lemma dijkstra_for_inv z c (todo : list (V * Z)) :
  ∀ (done : list (V * Z)) s,
    nbrs d0 c = done ++ todo →
    dij_inv d0 start D (rel_at d0 c done) s →
    c ∈ dij_visited s → dij_distances s !! c = Some (Fin z) →
    ∃ s', dijkstra_for c z todo s = (Ok s', s')
          ∧ dij_inv d0 start D (rel_at d0 c (done ++ todo)) s'.
Proof.
  induction todo as [|[n w] todo IH]; intros done s Hnb Hinv Hc Hzc.
  { exists s. by rewrite app_nil_r. }
  assert ((n, w) ∈ nbrs d0 c) as Hedge.
  { rewrite Hnb. apply elem_of_app. right. by left. }
  destruct (dij_inv_relax s z c done n w Hinv Hc Hzc Hedge)
    as (dn & Hdn & Hcase).
  simpl. rewrite Hdn.
  assert (done ++ (n, w) :: todo = (done ++ [(n, w)]) ++ todo) as Heq
    by (by rewrite <- app_assoc).
  rewrite Heq. destruct (dist_lt (z + w) dn).
  - destruct Hcase as [Hnc Hinv']. apply IH; simpl; try done.
    + by rewrite Hnb, Heq.
    + by rewrite lookup_insert_ne.
  - apply IH; try done. by rewrite Hnb, Heq.
Qed.

(** The [while] loop ends, without raising, with [e] finalized or with
    the heap empty. *)
Lemma dijkstra_while_correct end_ fuel :
  ∀ s, dij_inv d0 start D (nbrs d0) s →
    (length (dij_pq s) + pending (dij_graph s) (dij_visited s) ≤ fuel)%nat →
    ∃ s' rel, dijkstra_while fuel end_ s = Some (Ok s', s')
      ∧ dij_inv d0 start D rel s'
      ∧ ((∃ e, end_ = Some e ∧ e ∈ dij_visited s')
         ∨ ((∀ c, rel c = nbrs d0 c) ∧ dij_pq s' = [])).
Proof.
  induction fuel as [|fuel IH]; intros s Hinv Hfuel.
  - simpl. destruct (heappop (dij_pq s)) as [[[z c] pq']|] eqn:Epop.
    + apply heappop_spec in Epop as (_ & Hlen & _). lia.
    + apply heappop_None in Epop. exists s, (nbrs d0). eauto.
  - simpl. destruct (heappop (dij_pq s)) as [[[z c] pq']|] eqn:Epop.
    2:{ apply heappop_None in Epop. exists s, (nbrs d0). eauto. }
    pose proof (heappop_spec _ _ _ Epop) as (Hin & Hlen & Hsub).
    case_decide as Hvis.
    { apply IH; [by eapply dij_inv_skip|]. simpl. lia. }
    destruct (is_end end_ c) eqn:Hend.
    { destruct end_ as [e|]; [|done]. simpl in Hend.
      apply andb_prop in Hend as [_ Hce]. apply bool_decide_eq_true in Hce.
      subst c.
      destruct (dij_inv_visit s z e pq' (dij_graph s) Hinv Epop Hvis)
        as [_ Hinv']; [apply Hinv|].
      eexists _, _. split; [done|]. split; [exact Hinv'|].
      left. exists e. split; [done|]. simpl. set_solver. }
    pose proof (getitem_fst (dij_graph s) c) as Hnb.
    pose proof (getitem_nbrs (dij_graph s) c) as Hd'.
    pose proof (pending_getitem (dij_graph s) ({[c]} ∪ dij_visited s) c)
      as Hpend.
    destruct (getitem (dij_graph s) c) as [nb d']. simpl in Hnb, Hd', Hpend.
    subst nb. rewrite (di_graph _ _ _ _ _ Hinv).
    destruct (dij_inv_visit s z c pq' d' Hinv Epop Hvis) as [Hzc Hinv'].
    { intros k. rewrite Hd'. apply Hinv. }
    destruct (dijkstra_for_inv z c (nbrs d0 c) []
                (mkDij d' (dij_distances s) (dij_previous s) pq'
                       ({[c]} ∪ dij_visited s)))
      as (s4 & Hfor & Hinv4); simpl; try done.
    { set_solver. }
    pose proof (dijkstra_for_graph c z (nbrs d0 c)
                  (mkDij d' (dij_distances s) (dij_previous s) pq'
                         ({[c]} ∪ dij_visited s))) as Hg4.
    rewrite Hfor in Hg4 |- *.
    pose proof (dijkstra_for_spec _ _ _ _ _ _ Hfor)
      as (_ & Hlen4 & _ & Hvis4 & _).
    simpl in Hg4, Hlen4, Hvis4.
    pose proof (pending_visit (dij_graph s) (dij_visited s) c Hvis) as Hv.
    rewrite (di_graph _ _ _ _ _ Hinv) in Hv.
    apply IH.
    + eapply dij_inv_ext; [|exact Hinv4]. intros c'. unfold rel_at.
      by destruct (decide (c' = c)) as [->|].
    + rewrite Hg4, Hvis4, Hpend. lia.
Qed.

Lemma NoDup_length_le_size p (X : gset V) :
  NoDup p → (∀ y, y ∈ p → y ∈ X) → (length p ≤ size X)%nat.
Proof.
  intros Hnd Hsub. rewrite <- (size_list_to_set (C:=gset V) p) by done.
  apply subseteq_size. intros y Hy. apply Hsub.
  by apply elem_of_list_to_set in Hy.
Qed.

(** What the code after the loop finds. *)
Lemma dijkstra_final e s (rel : V → list (V * Z)) fuel :
  dij_inv d0 start D rel s →
  e ∈ dij_visited s ∨ ((∀ c, rel c = nbrs d0 c) ∧ dij_pq s = []) →
  e ∈ D → (size D ≤ fuel)%nat →
  match dij_distances s !! e with
  | None => False
  | Some Inf => ¬ rtc (edge d0) start e
  | Some (Fin z) =>
      ∃ path, walk_previous fuel (dij_previous s) e [] = Some path
        ∧ head (reverse (path ++ [start])) = Some start
        ∧ last (reverse (path ++ [start])) = Some e
        ∧ path_weight d0 (reverse (path ++ [start])) z
        ∧ ∀ q z', head q = Some start → last q = Some e →
                  path_weight d0 q z' → z ≤ z'
  end.
Proof.
  intros Hinv Hpost HeD Hfuel.
  assert (is_Some (dij_distances s !! e)) as [de Hde].
  { apply elem_of_dom. by rewrite (di_dom _ _ _ _ _ Hinv). }
  rewrite Hde. destruct de as [z|].
  - assert (e ∈ dij_visited s) as Hev.
    { destruct Hpost as [?|[_ Hpq]]; [done|].
      destruct (decide (e ∈ dij_visited s)) as [|Hnv]; [done|].
      destruct (di_fin _ _ _ _ _ Hinv e z Hde Hnv) as [Hin _].
      rewrite Hpq in Hin. by apply elem_of_nil in Hin. }
    destruct (di_tree _ _ _ _ _ Hinv e Hev)
      as (p & z' & Htp & Hz' & Hpw & Hnd & Hsub & Hh & Hl).
    rewrite Hde in Hz'. simplify_eq.
    assert (length p ≤ S fuel)%nat as Hlen.
    { etrans; [apply (NoDup_length_le_size p D); [done|]|lia].
      intros y Hy. rewrite <- (di_dom _ _ _ _ _ Hinv).
      destruct (di_tree _ _ _ _ _ Hinv y (Hsub y Hy)) as (_ & zy & _ & Hzy & _).
      apply elem_of_dom. eauto. }
    rewrite (walk_previous_tree _ _ _ _ Htp fuel [] Hlen). simpl.
    assert (reverse (reverse (tail p) ++ [start]) = p) as Hrev.
    { rewrite reverse_app, reverse_involutive. simpl.
      destruct p; by simplify_eq/=. }
    exists (reverse (tail p)). rewrite Hrev.
    split; [done|]. split; [done|]. split; [done|]. split; [done|].
    intros q zq Hqh Hql Hq. by eapply (di_opt _ _ _ _ _ Hinv e z' q zq).
  - assert (e ∉ dij_visited s) as Hnv.
    { intros Hev. destruct (di_tree _ _ _ _ _ Hinv e Hev)
        as (_ & z & _ & Hz & _). congruence. }
    destruct Hpost as [?|[Hrel Hpq]]; [done|].
    intros (p & W & Hh & Hl & Hp)%rtc_path_weight.
    assert (dij_inv d0 start D (nbrs d0) s) as Hinv'
      by (by eapply dij_inv_ext).
    destruct (frontier s p W Hinv' Hp Hh e Hl) as [?|(b & zb & Hb & Hzb & _)];
      [done|].
    destruct (di_fin _ _ _ _ _ Hinv b zb Hzb Hb) as [Hin _].
    rewrite Hpq in Hin. by apply elem_of_nil in Hin.
Qed.

End DijkstraFacts.

Section DijkstraCorrect.
Context {V : Type} {EqV : EqDecision V} {CntV : Countable V} {PyV : PyKey V}.

(** A property of all adjacency entries can be checked entry by entry. *)
Lemma map_Forall_nbrs (P : V → V → Z → Prop) (d : gmap V (list (V * Z))) :
  map_Forall (λ k l, Forall (λ e, P k e.1 e.2) l) d →
  ∀ k n w, (n, w) ∈ nbrs d k → P k n w.
Proof.
  intros Hall k n w. unfold nbrs.
  destruct (d !! k) as [l|] eqn:E; simpl; [|by intros ?%elem_of_nil].
  intros Hin. specialize (Hall k l E). rewrite Forall_forall in Hall.
  apply (Hall (n, w) Hin).
Qed.

(** On non-negative weights, for a truthy target that is [start] or a known
    vertex, [dijkstra(start, end)] returns a path from [start] to [end]
    together with its weight, the least weight of all such paths, or, when
    [end] is not reachable, [(None, infinity)]. *)
Theorem dijkstra_correct (g : Graph V) (start e : V) :
  (∀ a b w, (b, w) ∈ nbrs (graph g) a → 0 ≤ w) →
  edges_in_vertices g →
  py_truthy e = true →
  e ∈ {[start]} ∪ vertices g →
  ∃ fuel0, ∀ fuel, (fuel0 ≤ fuel)%nat →
    ∃ r g', dijkstra fuel g start (Some e) = Some (Ok r, g')
      ∧ ((∃ p z, r = PathDist (Some p) (Fin z)
                 ∧ head p = Some start ∧ last p = Some e
                 ∧ path_weight (graph g) p z
                 ∧ ∀ q z', head q = Some start → last q = Some e →
                           path_weight (graph g) q z' → z ≤ z')
         ∨ (r = PathDist None Inf ∧ ¬ rtc (edge (graph g)) start e)).
Proof.
  intros Hnonneg Hinv Htruthy HeD.
  assert (∀ a b w, (b, w) ∈ nbrs (graph g) a → b ∈ {[start]} ∪ vertices g)
    as Hkeys.
  { intros a b w Hin.
    pose proof (proj1 (edges_in_vertices_nbrs g) Hinv a b w Hin) as [_ Hb].
    apply elem_of_union. by right. }
  exists (S (pending (graph g) ∅) + size ({[start]} ∪ vertices g))%nat.
  intros fuel Hfuel. unfold dijkstra.
  destruct (dijkstra_while_correct (graph g) start ({[start]} ∪ vertices g)
              Hnonneg Hkeys (Some e) fuel
              (mkDij (graph g)
                     (<[start := Fin 0]> (gset_to_gmap Inf (vertices g)))
                     ∅ [(0, start)] ∅))
    as (s' & rel & -> & Hinv' & Hpost0).
  { by apply dij_inv_init. }
  { simpl. lia. }
  assert (e ∈ dij_visited s' ∨ ((∀ c, rel c = nbrs (graph g) c)
                                ∧ dij_pq s' = [])) as Hpost.
  { destruct Hpost0 as [(e' & [= <-] & He)|Hr]; [by left|by right]. }
  rewrite Htruthy.
  pose proof (dijkstra_final (graph g) start ({[start]} ∪ vertices g)
                Hnonneg e s' rel fuel Hinv' Hpost HeD ltac:(lia))
    as Hfin.
  destruct (dij_distances s' !! e) as [[z|]|]; [| |done].
  - destruct Hfin as (path & -> & Hh & Hl & Hp & Hmin).
    eexists _, _. split; [done|]. left. eauto 10.
  - eexists _, _. split; [done|]. by right.
Qed.

(** Without a target, on non-negative weights, [dijkstra(start)] returns the
    dictionary of the vertices and [start], where a reachable vertex has the
    least weight of the paths from [start] to it, reached by one of them, and
    an unreachable one has infinity. *)
Theorem dijkstra_distances_correct (g : Graph V) (start : V) :
  (∀ a b w, (b, w) ∈ nbrs (graph g) a → 0 ≤ w) →
  edges_in_vertices g →
  ∃ fuel0, ∀ fuel, (fuel0 ≤ fuel)%nat →
    ∃ dm g', dijkstra fuel g start None = Some (Ok (Distances dm), g')
      ∧ dom dm = {[start]} ∪ vertices g
      ∧ ∀ x, x ∈ {[start]} ∪ vertices g →
          (∃ z, dm !! x = Some (Fin z)
                ∧ (∃ p, head p = Some start ∧ last p = Some x
                        ∧ path_weight (graph g) p z)
                ∧ ∀ q z', head q = Some start → last q = Some x →
                          path_weight (graph g) q z' → z ≤ z')
          ∨ (dm !! x = Some Inf ∧ ¬ rtc (edge (graph g)) start x).
Proof.
  intros Hnonneg Hinv.
  assert (∀ a b w, (b, w) ∈ nbrs (graph g) a → b ∈ {[start]} ∪ vertices g)
    as Hkeys.
  { intros a b w Hin.
    pose proof (proj1 (edges_in_vertices_nbrs g) Hinv a b w Hin) as [_ Hb].
    apply elem_of_union. by right. }
  exists (S (pending (graph g) ∅) + size ({[start]} ∪ vertices g))%nat.
  intros fuel Hfuel. unfold dijkstra.
  destruct (dijkstra_while_correct (graph g) start ({[start]} ∪ vertices g)
              Hnonneg Hkeys None fuel
              (mkDij (graph g)
                     (<[start := Fin 0]> (gset_to_gmap Inf (vertices g)))
                     ∅ [(0, start)] ∅))
    as (s' & rel & -> & Hinv' & Hpost0).
  { by apply dij_inv_init. }
  { simpl. lia. }
  destruct Hpost0 as [(e' & [=] & _)|Hr].
  eexists _, _. split; [done|].
  split; [apply (di_dom _ _ _ _ _ Hinv')|].
  intros x Hx.
  pose proof (dijkstra_final (graph g) start ({[start]} ∪ vertices g)
                Hnonneg x s' rel fuel Hinv' (or_intror Hr) Hx ltac:(lia))
    as Hfin.
  destruct (dij_distances s' !! x) as [[z|]|]; [| |done].
  - destruct Hfin as (path & _ & Hh & Hl & Hp & Hmin).
    left. exists z. eauto 10.
  - by right.
Qed.

Lemma dijkstra_while_falsy_end (e : V) fuel (s : @dij_state V _ _) :
  py_truthy e = false →
  dijkstra_while fuel (Some e) s = dijkstra_while fuel None s.
Proof.
  intros He. revert s. induction fuel as [|fuel IH]; intros s; [done|].
  simpl. rewrite He. simpl.
  destruct (heappop (dij_pq s)) as [[[z c] pq']|]; [|done].
  case_decide; [apply IH|].
  destruct (getitem (dij_graph s) c) as [nb d'].
  destruct (dijkstra_for c z nb _) as [[s4|x] s5]; [apply IH|done].
Qed.

(** [if end and current == end] and [if end:] test the truth value of
    [end]: with a target that Python takes as false (the vertex [0], the
    vertex ['']), [dijkstra(start, end)] does what [dijkstra(start)] does and
    returns the distance dictionary, not a path. *)
Theorem dijkstra_falsy_end (g : Graph V) (start e : V) fuel :
  py_truthy e = false →
  dijkstra fuel g start (Some e) = dijkstra fuel g start None.
Proof.
  intros He. unfold dijkstra. rewrite (dijkstra_while_falsy_end e) by done.
  by rewrite He.
Qed.

End DijkstraCorrect.

(** * The store operations *)

Section StoreFacts.
Context {V : Type} {EqV : EqDecision V} {CntV : Countable V} {PyV : PyKey V}.
Implicit Types (d : gmap V (list (V * Z))) (g : Graph V).
Implicit Types (u v a b k : V) (w : Z).

Lemma has_edge_edge g u v : (has_edge g u v).1 = true ↔ edge (graph g) u v.
Proof.
  unfold has_edge, edge. destruct (getitem_eq (graph g) u) as (d' & -> & _).
  simpl. rewrite existsb_exists. split.
  - intros ([y w] & Hin%list_elem_of_In & Hy%bool_decide_eq_true).
    simpl in Hy. subst y. by exists w.
  - intros [w Hin]. exists (v, w). split; [by apply list_elem_of_In|].
    by apply bool_decide_eq_true.
Qed.

Lemma nbrs_add_edge g u v w k :
  nbrs (graph (add_edge g u v w)) k
  = nbrs (graph g) k
      ++ (if decide (k = u) then [(v, w)] else [])
      ++ (if directed g then [] else if decide (k = v) then [(u, w)] else []).
Proof.
  unfold add_edge. simpl. destruct (directed g).
  - rewrite nbrs_append_to. case_decide; subst; by rewrite ?app_nil_r.
  - rewrite !nbrs_append_to.
    repeat case_decide; subst; rewrite ?nbrs_append_to;
      repeat case_decide; try done; by rewrite <- ?app_assoc, ?app_nil_r.
Qed.

(** [add_edge(u, v, weight)] appends: the entry [(v, weight)] goes to the end
    of the list of [u], and in an undirected graph [(u, weight)] to the end
    of the list of [v]; every earlier entry stays where it was, so parallel
    edges accumulate and a self-loop of an undirected graph is entered
    twice. *)
Theorem add_edge_appends g u v w k :
  nbrs (graph (add_edge g u v w)) k
  = nbrs (graph g) k
      ++ (if decide (k = u) then [(v, w)] else [])
      ++ (if directed g then [] else if decide (k = v) then [(u, w)] else []).
Proof. apply nbrs_add_edge. Qed.

(** After [add_edge(u, v)], [has_edge(u, v)] holds, and [has_edge(v, u)] in
    an undirected graph; no other answer of [has_edge] changes, and both
    ends are vertices. *)
Theorem add_edge_has_edge g u v w a b :
  ((has_edge (add_edge g u v w) a b).1 = true
   ↔ (has_edge g a b).1 = true ∨ (a = u ∧ b = v)
     ∨ (directed g = false ∧ a = v ∧ b = u))
  ∧ vertices (add_edge g u v w) = {[v]} ∪ ({[u]} ∪ vertices g).
Proof.
  split; [|done]. rewrite !has_edge_edge. unfold edge.
  setoid_rewrite nbrs_add_edge. setoid_rewrite elem_of_app.
  setoid_rewrite elem_of_app. split.
  - intros (w' & [Hin|[Hin|Hin]]).
    + left. by exists w'.
    + case_decide; [|by apply elem_of_nil in Hin].
      apply list_elem_of_singleton in Hin. simplify_eq. right. by left.
    + destruct (directed g); [by apply elem_of_nil in Hin|].
      case_decide; [|by apply elem_of_nil in Hin].
      apply list_elem_of_singleton in Hin. simplify_eq. right. by right.
  - intros [[w' Hin]|[[-> ->]|(Hd & -> & ->)]].
    + exists w'. by left.
    + exists w. right. left. rewrite decide_True by done.
      by apply list_elem_of_singleton.
    + exists w. right. right. rewrite Hd, decide_True by done.
      by apply list_elem_of_singleton.
Qed.

Lemma nbrs_remove_edge g u v k :
  nbrs (graph (remove_edge g u v)) k
  = let l1 := if decide (k = u) then without v (nbrs (graph g) k)
              else nbrs (graph g) k in
    if directed g then l1
    else if decide (k = v) then without u l1 else l1.
Proof.
  unfold remove_edge. simpl. destruct (directed g).
  - rewrite nbrs_strip_from. by case_decide; subst.
  - rewrite !nbrs_strip_from.
    repeat case_decide; subst; rewrite ?nbrs_strip_from;
      repeat case_decide; done.
Qed.

(** [remove_edge(u, v)] removes every entry of [u] that targets [v], all
    parallel copies at once, and in an undirected graph every entry of [v]
    that targets [u]; no other answer of [has_edge] changes, and the vertex
    set stays as it is: the ends remain vertices. *)
Theorem remove_edge_has_edge g u v a b :
  ((has_edge (remove_edge g u v) a b).1 = true
   ↔ (has_edge g a b).1 = true ∧ ¬ (a = u ∧ b = v)
     ∧ ¬ (directed g = false ∧ a = v ∧ b = u))
  ∧ vertices (remove_edge g u v) = vertices g.
Proof.
  split; [|done]. rewrite !has_edge_edge. unfold edge.
  setoid_rewrite nbrs_remove_edge. simpl.
  destruct (directed g); repeat case_decide; subst;
    repeat setoid_rewrite elem_of_without; naive_solver.
Qed.

(** [remove_vertex(v)] takes [v] out of the vertex set and out of the keys
    of the adjacency map, and removes every entry that targets [v]; the
    edges between other vertices stay. *)
Theorem remove_vertex_has_edge g v a b :
  ((has_edge (remove_vertex g v) a b).1 = true
   ↔ (has_edge g a b).1 = true ∧ a ≠ v ∧ b ≠ v)
  ∧ vertices (remove_vertex g v) = vertices g ∖ {[v]}
  ∧ graph (remove_vertex g v) !! v = None.
Proof.
  split; [|split; [done|apply lookup_delete_eq]].
  rewrite !has_edge_edge. unfold edge.
  setoid_rewrite nbrs_remove_vertex.
  case_decide; subst.
  - split; [intros [w' ?%elem_of_nil]; done|naive_solver].
  - setoid_rewrite elem_of_without. naive_solver.
Qed.

Lemma without_id v (l : list (V * Z)) :
  (∀ w, (v, w) ∉ l) → without v l = l.
Proof.
  intros Hno. unfold without. induction l as [|[y w] l IH]; [done|].
  rewrite filter_cons. simpl. rewrite decide_True.
  - f_equal. apply IH. intros w' Hin. apply (Hno w'). by right.
  - intros ->. apply (Hno w). by left.
Qed.

Lemma without_app v (l1 l2 : list (V * Z)) :
  without v (l1 ++ l2) = without v l1 ++ without v l2.
Proof. unfold without. apply filter_app. Qed.

(** [remove_edge] undoes [add_edge] between two vertices that had no edge
    between them: every adjacency list is what it was. Both ends stay in
    the vertex set. *)
Theorem add_remove_edge g u v w :
  ¬ edge (graph g) u v → (directed g = false → ¬ edge (graph g) v u) →
  (∀ k, nbrs (graph (remove_edge (add_edge g u v w) u v)) k
        = nbrs (graph g) k)
  ∧ vertices (remove_edge (add_edge g u v w) u v)
    = {[v]} ∪ ({[u]} ∪ vertices g).
Proof.
  intros Huv Hvu. split; [|done]. intros k.
  assert (∀ w', (v, w') ∉ nbrs (graph g) u) as Huv'.
  { intros w' Hin. apply Huv. by exists w'. }
  assert (directed g = false → ∀ w', (u, w') ∉ nbrs (graph g) v) as Hvu'.
  { intros Hd w' Hin. apply (Hvu Hd). by exists w'. }
  assert (without v [(v, w)] = []) as Hv.
  { unfold without. rewrite filter_cons. simpl. by rewrite decide_False by auto. }
  assert (without u [(u, w)] = []) as Hu.
  { unfold without. rewrite filter_cons. simpl. by rewrite decide_False by auto. }
  rewrite nbrs_remove_edge. cbv zeta. rewrite !nbrs_add_edge.
  change (directed (add_edge g u v w)) with (directed g).
  destruct (directed g); repeat case_decide; subst;
    rewrite ?without_app, ?Hv, ?Hu, ?app_nil_r, ?without_id; auto;
    by intros ? [? _]%elem_of_without.
Qed.

(** ** Queries leave the graph as it is *)

Lemma exec_query_frame fuel (o : op V) g g' :
  is_query o = true → exec fuel o g = Some g' →
  g' = set_graph g (graph g') ∧ ∀ k, nbrs (graph g') k = nbrs (graph g) k.
Proof.
  destruct o; simpl; intros Hq Hex; try done.
  - simplify_eq. unfold get_neighbors.
    by destruct (getitem_eq (graph g) v) as (d' & -> & Hd').
  - simplify_eq. unfold has_edge.
    by destruct (getitem_eq (graph g) u) as (d' & -> & Hd').
  - unfold bfs in Hex.
    destruct (bfs_while _ _ _ _ _) as [[r d']|] eqn:E; simplify_eq/=.
    split; [done|]. by eapply bfs_while_frame.
  - unfold dfs in Hex.
    destruct (dfs_recursive _ _ _) as [s'|] eqn:E; simplify_eq/=.
    split; [done|]. intros k. by apply (dfs_recursive_frame _ _ _ _ E).
  - unfold shortest_path_bfs in Hex.
    case_decide; [simpl in Hex; injection Hex as <-; by destruct g|].
    destruct (sp_while _ _ _ _ _) as [[r d']|] eqn:E; simplify_eq/=.
    split; [done|]. by eapply sp_while_frame.
  - unfold dijkstra in Hex.
    destruct (dijkstra_while _ _ _) as [[o s']|] eqn:E; [|done].
    pose proof (dijkstra_while_frame _ _ _ _ _ E) as E'. simpl in E'.
    destruct o as [s1|e]; [|by simplify_eq/=].
    apply dijkstra_while_ok in E as ->.
    repeat case_match; by simplify_eq/=.
Qed.

(** [get_neighbors], [has_edge], [bfs], [dfs], [shortest_path_bfs] and
    [dijkstra] change neither the vertex set nor the direction flag nor any
    adjacency list: all that a query can leave behind is a key with an empty
    list. *)
Theorem queries_keep_graph fuel (o : op V) g g' :
  is_query o = true → exec fuel o g = Some g' →
  vertices g' = vertices g ∧ directed g' = directed g
  ∧ ∀ k, nbrs (graph g') k = nbrs (graph g) k.
Proof.
  intros Hq Hex. destruct (exec_query_frame _ _ _ _ Hq Hex) as [Hg Hn].
  split; [by rewrite Hg|]. split; [by rewrite Hg|]. done.
Qed.

(** ** Undirected graphs stay symmetric *)

Lemma elem_of_nbrs_remove_edge g u v k n w :
  (n, w) ∈ nbrs (graph (remove_edge g u v)) k
  ↔ (n, w) ∈ nbrs (graph g) k ∧ ¬ (k = u ∧ n = v)
    ∧ ¬ (directed g = false ∧ k = v ∧ n = u).
Proof.
  rewrite nbrs_remove_edge. simpl.
  destruct (directed g); repeat case_decide; subst;
    rewrite ?elem_of_without; naive_solver.
Qed.

Lemma exec_directed fuel (o : op V) g g' :
  exec fuel o g = Some g' → directed g' = directed g.
Proof.
  destruct (is_query o) eqn:Hq.
  - intros Hex. destruct (exec_query_frame _ _ _ _ Hq Hex) as [Hg _].
    by rewrite Hg.
  - destruct o; try done; simpl; by intros [= <-].
Qed.

Lemma exec_symmetric fuel (o : op V) g g' :
  directed g = false → exec fuel o g = Some g' →
  symmetric (graph g) → symmetric (graph g').
Proof.
  intros Hd Hex Hsym. destruct (is_query o) eqn:Hq.
  { destruct (exec_query_frame _ _ _ _ Hq Hex) as [_ Hn].
    intros a b w. rewrite !Hn. apply Hsym. }
  destruct o; try done; simpl in Hex; injection Hex as <-; intros a b w'.
  - rewrite !nbrs_add_vertex. apply Hsym.
  - rewrite !nbrs_add_edge, Hd, !elem_of_app.
    intros [Hin|[Hin|Hin]].
    + left. by apply Hsym.
    + case_decide; [|by apply elem_of_nil in Hin].
      apply list_elem_of_singleton in Hin. simplify_eq.
      right. right. rewrite decide_True by done.
      by apply list_elem_of_singleton.
    + case_decide; [|by apply elem_of_nil in Hin].
      apply list_elem_of_singleton in Hin. simplify_eq.
      right. left. rewrite decide_True by done.
      by apply list_elem_of_singleton.
  - rewrite !elem_of_nbrs_remove_edge.
    intros (Hin & H1 & H2). split; [by apply Hsym|]. naive_solver.
  - rewrite !nbrs_remove_vertex. case_decide; [by intros ?%elem_of_nil|].
    rewrite elem_of_without. intros [Hb Hin].
    rewrite decide_False by done. apply elem_of_without.
    split; [done|]. by apply Hsym.
Qed.

(** After every sequence of calls on a fresh undirected graph, every
    adjacency entry has its mirror entry with the same weight, so
    [has_edge(u, v)] and [has_edge(v, u)] agree. *)
Theorem undirected_symmetric (ops : list (op V)) g :
  reaches false ops g →
  symmetric (graph g) ∧ ∀ u v, (has_edge g u v).1 = (has_edge g v u).1.
Proof.
  intros Hr.
  assert (directed g = false ∧ symmetric (graph g)) as [_ Hsym].
  { induction Hr as [|ops g fuel o g' _ [IHd IHs] Hex].
    - split; [done|]. intros a b w. unfold nbrs, init. simpl.
      rewrite lookup_empty. by intros ?%elem_of_nil.
    - split; [by rewrite (exec_directed _ _ _ _ Hex)|].
      by eapply exec_symmetric. }
  split; [done|]. intros u v.
  apply eq_true_iff_eq. rewrite !has_edge_edge.
  split; intros [w Hin]; exists w; by apply Hsym.
Qed.

(** ** [add_vertex] and [remove_vertex] *)

(** On a store whose adjacency entries lie within the vertex set,
    [remove_vertex] undoes the [add_vertex] of a new vertex: the vertex set
    and every adjacency list are what they were. *)
Theorem add_remove_vertex g v :
  edges_in_vertices g → v ∉ vertices g →
  vertices (remove_vertex (add_vertex g v) v) = vertices g
  ∧ ∀ k, nbrs (graph (remove_vertex (add_vertex g v) v)) k
         = nbrs (graph g) k.
Proof.
  intros Hinv Hv. rewrite edges_in_vertices_nbrs in Hinv. split.
  - unfold remove_vertex, add_vertex. simpl. set_solver.
  - intros k. rewrite nbrs_remove_vertex, nbrs_add_vertex.
    case_decide as Hk.
    + subst k. destruct (nbrs (graph g) v) as [|[n w] l] eqn:E; [done|].
      destruct (Hinv v n w) as [? _]; [rewrite E; by left|done].
    + apply without_id. intros w Hin. by destruct (Hinv k v w Hin).
Qed.

End StoreFacts.

(** * [topological_sort] *)

Section TopoFacts.
Context {V : Type} {EqV : EqDecision V} {CntV : Countable V} {PyV : PyKey V}.
Implicit Types (d : gmap V (list (V * Z))) (g : Graph V).
Implicit Types (a b x y : V) (l new : list V) (s : @topo_state V _ _).

Lemma before_app_l a b l l' : before a b l → before a b (l ++ l').
Proof.
  intros (l1 & l2 & l3 & ->). exists l1, l2, (l3 ++ l').
  by repeat (rewrite <- app_assoc || rewrite <- app_comm_cons).
Qed.

Lemma before_app_r a b l l' : before a b l → before a b (l' ++ l).
Proof.
  intros (l1 & l2 & l3 & ->). exists (l' ++ l1), l2, l3.
  by rewrite <- !app_assoc.
Qed.

Lemma before_app a b l l' : a ∈ l → b ∈ l' → before a b (l ++ l').
Proof.
  intros (l1 & l2 & ->)%list_elem_of_split (l3 & l4 & ->)%list_elem_of_split.
  exists l1, (l2 ++ l3), l4.
  by repeat (rewrite <- app_assoc || rewrite <- app_comm_cons).
Qed.

Lemma before_reverse a b l : before a b l → before b a (reverse l).
Proof.
  intros (l1 & l2 & l3 & ->). exists (reverse l3), (reverse l2), (reverse l1).
  rewrite reverse_app, reverse_cons, reverse_app, reverse_cons.
  by repeat (rewrite <- app_assoc || rewrite <- app_comm_cons).
Qed.

Lemma topo_for_spec d0 (U : gset V) fuel
    (rec : V → topo_state → option topo_state) :
  (∀ a b, edge d0 a b → b ∈ U) →
  (∀ x s,
     x ∉ topo_visited s → x ∈ U → topo_visited s ⊆ U →
     (∀ k, nbrs (topo_graph s) k = nbrs d0 k) →
     (size (U ∖ topo_visited s) ≤ fuel)%nat →
     ∃ s' new, rec x s = Some s' ∧ topo_post d0 [x] s s' (new ++ [x])) →
  ∀ (nb : list (V * Z)) s,
    (∀ x, x ∈ nb.*1 → x ∈ U) →
    topo_visited s ⊆ U →
    (∀ k, nbrs (topo_graph s) k = nbrs d0 k) →
    (size (U ∖ topo_visited s) ≤ fuel)%nat →
    ∃ s' new, topo_for rec nb s = Some s'
              ∧ topo_post d0 nb.*1 s s' new
              ∧ (∀ x, x ∈ nb.*1 → x ∈ topo_visited s')
              ∧ topo_visited s' ⊆ U.
Proof.
  intros HUe Hrec.
  induction nb as [|[n w] nb IH]; intros s HU Hsub Hd Hfuel.
  { exists s, []. simpl. split; [done|]. split; [|split; [|done]].
    - unfold topo_post. rewrite app_nil_r. split; [done|].
      split; [by rewrite list_to_set_nil, (left_id_L ∅ (∪))|].
      split; [constructor|].
      split; [by intros x ?%elem_of_nil|].
      split; [by intros x ?%elem_of_nil|].
      split; [by intros x y ?%elem_of_nil|done].
    - by intros x ?%elem_of_nil. }
  simpl. case_decide as Hn.
  - destruct (IH s) as (s' & new & -> & Hpost & Hall & Hsub'); try done.
    { intros x Hx. apply HU. by right. }
    exists s', new. split; [done|].
    destruct Hpost as (Hres & Hvis & Hnd & Hnew & Hroots & Hedges & Hd').
    split; [|split; [|done]].
    + repeat split; try done.
      intros x Hx. destruct (Hroots x Hx) as (r & Hr & Hrx).
      exists r. split; [by right|done].
    + intros x [->|Hx]%elem_of_cons; [|by apply Hall].
      rewrite Hvis. set_solver.
  - destruct (Hrec n s) as (s1 & new1 & -> & Hpost1); try done.
    { apply HU. by left. }
    destruct Hpost1 as (Hres1 & Hvis1 & Hnd1 & Hnew1 & Hroots1 & Hedges1 & Hd1).
    assert (topo_visited s1 ⊆ U) as Hsub1.
    { rewrite Hvis1. intros x [Hx%elem_of_list_to_set|Hx]%elem_of_union;
        [|by apply Hsub].
      destruct (Hroots1 x Hx) as (r & ->%list_elem_of_singleton & Hr).
      assert (n ∈ U) as HnU by (apply HU; by left).
      revert Hr. apply (rtc_ind_r (λ x, x ∈ U) n); [done|].
      intros y z _ Hyz _. by eapply HUe. }
    destruct (IH s1) as (s' & new2 & -> & Hpost2 & Hall & Hsub'); try done.
    { intros x Hx. apply HU. by right. }
    { etrans; [|exact Hfuel]. apply subseteq_size. rewrite Hvis1.
      set_solver. }
    destruct Hpost2 as (Hres2 & Hvis2 & Hnd2 & Hnew2 & Hroots2 & Hedges2 & Hd2).
    exists s', ((new1 ++ [n]) ++ new2). split; [done|].
    split; [|split; [|done]].
    + repeat split.
      * by rewrite Hres2, Hres1, <- app_assoc.
      * rewrite Hvis2, Hvis1, (list_to_set_app_L (new1 ++ [n])). set_solver.
      * apply NoDup_app. split; [done|]. split; [|done].
        intros x Hx Hx'. apply Hnew2 in Hx'. apply Hx'. rewrite Hvis1.
        apply elem_of_union. left. by apply elem_of_list_to_set.
      * intros x [Hx|Hx]%elem_of_app; [by apply Hnew1|].
        apply Hnew2 in Hx. intros Hxs. apply Hx. rewrite Hvis1. set_solver.
      * intros x [Hx|Hx]%elem_of_app.
        -- destruct (Hroots1 x Hx) as (r & ->%list_elem_of_singleton & Hr).
           exists n. split; [by left|done].
        -- destruct (Hroots2 x Hx) as (r & Hr & Hrx).
           exists r. split; [by right|done].
      * intros a b [Ha|Ha]%elem_of_app Hab.
        -- destruct (Hedges1 a b Ha Hab) as [Hb|[Hb|[Hb Hba]]].
           ++ by left.
           ++ right. left. by apply before_app_l.
           ++ right. right. split; [|done]. apply elem_of_app. by left.
        -- destruct (Hedges2 a b Ha Hab) as [Hb|[Hb|[Hb Hba]]].
           ++ rewrite Hvis1 in Hb.
              apply elem_of_union in Hb as [Hb%elem_of_list_to_set|Hb];
                [|by left].
              right. left. by apply before_app.
           ++ right. left. by apply before_app_r.
           ++ right. right. split; [|done]. apply elem_of_app. by right.
      * done.
    + intros x [->|Hx]%elem_of_cons; [|by apply Hall].
      rewrite Hvis2, Hvis1. set_solver.
Qed.

Lemma topo_dfs_spec d0 (U : gset V) :
  (∀ a b, edge d0 a b → b ∈ U) →
  ∀ fuel x s,
    x ∉ topo_visited s → x ∈ U → topo_visited s ⊆ U →
    (∀ k, nbrs (topo_graph s) k = nbrs d0 k) →
    (size (U ∖ topo_visited s) ≤ fuel)%nat →
    ∃ s' new, topo_dfs fuel x s = Some s'
              ∧ topo_post d0 [x] s s' (new ++ [x]).
Proof.
  intros HUe. induction fuel as [|fuel IH]; intros x s Hx HxU Hsub Hd Hfuel.
  { pose proof (size_difference_add U (topo_visited s) x HxU Hx). lia. }
  simpl. destruct (getitem_eq (topo_graph s) x) as (d1 & -> & Hd1).
  destruct (topo_for_spec d0 U fuel (topo_dfs fuel) HUe IH
              (nbrs (topo_graph s) x)
              (mkTopo d1 ({[x]} ∪ topo_visited s) (topo_stack s)))
    as (s' & new & -> & Hpost & Hall & Hsub'); simpl.
  - intros y Hy. apply (HUe x). apply edge_nbrs. by rewrite <- Hd.
  - set_solver.
  - intros k. by rewrite Hd1.
  - pose proof (size_difference_add U (topo_visited s) x HxU Hx). lia.
  - destruct Hpost as (Hres & Hvis & Hnd & Hnew & Hroots & Hedges & Hd').
    simpl in *. eexists _, new. split; [done|].
    assert (x ∉ new) as Hxnew.
    { intros Hin. apply Hnew in Hin. set_solver. }
    unfold topo_post. simpl.
    split; [by rewrite Hres, <- app_assoc|].
    split; [rewrite Hvis, list_to_set_app_L; set_solver|].
    split.
    { apply NoDup_app. split; [done|]. split; [|apply NoDup_singleton].
      by intros y Hy ->%list_elem_of_singleton. }
    split.
    { intros y [Hy| ->%list_elem_of_singleton]%elem_of_app; [|done].
      apply Hnew in Hy. set_solver. }
    split.
    { intros y [Hy| ->%list_elem_of_singleton]%elem_of_app.
      - destruct (Hroots y Hy) as (r & Hr & Hry).
        exists x. split; [by left|].
        eapply rtc_l; [|done]. apply edge_nbrs. by rewrite <- Hd.
      - exists x. split; [by left|done]. }
    split; [|done].
    intros a b [Ha| ->%list_elem_of_singleton]%elem_of_app Hab.
    + destruct (Hedges a b Ha Hab) as [Hb|[Hb|[Hb Hba]]].
      * apply elem_of_union in Hb as [->%elem_of_singleton|Hb]; [|by left].
        right. right. split; [apply elem_of_app; right; by left|].
        destruct (Hroots a Ha) as (r & Hr & Hra).
        eapply rtc_l; [|done]. apply edge_nbrs. by rewrite <- Hd.
      * right. left. by apply before_app_l.
      * right. right. split; [|done]. apply elem_of_app. by left.
    + assert (b ∈ topo_visited s') as Hb.
      { apply Hall. rewrite Hd. by apply edge_nbrs. }
      rewrite Hvis in Hb.
      apply elem_of_union in Hb as [Hb%elem_of_list_to_set|Hb].
      * right. left. apply before_app; [done|by left].
      * apply elem_of_union in Hb as [->%elem_of_singleton|Hb]; [|by left].
        right. right. split; [apply elem_of_app; right; by left|done].
Qed.

Lemma topo_outer_for fuel (order : list V) s :
  topo_outer fuel order s
  = topo_for (topo_dfs fuel) ((λ x, (x, 0)) <$> order) s.
Proof.
  revert s. induction order as [|x order IH]; intros s; simpl; [done|].
  case_decide; [apply IH|].
  destruct (topo_dfs fuel x s); [apply IH|done].
Qed.

(** On a directed graph, whatever the order in which the vertex set is
    iterated, [topological_sort()] returns every vertex exactly once, and
    for every edge from [a] to [b] that lies on no cycle, [a] comes before
    [b]: on an acyclic graph the result is a topological order.  On a graph
    with a cycle the method returns as well; it never reports the cycle. *)
Theorem topological_sort_correct g (order : list V) :
  directed g = true → edges_in_vertices g →
  order ≡ₚ elements (vertices g) →
  ∃ fuel0, ∀ fuel, (fuel0 ≤ fuel)%nat →
    ∃ r g', topological_sort fuel g order = Some (Ok r, g')
      ∧ r ≡ₚ order
      ∧ ∀ a b, edge (graph g) a b → ¬ rtc (edge (graph g)) b a →
               before a b r.
Proof.
  intros Hdir Hinv Hperm. rewrite edges_in_vertices_nbrs in Hinv.
  assert (∀ a b, edge (graph g) a b → b ∈ vertices g) as HUe.
  { intros a b [w Hin]. by destruct (Hinv a b w Hin). }
  assert (∀ x, x ∈ order ↔ x ∈ vertices g) as Hord.
  { intros x. by rewrite Hperm, elem_of_elements. }
  assert (((λ x : V, (x, 0)) <$> order).*1 = order) as Hfst.
  { clear. induction order as [|x order IH]; [done|]. simpl. by f_equal. }
  exists (size (vertices g)). intros fuel Hfuel.
  unfold topological_sort. rewrite Hdir, topo_outer_for.
  destruct (topo_for_spec (graph g) (vertices g) fuel (topo_dfs fuel) HUe
              (topo_dfs_spec (graph g) (vertices g) HUe fuel)
              ((λ x, (x, 0)) <$> order) (mkTopo (graph g) ∅ []))
    as (s' & new & -> & Hpost & Hall & Hsub); simpl.
  - intros x. rewrite Hfst. apply Hord.
  - set_solver.
  - done.
  - etrans; [|exact Hfuel]. apply subseteq_size. set_solver.
  - rewrite Hfst in Hpost, Hall.
    destruct Hpost as (Hres & Hvis & Hnd & Hnew & Hroots & Hedges & Hd').
    simpl in *. rewrite Hres.
    rewrite (right_id_L ∅ (∪)) in Hvis.
    assert (∀ x, x ∈ new ↔ x ∈ order) as Hnew_order.
    { intros x. split.
      - intros Hx. apply Hord. apply Hsub. rewrite Hvis.
        by apply elem_of_list_to_set.
      - intros Hx. apply Hall in Hx. rewrite Hvis in Hx.
        by apply elem_of_list_to_set in Hx. }
    eexists _, _. split; [done|]. split.
    + rewrite reverse_Permutation. apply NoDup_Permutation; [done| |done].
      rewrite Hperm. apply NoDup_elements.
    + intros a b Hab Hnba.
      assert (a ∈ new) as Ha.
      { apply Hnew_order, Hord. destruct Hab as [w Hin].
        by destruct (Hinv a b w Hin). }
      destruct (Hedges a b Ha Hab) as [Hb|[Hb|[Hb Hba]]]; [set_solver| |done].
      by apply before_reverse.
Qed.

End TopoFacts.

(** * [bfs] lists the vertices by distance *)

Section BfsLevels.
Context {V : Type} {EqV : EqDecision V} {CntV : Countable V} {PyV : PyKey V}.
Implicit Types (d : gmap V (list (V * Z))) (g : Graph V).
Implicit Types (x y v : V) (front back result new : list V).
Implicit Types (visited : gset V) (k i j : nat).

Lemma bfs_inv_shift d0 start k back result visited :
  bfs_inv d0 start k [] back result visited →
  bfs_inv d0 start (S k) back [] result visited.
Proof.
  intros (H1 & H2 & H3 & H4 & H5 & H6). rewrite app_nil_r in H1.
  simpl in H3, H5.
  split; [|split; [|split; [|split; [|split]]]]; rewrite ?app_nil_r;
    try done.
  - intros x [Hx|Hx]%elem_of_app; [by apply bsteps_S, H1|by apply H2].
  - by intros x ?%elem_of_nil.
  - intros x [Hx|(y & Hy & Hyx)]%bsteps_inv_r; [by apply H4|].
    pose proof (H5 y (H4 y Hy)) as [Hin|Hin]%elem_of_app.
    + by apply (H6 y).
    + by destruct (H2 y Hin).
Qed.

Lemma bfs_inv_step d0 start k v front back result visited new visited' :
  bfs_inv d0 start k (v :: front) back result visited →
  visited' = list_to_set new ∪ visited →
  (∀ x, x ∈ new → (x ∉ visited) ∧ x ∈ (nbrs d0 v).*1) →
  (∀ x, x ∈ (nbrs d0 v).*1 → x ∈ visited') →
  bfs_inv d0 start k front (back ++ new) (result ++ [v]) visited'.
Proof.
  intros (H1 & H2 & H3 & H4 & H5 & H6) -> Hnew Hall.
  assert ((result ++ [v]) ++ front = result ++ v :: front) as E1
    by (by rewrite <- app_assoc).
  assert ((result ++ [v]) ++ front ++ back ++ new
          = (result ++ (v :: front) ++ back) ++ new) as E2.
  { by rewrite <- !app_assoc. }
  assert (∀ x, x ∈ new →
            bsteps (edge d0) (S k) start x ∧ ¬ bsteps (edge d0) k start x)
    as Hnew'.
  { intros x Hx. destruct (Hnew x Hx) as [Hnv Hnb]. split.
    - eapply bsteps_r; [|by apply edge_nbrs].
      apply H1. apply elem_of_app. right. by left.
    - intros Hk. by apply Hnv, H4. }
  assert (∀ x, x ∈ (result ++ (v :: front) ++ back) ++ new →
            bsteps (edge d0) (S k) start x) as Hnear.
  { intros x [[Hx|[Hx|Hx]%elem_of_app]%elem_of_app|Hx]%elem_of_app.
    - apply bsteps_S, H1. apply elem_of_app. by left.
    - apply bsteps_S, H1. apply elem_of_app. by right.
    - by apply H2.
    - by apply Hnew'. }
  split; [|split; [|split; [|split; [|split]]]].
  - rewrite E1. apply H1.
  - intros x [Hx|Hx]%elem_of_app; [by apply H2|by apply Hnew'].
  - rewrite E2. intros i j x y Hij Hi Hj.
    destruct (decide (j < length (result ++ (v :: front) ++ back))%nat)
      as [Hlt|Hge].
    + rewrite lookup_app_l in Hi, Hj by lia. exact (H3 i j x y Hij Hi Hj).
    + rewrite (lookup_app_r _ new j) in Hj by lia.
      apply list_elem_of_lookup_2 in Hj. apply list_elem_of_lookup_2 in Hi.
      destruct (Hnew' y Hj) as [_ Hfar].
      intros n Hn. destruct (decide (n ≤ k)%nat) as [Hle|Hgt].
      * destruct Hfar. by eapply bsteps_weaken.
      * eapply bsteps_weaken; [|by apply Hnear]. lia.
  - intros x Hx. apply elem_of_union. right. by apply H4.
  - rewrite E2. intros x [Hx%elem_of_list_to_set|Hx]%elem_of_union.
    + apply elem_of_app. by right.
    + apply elem_of_app. left. by apply H5.
  - intros x y [Hx| ->%list_elem_of_singleton]%elem_of_app Hxy.
    + apply elem_of_union. right. by eapply H6.
    + apply Hall. by apply edge_nbrs.
Qed.

Lemma bfs_while_levels d0 start fuel :
  ∀ k d visited front back result r d',
    (∀ x, nbrs d x = nbrs d0 x) →
    bfs_inv d0 start k front back result visited →
    bfs_while fuel d visited (front ++ back) result = Some (r, d') →
    ∀ i j x y, (i ≤ j)%nat → r !! i = Some x → r !! j = Some y →
               dist_le d0 start x y.
Proof.
  induction fuel as [|fuel IH];
    intros k d visited front back result r d' Hd Hinv Hr.
  - destruct (front ++ back) as [|v q] eqn:Eq; [|done].
    apply app_eq_nil in Eq as [-> ->]. simpl in Hr. simplify_eq.
    destruct Hinv as (_ & _ & H3 & _). by rewrite !app_nil_r in H3.
  - assert (∃ k' front' back',
              front ++ back = front' ++ back'
              ∧ bfs_inv d0 start k' front' back' result visited
              ∧ (front' = [] → back' = [])) as (k' & front' & back' & Eq
                                                & Hinv' & Hnil).
    { destruct front as [|v front].
      - exists (S k), back, []. split; [by rewrite app_nil_r|].
        split; [by apply bfs_inv_shift|done].
      - by exists k, (v :: front), back. }
    rewrite Eq in Hr. clear Eq Hinv. destruct front' as [|v front'].
    { rewrite (Hnil eq_refl) in Hr, Hinv'. simpl in Hr. simplify_eq.
      destruct Hinv' as (_ & _ & H3 & _). by rewrite !app_nil_r in H3. }
    simpl in Hr. destruct (getitem_eq d v) as (d1 & E & Hd1).
    rewrite E in Hr.
    destruct (bfs_for (nbrs d v) visited (front' ++ back'))
      as [visited' queue'] eqn:Efor.
    apply (bfs_for_spec (list_to_set (nbrs d v).*1)) in Efor
      as (new & -> & Hvis & _ & Hnew & Hall & _).
    2:{ intros x Hx. by apply elem_of_list_to_set. }
    rewrite <- app_assoc in Hr. rewrite Hd in Hnew, Hall.
    apply (IH k' d1 visited' front' (back' ++ new) (result ++ [v]) r d').
    + intros x. by rewrite Hd1.
    + by apply (bfs_inv_step d0 start k' v front' back' result visited).
    + done.
Qed.

(** [bfs(start)] lists the vertices by their distance from [start]: a
    vertex at an earlier position is at most as many edges away from [start]
    as a vertex at a later position. *)
Theorem bfs_level_order g start :
  ∃ fuel0, ∀ fuel, (fuel0 ≤ fuel)%nat →
    ∃ r g', bfs fuel g start = Some (r, g')
      ∧ ∀ i j x y, (i ≤ j)%nat → r !! i = Some x → r !! j = Some y →
          ∀ n, bsteps (edge (graph g)) n start y →
               bsteps (edge (graph g)) n start x.
Proof.
  exists (S (size ({[start]} ∪ targets (graph g)))). intros fuel Hfuel.
  destruct (bfs_correct g start fuel Hfuel) as (r & g' & Hr & _).
  exists r, g'. split; [done|]. unfold bfs in Hr.
  destruct (bfs_while fuel (graph g) {[start]} [start] []) as [[r' d']|]
    eqn:E; [|done].
  injection Hr as -> _.
  apply (bfs_while_levels (graph g) start fuel 0 (graph g) {[start]}
           [start] [] [] r d'); [done| |done].
  split; [|split; [|split; [|split; [|split]]]].
  - intros x ->%list_elem_of_singleton. constructor.
  - by intros x ?%elem_of_nil.
  - intros i j x y _ Hi Hj.
    apply list_elem_of_lookup_2, list_elem_of_singleton in Hi, Hj.
    subst. by intros n.
  - intros x ->%bsteps_0_inv. set_solver.
  - intros x ->%elem_of_singleton. set_solver.
  - by intros x y ?%elem_of_nil.
Qed.

End BfsLevels.

(** * [has_cycle] on directed graphs *)

Section CycleFacts.
Context {V : Type} {EqV : EqDecision V} {CntV : Countable V} {PyV : PyKey V}.
Implicit Types (d : gmap V (list (V * Z))) (g : Graph V).
Implicit Types (a b c n x y : V) (s : @cyc_state V _ _) (F U : gset V).

Lemma settled_rtc d0 F a b :
  settled d0 F → a ∈ F → rtc (edge d0) a b → b ∈ F.
Proof.
  intros HF Ha Hab. induction Hab as [|a b c Hab _ IH]; [done|].
  apply IH. by apply (HF a).
Qed.

Lemma has_cycle_for_spec d0 U fuel
    (rec : V → option V → cyc_state → option (bool * cyc_state))
    x (parent : option V) :
  (∀ a b, edge d0 a b → b ∈ U) →
  (∀ n (p : option V) s,
     n ∉ cyc_visited s → n ∈ U → cyc_visited s ⊆ U →
     cyc_rec_stack s ⊆ cyc_visited s →
     (∀ k, nbrs (cyc_graph s) k = nbrs d0 k) →
     (∀ c, c ∈ cyc_rec_stack s → rtc (edge d0) c n) →
     settled d0 (cyc_visited s ∖ cyc_rec_stack s) →
     (size (U ∖ cyc_visited s) ≤ fuel)%nat →
     ∃ r, rec n p s = Some r ∧ cyc_post d0 U s r
          ∧ (r.1 = false → n ∈ cyc_visited r.2)) →
  ∀ (nb : list (V * Z)) s,
    (∀ n, n ∈ nb.*1 → edge d0 x n) →
    x ∈ cyc_rec_stack s →
    cyc_rec_stack s ⊆ cyc_visited s → cyc_visited s ⊆ U →
    (∀ k, nbrs (cyc_graph s) k = nbrs d0 k) →
    (∀ c, c ∈ cyc_rec_stack s → rtc (edge d0) c x) →
    settled d0 (cyc_visited s ∖ cyc_rec_stack s) →
    (size (U ∖ cyc_visited s) ≤ fuel)%nat →
    ∃ r, has_cycle_for rec true x parent nb s = Some r
         ∧ cyc_post d0 U s r
         ∧ (r.1 = false →
            ∀ n, n ∈ nb.*1 → n ∈ cyc_visited r.2 ∖ cyc_rec_stack r.2).
Proof.
  intros HUe Hrec.
  induction nb as [|[n w] nb IH];
    intros s Hnb Hx Hrs Hsub Hd Hreach Hset Hfuel.
  { exists (false, s). simpl. split; [done|]. split.
    - split; [done|]. simpl. done.
    - by intros _ n ?%elem_of_nil. }
  assert (edge d0 x n) as Hxn by (apply Hnb; by left).
  assert (∀ m, m ∈ nb.*1 → edge d0 x m) as Hnb'.
  { intros m Hm. apply Hnb. by right. }
  simpl. case_decide as Hn.
  - case_decide as Hnr.
    + exists (true, s). split; [done|]. split; [|done].
      split; [done|]. simpl. exists n.
      eapply tc_rtc_l; [by apply Hreach|]. by apply tc_once.
    + destruct (IH s) as (r & -> & Hpost & Hall); try done.
      exists r. split; [done|]. split; [done|].
      intros Hr m [->|Hm]%elem_of_cons; [|by apply Hall].
      destruct Hpost as [_ Hpost]. rewrite Hr in Hpost.
      destruct Hpost as (Hv & _ & Hrs' & _). rewrite Hrs'. set_solver.
  - destruct (Hrec n (Some x) s) as ([b1 s1] & -> & Hpost1 & Hn1); try done.
    { by eapply HUe. }
    { intros c Hc. eapply rtc_r; [by apply Hreach|done]. }
    destruct Hpost1 as [Hd1 Hpost1]. simpl in *.
    destruct b1.
    { exists (true, s1). split; [done|]. split; [|done]. by split. }
    destruct Hpost1 as (Hv1 & HU1 & Hrs1 & Hset1).
    destruct (IH s1) as (r & -> & Hpost & Hall); try done.
    { by rewrite Hrs1. }
    { rewrite Hrs1. set_solver. }
    { intros c. rewrite Hrs1. apply Hreach. }
    { etrans; [|exact Hfuel]. apply subseteq_size. set_solver. }
    exists r. destruct Hpost as [Hd' Hpost]. split; [done|]. split.
    + split; [done|]. destruct (r.1); [done|].
      destruct Hpost as (Hv & HU' & Hrs' & Hset').
      split; [set_solver|]. split; [done|]. split; [congruence|done].
    + intros Hr m [->|Hm]%elem_of_cons; [|by apply Hall].
      rewrite Hr in Hpost. destruct Hpost as (Hv & _ & Hrs' & _).
      rewrite Hrs', Hrs1. specialize (Hn1 eq_refl). set_solver.
Qed.

Lemma has_cycle_util_spec d0 U :
  (∀ a b, edge d0 a b → b ∈ U) →
  ∀ fuel n (p : option V) s,
    n ∉ cyc_visited s → n ∈ U → cyc_visited s ⊆ U →
    cyc_rec_stack s ⊆ cyc_visited s →
    (∀ k, nbrs (cyc_graph s) k = nbrs d0 k) →
    (∀ c, c ∈ cyc_rec_stack s → rtc (edge d0) c n) →
    settled d0 (cyc_visited s ∖ cyc_rec_stack s) →
    (size (U ∖ cyc_visited s) ≤ fuel)%nat →
    ∃ r, has_cycle_util fuel true n p s = Some r ∧ cyc_post d0 U s r
         ∧ (r.1 = false → n ∈ cyc_visited r.2).
Proof.
  intros HUe. induction fuel as [|fuel IH];
    intros n p s Hn HnU Hsub Hrs Hd Hreach Hset Hfuel.
  { pose proof (size_difference_add U (cyc_visited s) n HnU Hn). lia. }
  simpl. destruct (getitem_eq (cyc_graph s) n) as (d1 & -> & Hd1).
  assert (n ∉ cyc_rec_stack s) as Hnr by set_solver.
  destruct (has_cycle_for_spec d0 U fuel (has_cycle_util fuel true) n p
              HUe IH (nbrs (cyc_graph s) n)
              (mkCyc d1 ({[n]} ∪ cyc_visited s) ({[n]} ∪ cyc_rec_stack s)))
    as ([b1 s1] & -> & [Hd' Hpost] & Hall); simpl.
  - intros m Hm. apply edge_nbrs. by rewrite <- Hd.
  - set_solver.
  - set_solver.
  - set_solver.
  - intros k. by rewrite Hd1.
  - intros c [->%elem_of_singleton|Hc]%elem_of_union; [done|].
    by apply Hreach.
  - assert (({[n]} ∪ cyc_visited s) ∖ ({[n]} ∪ cyc_rec_stack s)
            = cyc_visited s ∖ cyc_rec_stack s) as -> by set_solver.
    done.
  - pose proof (size_difference_add U (cyc_visited s) n HnU Hn). lia.
  - simpl in *. destruct b1.
    { eexists. split; [done|]. split; [by split|done]. }
    destruct Hpost as (Hv & HU' & Hrs' & Hset'). specialize (Hall eq_refl).
    eexists. split; [done|]. simpl. split; [|intros _; set_solver].
    split; [done|]. simpl.
    split; [set_solver|]. split; [done|]. split; [set_solver|].
    rewrite Hrs'.
    assert (({[n]} ∪ cyc_rec_stack s) ∖ {[n]} = cyc_rec_stack s) as ->
      by set_solver.
    rewrite Hrs' in Hset', Hall.
    intros a Ha. destruct (decide (a = n)) as [->|Hne].
    + split.
      * intros b Hb.
        assert (b ∈ cyc_visited s1 ∖ ({[n]} ∪ cyc_rec_stack s)) as Hb'.
        { apply Hall. rewrite Hd. by apply edge_nbrs. }
        set_solver.
      * intros Hcyc.
        assert (∃ b, edge d0 n b ∧ rtc (edge d0) b n) as (b & Hnb & Hbn).
        { inversion Hcyc as [? ? H1|? b ? H1 H2]; subst.
          - exists n. split; [done|]. done.
          - exists b. split; [done|]. by apply tc_rtc. }
        assert (b ∈ cyc_visited s1 ∖ ({[n]} ∪ cyc_rec_stack s)) as Hb'.
        { apply Hall. rewrite Hd. by apply edge_nbrs. }
        pose proof (settled_rtc _ _ _ _ Hset' Hb' Hbn). set_solver.
    + assert (a ∈ cyc_visited s1 ∖ ({[n]} ∪ cyc_rec_stack s)) as Ha'
        by set_solver.
      destruct (Hset' a Ha') as [Hcl Hac]. split; [|done].
      intros b Hb. specialize (Hcl b Hb). set_solver.
Qed.

Lemma has_cycle_outer_spec d0 U fuel :
  (∀ a b, edge d0 a b → b ∈ U) →
  ∀ (order : list V) s,
    (∀ x, x ∈ order → x ∈ U) →
    cyc_rec_stack s = ∅ → cyc_visited s ⊆ U →
    (∀ k, nbrs (cyc_graph s) k = nbrs d0 k) →
    settled d0 (cyc_visited s) →
    (size (U ∖ cyc_visited s) ≤ fuel)%nat →
    ∃ r, has_cycle_outer fuel true order s = Some r
         ∧ (∀ k, nbrs (cyc_graph r.2) k = nbrs d0 k)
         ∧ if r.1 then ∃ c, tc (edge d0) c c
           else settled d0 (cyc_visited r.2)
                ∧ cyc_visited s ⊆ cyc_visited r.2
                ∧ ∀ x, x ∈ order → x ∈ cyc_visited r.2.
Proof.
  intros HUe. induction order as [|x order IH];
    intros s Hord Hrs Hsub Hd Hset Hfuel; simpl.
  { exists (false, s). split; [done|]. split; [done|]. simpl.
    split; [done|]. split; [done|]. by intros x ?%elem_of_nil. }
  assert (∀ y, y ∈ order → y ∈ U) as Hord'.
  { intros y Hy. apply Hord. by right. }
  case_decide as Hx.
  - destruct (IH s) as (r & -> & Hd' & Hpost); try done.
    exists r. split; [done|]. split; [done|].
    destruct (r.1); [done|]. destruct Hpost as (Hset' & Hv & Hall).
    split; [done|]. split; [done|].
    intros y [->|Hy]%elem_of_cons; [by apply Hv|by apply Hall].
  - destruct (has_cycle_util_spec d0 U HUe fuel x None s)
      as ([b1 s1] & -> & [Hd1 Hpost1] & Hx1); try done.
    { apply Hord. by left. }
    { rewrite Hrs. set_solver. }
    { intros c. rewrite Hrs. set_solver. }
    { by rewrite Hrs, difference_empty_L. }
    simpl in *. destruct b1.
    { exists (true, s1). by split. }
    destruct Hpost1 as (Hv1 & HU1 & Hrs1 & Hset1).
    rewrite Hrs1, Hrs, difference_empty_L in Hset1.
    destruct (IH s1) as (r & -> & Hd' & Hpost); try done.
    { by rewrite Hrs1. }
    { etrans; [|exact Hfuel]. apply subseteq_size. set_solver. }
    exists r. split; [done|]. split; [done|].
    destruct (r.1); [done|]. destruct Hpost as (Hset' & Hv & Hall).
    split; [done|]. split; [set_solver|].
    intros y [->|Hy]%elem_of_cons; [|by apply Hall].
    apply Hv. by apply Hx1.
Qed.

(** On a directed graph, whatever the order in which the vertex set is
    iterated, [has_cycle()] returns [True] exactly when the graph has a
    cycle (a self-loop counts as one). *)
Theorem has_cycle_directed_correct g (order : list V) :
  directed g = true → edges_in_vertices g →
  order ≡ₚ elements (vertices g) →
  ∃ fuel0, ∀ fuel, (fuel0 ≤ fuel)%nat →
    ∃ r g', has_cycle fuel g order = Some (r, g')
      ∧ (r = true ↔ ∃ c, tc (edge (graph g)) c c).
Proof.
  intros Hdir Hinv Hperm. rewrite edges_in_vertices_nbrs in Hinv.
  assert (∀ a b, edge (graph g) a b → b ∈ vertices g) as HUe.
  { intros a b [w Hin]. by destruct (Hinv a b w Hin). }
  exists (size (vertices g)). intros fuel Hfuel.
  unfold has_cycle. rewrite Hdir.
  destruct (has_cycle_outer_spec (graph g) (vertices g) fuel HUe order
              (mkCyc (graph g) ∅ ∅))
    as ([b s'] & -> & Hd' & Hpost); simpl; try done.
  - intros x. rewrite Hperm. apply elem_of_elements.
  - etrans; [|exact Hfuel]. apply subseteq_size. set_solver.
  - simpl in *. eexists _, _. split; [done|].
    destruct b; [done|]. destruct Hpost as (Hset & _ & Hall).
    split; [done|]. intros [c Hc].
    assert (c ∈ cyc_visited s') as Hcv.
    { apply Hall. rewrite Hperm. apply elem_of_elements.
      inversion Hc as [? ? [w Hin]|? b ? [w Hin] _]; subst;
        by destruct (Hinv _ _ _ Hin). }
    by destruct (Hset c Hcv).
Qed.

End CycleFacts.

(** * [connected_components] *)

Section ComponentFacts.
Context {V : Type} {EqV : EqDecision V} {CntV : Countable V} {PyV : PyKey V}.
Implicit Types (d : gmap V (list (V * Z))) (g : Graph V).
Implicit Types (a b x y : V) (c : list V) (visited U : gset V).

Lemma symmetric_rtc d0 a b :
  symmetric d0 → rtc (edge d0) a b → rtc (edge d0) b a.
Proof.
  intros Hsym Hab. induction Hab as [|a b c' [w Hab] _ IH]; [done|].
  eapply rtc_r; [exact IH|]. exists w. by apply Hsym.
Qed.

Lemma cc_outer_spec d0 U fuel :
  (∀ a b, edge d0 a b → b ∈ U) →
  ∀ (order : list V) d visited (comps : list (list V)),
    (∀ x, x ∈ order → x ∈ U) → visited ⊆ U →
    (∀ k, nbrs d k = nbrs d0 k) →
    cc_inv d0 visited comps →
    (size (U ∖ visited) ≤ fuel)%nat →
    ∃ cs d' visited', cc_outer fuel order d visited comps = Some (cs, d')
      ∧ (∀ k, nbrs d' k = nbrs d0 k)
      ∧ cc_inv d0 visited' cs
      ∧ visited ⊆ visited' ∧ visited' ⊆ U
      ∧ ∀ x, x ∈ order → x ∈ visited'.
Proof.
  intros HUe. induction order as [|x order IH];
    intros d visited comps Hord Hsub Hd Hinv Hfuel; simpl.
  { exists comps, d, visited. do 5 (split; [done|]).
    by intros x ?%elem_of_nil. }
  assert (∀ y, y ∈ order → y ∈ U) as Hord'.
  { intros y Hy. apply Hord. by right. }
  case_decide as Hx.
  - destruct (IH d visited comps) as (cs & d' & vis' & -> & Hd' & Hinv' & Hv
                                      & HU' & Hall); try done.
    exists cs, d', vis'. do 5 (split; [done|]).
    intros y [->|Hy]%elem_of_cons; [by apply Hv|by apply Hall].
  - destruct (dfs_recursive_spec d0 U HUe fuel x (mkDfs d visited []))
      as (s' & new & -> & Hpost); try done.
    { apply Hord. by left. }
    unfold dfs_post in Hpost.
    cbn [dfs_visited dfs_result dfs_graph app] in Hpost.
    destruct Hpost as (Hres & Hvis & Hnd & Hnew & Hroots & Hclosed & Hd1).
    destruct Hinv as (Hvc & Hndc & Hcl & Hcomp).
    assert (∀ y, y ∈ x :: new → rtc (edge d0) x y) as Hreach.
    { intros y Hy.
      by destruct (Hroots y Hy) as (r & ->%list_elem_of_singleton & Hr). }
    assert (dfs_visited s' ⊆ U) as HU1.
    { rewrite Hvis. intros y [Hy%elem_of_list_to_set|Hy]%elem_of_union;
        [|by apply Hsub].
      apply Hreach in Hy. revert Hy.
      apply (rtc_ind_r (λ y, y ∈ U) x); [apply Hord; by left|].
      intros a b _ Hab _. by eapply HUe. }
    assert (∀ a b, a ∈ dfs_visited s' → edge d0 a b → b ∈ dfs_visited s')
      as Hcl1.
    { intros a b Ha Hab. rewrite Hvis in Ha.
      apply elem_of_union in Ha as [Ha%elem_of_list_to_set|Ha].
      - by eapply Hclosed.
      - rewrite Hvis. apply elem_of_union. right. by eapply Hcl. }
    destruct (IH (dfs_graph s') (dfs_visited s') (comps ++ [dfs_result s']))
      as (cs & d' & vis' & -> & Hd' & Hinv' & Hv & HU' & Hall); try done.
    { rewrite Hres. split; [|split; [|split]].
      - rewrite concat_app, list_to_set_app_L, Hvis, <- Hvc. simpl.
        rewrite app_nil_r. set_solver.
      - rewrite concat_app. simpl. rewrite app_nil_r.
        apply NoDup_app. split; [done|]. split; [|done].
        intros y Hy Hy'. apply (Hnew y Hy'). rewrite Hvc.
        by apply elem_of_list_to_set.
      - done.
      - intros c [Hc| ->%list_elem_of_singleton]%elem_of_app;
          [by apply Hcomp|].
        exists x, new. split; [done|]. split; [done|].
        intros Hsym y Hy.
        assert (y ∈ dfs_visited s') as Hyv.
        { apply (closed_reachable d0 x); [|done|done].
          rewrite Hvis. set_solver. }
        rewrite Hvis in Hyv.
        apply elem_of_union in Hyv as [Hyv%elem_of_list_to_set|Hyv];
          [done|].
        exfalso. apply Hx.
        apply (closed_reachable d0 y); [done|done|].
        by apply symmetric_rtc. }
    { etrans; [|exact Hfuel]. apply subseteq_size. rewrite Hvis.
      set_solver. }
    exists cs, d', vis'. do 3 (split; [done|]). split; [|split; [done|]].
    + rewrite Hvis in Hv. set_solver.
    + intros y [->|Hy]%elem_of_cons; [|by apply Hall].
      apply Hv. rewrite Hvis. set_solver.
Qed.

(** Whatever the order in which the vertex set is iterated,
    [connected_components()] returns lists that together hold every vertex
    exactly once; every member of a list is reachable from the first one;
    and in a graph where every entry has its mirror entry (an undirected
    graph), the list with [x] holds exactly the vertices reachable from
    [x]. *)
Theorem connected_components_correct g (order : list V) :
  edges_in_vertices g →
  order ≡ₚ elements (vertices g) →
  ∃ fuel0, ∀ fuel, (fuel0 ≤ fuel)%nat →
    ∃ cs g', connected_components fuel g order = Some (cs, g')
      ∧ concat cs ≡ₚ order
      ∧ (∀ c, c ∈ cs →
           ∃ x rest, c = x :: rest
                     ∧ ∀ y, y ∈ c → rtc (edge (graph g)) x y)
      ∧ (symmetric (graph g) →
         ∀ c x y, c ∈ cs → x ∈ c →
                  (y ∈ c ↔ rtc (edge (graph g)) x y)).
Proof.
  intros Hinv Hperm. rewrite edges_in_vertices_nbrs in Hinv.
  assert (∀ a b, edge (graph g) a b → b ∈ vertices g) as HUe.
  { intros a b [w Hin]. by destruct (Hinv a b w Hin). }
  assert (∀ x, x ∈ order ↔ x ∈ vertices g) as Hord.
  { intros x. by rewrite Hperm, elem_of_elements. }
  exists (size (vertices g)). intros fuel Hfuel.
  unfold connected_components.
  destruct (cc_outer_spec (graph g) (vertices g) fuel HUe order
              (graph g) ∅ [])
    as (cs & d' & vis' & -> & Hd' & Hinv' & _ & HU' & Hall); try done.
  - intros x. apply Hord.
  - split; [done|]. split; [constructor|]. split; [set_solver|].
    by intros c ?%elem_of_nil.
  - etrans; [|exact Hfuel]. apply subseteq_size. set_solver.
  - destruct Hinv' as (Hvc & Hndc & Hcl & Hcomp).
    eexists _, _. split; [done|]. split; [|split].
    + apply NoDup_Permutation; [done|rewrite Hperm; apply NoDup_elements|].
      intros x. split.
      * intros Hx. apply Hord, HU'. rewrite Hvc. by apply elem_of_list_to_set.
      * intros Hx. apply Hall in Hx. rewrite Hvc in Hx.
        by apply elem_of_list_to_set in Hx.
    + intros c Hc. destruct (Hcomp c Hc) as (x & rest & -> & Hr & _).
      by exists x, rest.
    + intros Hsym c x y Hc Hx.
      destruct (Hcomp c Hc) as (h & rest & -> & Hr & Hfull).
      specialize (Hfull Hsym). split.
      * intros Hy. etrans; [|by apply Hr].
        apply symmetric_rtc; [done|]. by apply Hr.
      * intros Hxy. apply Hfull. etrans; [|exact Hxy]. by apply Hr.
Qed.

End ComponentFacts.

(** * [is_bipartite] *)

Section BipartiteFacts.
Context {V : Type} {EqV : EqDecision V} {CntV : Countable V} {PyV : PyKey V}.
Implicit Types (d : gmap V (list (V * Z))) (g : Graph V).
Implicit Types (a b n v x y : V) (color : gmap V Z) (queue new : list V).
Implicit Types (U : gset V) (col : V → bool).

Lemma bip_for_spec d0 col start color0 U v (cv : Z) :
  (∀ a b, is_Some (color0 !! a) → edge d0 a b → is_Some (color0 !! b)) →
  color0 !! v = None →
  ∀ (nb : list (V * Z)) color queue,
    (∀ n, n ∈ nb.*1 → edge d0 v n ∧ n ∈ U) →
    color !! v = Some cv →
    bip_inv d0 col start color0 color (v :: queue) →
    match bip_for v nb color queue with
    | Ok (Some (color', queue')) =>
        ∃ new, queue' = queue ++ new
          ∧ bip_inv d0 col start color0 color' (v :: queue')
          ∧ (∀ x c, color !! x = Some c → color' !! x = Some c)
          ∧ (length new + size (U ∖ dom color') = size (U ∖ dom color))%nat
          ∧ (∀ n, n ∈ nb.*1 → ∃ cn, color' !! n = Some cn ∧ cn ≠ cv)
    | Ok None => ¬ (symmetric d0 ∧ proper d0 col)
    | Raise _ => False
    end.
Proof.
  intros Hcl0 Hv0.
  induction nb as [|[n w] nb IH]; intros color queue Hnb Hv Hinv.
  { simpl. exists []. rewrite app_nil_r. split; [done|]. split; [done|].
    split; [done|]. split; [done|]. by intros n ?%elem_of_nil. }
  destruct (Hnb n ltac:(by left)) as [Hvn HnU].
  assert (∀ m, m ∈ nb.*1 → edge d0 v m ∧ m ∈ U) as Hnb'.
  { intros m Hm. apply Hnb. by right. }
  destruct Hinv as (Hmono & H01 & Hq & Hdone & Hcol).
  simpl. rewrite Hv. destruct (color !! n) as [cn|] eqn:Hn.
  - case_bool_decide as Hc.
    + (* a conflict: impossible when a proper colouring exists *)
      subst cn. intros [Hsym Hproper].
      destruct (color0 !! n) as [c0|] eqn:Hn0.
      * destruct Hvn as [w' Hin]. apply Hsym in Hin.
        destruct (Hcl0 n v) as [? Hv0']; [done|by exists w'|].
        by rewrite Hv0 in Hv0'.
      * pose proof (Hcol Hsym Hproper n cv Hn Hn0) as E1.
        pose proof (Hcol Hsym Hproper v cv Hv Hv0) as E2.
        apply (Hproper v n Hvn).
        rewrite E1 in E2. unfold side_color in E2.
        destruct (col v), (col n), (col start);
          repeat case_bool_decide; done.
    + specialize (IH color queue Hnb' Hv).
      destruct (bip_for v nb color queue) as [[[color' queue']|]|e];
        [|by apply IH|by apply IH].
      destruct IH as (new & -> & Hinv' & Hmono' & Hsz & Hall).
      { done. }
      exists new. split; [done|]. split; [done|]. split; [done|].
      split; [done|].
      intros m [->|Hm]%elem_of_cons; [|by apply Hall].
      exists cn. split; [by apply Hmono'|done].
  - assert (n ≠ v) as Hnv by (intros ->; congruence).
    assert (color0 !! n = None) as Hn0.
    { destruct (color0 !! n) as [c0|] eqn:E; [|done].
      apply Hmono in E. congruence. }
    assert (bip_inv d0 col start color0 (<[n := 1 - cv]> color)
              (v :: queue ++ [n])) as Hinv1.
    { split; [|split; [|split; [|split]]].
      - intros x c Hx. rewrite lookup_insert_ne; [by apply Hmono|].
        intros <-. congruence.
      - intros x c. destruct (decide (n = x)) as [->|Hne].
        + rewrite lookup_insert_eq. intros [= <-].
          destruct (H01 v cv Hv); lia.
        + rewrite lookup_insert_ne by done. apply H01.
      - intros x Hx. rewrite app_comm_cons in Hx.
        apply elem_of_app in Hx as [Hx| ->%list_elem_of_singleton].
        + destruct (Hq x Hx) as [Hs H0]. split; [|done].
          destruct (decide (n = x)) as [->|Hne];
            [by rewrite lookup_insert_eq|by rewrite lookup_insert_ne].
        + by rewrite lookup_insert_eq.
      - intros a b Ha Haq Hab.
        assert (a ≠ n) as Han.
        { intros ->. apply Haq. rewrite app_comm_cons. apply elem_of_app.
          right. by left. }
        rewrite lookup_insert_ne in Ha by done.
        destruct (Hdone a b Ha) as (ca & cb & Hca & Hcb & Hne); [|done|].
        { intros Hin. apply Haq. rewrite app_comm_cons. apply elem_of_app.
          by left. }
        exists ca, cb. rewrite !lookup_insert_ne; [done| |done].
        intros <-. congruence.
      - intros Hsym Hproper x c. destruct (decide (n = x)) as [<-|Hne].
        + rewrite lookup_insert_eq. intros [= <-] _.
          pose proof (Hcol Hsym Hproper v cv Hv Hv0) as E.
          pose proof (Hproper v n Hvn) as Hd. rewrite E.
          unfold side_color. destruct (col v), (col n), (col start);
            repeat case_bool_decide; done.
        + rewrite lookup_insert_ne by done. by apply Hcol. }
    specialize (IH (<[n := 1 - cv]> color) (queue ++ [n]) Hnb').
    rewrite lookup_insert_ne in IH by done. specialize (IH Hv Hinv1).
    destruct (bip_for v nb _ _) as [[[color' queue']|]|e]; [|done|done].
    destruct IH as (new & -> & Hinv' & Hmono' & Hsz & Hall).
    exists (n :: new). split; [by rewrite <- app_assoc|].
    split; [done|]. split.
    { intros x c Hx. apply Hmono'. rewrite lookup_insert_ne; [done|].
      intros <-. congruence. }
    split.
    { simpl. rewrite Hsz, dom_insert_L.
      apply size_difference_add; [done|]. by apply not_elem_of_dom. }
    intros m [->|Hm]%elem_of_cons; [|by apply Hall].
    exists (1 - cv). split; [|lia]. apply Hmono'. by rewrite lookup_insert_eq.
Qed.

Lemma bip_while_spec d0 col start color0 U :
  (∀ a b, edge d0 a b → b ∈ U) →
  (∀ a b, is_Some (color0 !! a) → edge d0 a b → is_Some (color0 !! b)) →
  ∀ fuel d color queue,
    (∀ k, nbrs d k = nbrs d0 k) →
    bip_inv d0 col start color0 color queue →
    (length queue + size (U ∖ dom color) ≤ fuel)%nat →
    ∃ r d', bip_while fuel d color queue = Some (Ok r, d')
      ∧ (∀ k, nbrs d' k = nbrs d0 k)
      ∧ match r with
        | Some color' =>
            bip_inv d0 col start color0 color' []
            ∧ ∀ x c, color !! x = Some c → color' !! x = Some c
        | None => ¬ (symmetric d0 ∧ proper d0 col)
        end.
Proof.
  intros HUe Hcl0. induction fuel as [|fuel IH];
    intros d color queue Hd Hinv Hfuel;
    (destruct queue as [|v queue]; [by exists (Some color), d|]).
  { simpl in Hfuel. lia. }
  simpl. destruct (getitem_eq d v) as (d1 & -> & Hd1).
  assert (∀ k, nbrs d1 k = nbrs d0 k) as Hd1'.
  { intros k. by rewrite Hd1. }
  destruct (proj1 (proj2 (proj2 Hinv)) v ltac:(by left)) as [[cv Hv] Hv0].
  assert (∀ n, n ∈ (nbrs d v).*1 → edge d0 v n ∧ n ∈ U) as Hnb.
  { intros n Hn. rewrite Hd in Hn. apply edge_nbrs in Hn.
    split; [done|]. by eapply HUe. }
  pose proof (bip_for_spec d0 col start color0 U v cv Hcl0 Hv0
                (nbrs d v) color queue Hnb Hv Hinv) as Hfor.
  destruct (bip_for v (nbrs d v) color queue)
    as [[[color' queue']|]|e].
  - destruct Hfor as (new & -> & Hinv' & Hmono & Hsz & Hall).
    destruct (IH d1 color' (queue ++ new)) as (r & d' & -> & Hd' & Hpost);
      try done.
    + destruct Hinv' as (Hm & H01 & Hq & Hdone & Hcol).
      split; [done|]. split; [done|]. split; [|split; [|done]].
      * intros x Hx. apply Hq. by right.
      * intros a b Ha Haq Hab. destruct (decide (a = v)) as [->|Hne].
        -- destruct (Hall b) as (cb & Hcb & Hne).
           { rewrite Hd. by apply edge_nbrs. }
           exists cv, cb. split; [by apply Hmono|]. split; [done|].
           congruence.
        -- apply Hdone; [done| |done].
           by intros [?|?]%elem_of_cons.
    + simpl in Hfuel. rewrite length_app. lia.
    + exists r, d'. split; [done|]. split; [done|].
      destruct r as [color''|]; [|done].
      destruct Hpost as [Hinv'' Hmono'']. split; [done|].
      intros x c Hx. by apply Hmono'', Hmono.
  - by exists None, d1.
  - done.
Qed.

Lemma bip_outer_spec d0 col U fuel :
  (∀ a b, edge d0 a b → b ∈ U) →
  ∀ (order : list V) d color,
    (∀ x, x ∈ order → x ∈ U) →
    (∀ k, nbrs d k = nbrs d0 k) →
    (∀ x c, color !! x = Some c → c = 0 ∨ c = 1) →
    (∀ a b, is_Some (color !! a) → edge d0 a b →
       ∃ ca cb, color !! a = Some ca ∧ color !! b = Some cb ∧ ca ≠ cb) →
    (size (U ∖ dom color) ≤ fuel)%nat →
    ∃ r d', bip_outer fuel order d color = Some (Ok r, d')
      ∧ (∀ k, nbrs d' k = nbrs d0 k)
      ∧ if r then
          ∃ color',
            (∀ x c, color' !! x = Some c → c = 0 ∨ c = 1)
            ∧ (∀ a b, is_Some (color' !! a) → edge d0 a b →
                 ∃ ca cb, color' !! a = Some ca ∧ color' !! b = Some cb
                          ∧ ca ≠ cb)
            ∧ (∀ x c, color !! x = Some c → color' !! x = Some c)
            ∧ ∀ x, x ∈ order → is_Some (color' !! x)
        else ¬ (symmetric d0 ∧ proper d0 col).
Proof.
  intros HUe. induction order as [|x order IH];
    intros d color Hord Hd H01 Hdone Hfuel; simpl.
  { exists true, d. split; [done|]. split; [done|]. exists color.
    split; [done|]. split; [done|]. split; [done|].
    by intros x ?%elem_of_nil. }
  assert (∀ y, y ∈ order → y ∈ U) as Hord'.
  { intros y Hy. apply Hord. by right. }
  destruct (color !! x) as [cx|] eqn:Hx.
  - destruct (IH d color) as (r & d' & -> & Hd' & Hpost); try done.
    exists r, d'. split; [done|]. split; [done|].
    destruct r; [|done].
    destruct Hpost as (color' & H01' & Hdone' & Hmono & Hall).
    exists color'. split; [done|]. split; [done|]. split; [done|].
    intros y [->|Hy]%elem_of_cons; [|by apply Hall].
    exists cx. by apply Hmono.
  - assert (∀ a b, is_Some (color !! a) → edge d0 a b → is_Some (color !! b))
      as Hcl0.
    { intros a b Ha Hab.
      destruct (Hdone a b Ha Hab) as (ca & cb & _ & Hcb & _). by exists cb. }
    destruct (bip_while_spec d0 col x color U HUe Hcl0 fuel d
                (<[x := 0]> color) [x])
      as (r1 & d1 & -> & Hd1 & Hpost1); try done.
    { split; [|split; [|split; [|split]]].
      - intros y c Hy. rewrite lookup_insert_ne; [done|]. intros <-.
        congruence.
      - intros y c. destruct (decide (x = y)) as [->|Hne].
        + rewrite lookup_insert_eq. intros [= <-]. by left.
        + rewrite lookup_insert_ne by done. apply H01.
      - intros y ->%list_elem_of_singleton.
        by rewrite lookup_insert_eq.
      - intros a b Ha Haq Hab.
        assert (a ≠ x) as Hax.
        { intros ->. apply Haq. by left. }
        rewrite lookup_insert_ne in Ha by done.
        destruct (Hdone a b Ha Hab) as (ca & cb & Hca & Hcb & Hne).
        exists ca, cb. rewrite !lookup_insert_ne; [done| |done].
        intros <-. congruence.
      - intros _ _ y c. destruct (decide (x = y)) as [<-|Hne].
        + rewrite lookup_insert_eq. intros [= <-] _.
          by rewrite bool_decide_eq_true_2.
        + rewrite lookup_insert_ne by done. intros Hy Hy0. congruence. }
    { simpl. rewrite dom_insert_L.
      rewrite (size_difference_add U (dom color) x);
        [done|apply Hord; by left|by apply not_elem_of_dom]. }
    destruct r1 as [color1|]; [|by exists false, d1].
    destruct Hpost1 as [(Hm1 & H011 & _ & Hdone1 & _) Hmono1].
    destruct (IH d1 color1) as (r & d' & -> & Hd' & Hpost); try done.
    { intros a b Ha. apply Hdone1; [done|]. by intros ?%elem_of_nil. }
    { etrans; [|exact Hfuel]. apply subseteq_size.
      apply difference_mono_l. intros y [c Hy]%elem_of_dom.
      apply elem_of_dom. exists c. by apply Hm1. }
    exists r, d'. split; [done|]. split; [done|].
    destruct r; [|done].
    destruct Hpost as (color' & H01' & Hdone' & Hmono & Hall).
    exists color'. split; [done|]. split; [done|]. split.
    { intros y c Hy. by apply Hmono, Hm1. }
    intros y [->|Hy]%elem_of_cons; [|by apply Hall].
    exists 0. apply Hmono, Hmono1. by rewrite lookup_insert_eq.
Qed.

(** Whatever the order in which the vertex set is iterated,
    [is_bipartite()] returns without an exception; when it returns [True]
    the graph has a proper two-colouring; and on a graph where every entry
    has its mirror entry (an undirected graph) it returns [True] whenever a
    proper two-colouring exists. *)
Theorem is_bipartite_correct g (order : list V) :
  edges_in_vertices g →
  order ≡ₚ elements (vertices g) →
  ∃ fuel0, ∀ fuel, (fuel0 ≤ fuel)%nat →
    ∃ r g', is_bipartite fuel g order = Some (Ok r, g')
      ∧ (r = true → ∃ col, proper (graph g) col)
      ∧ (symmetric (graph g) → (∃ col, proper (graph g) col) → r = true).
Proof.
  intros Hinv Hperm. rewrite edges_in_vertices_nbrs in Hinv.
  assert (∀ a b, edge (graph g) a b → b ∈ vertices g) as HUe.
  { intros a b [w Hin]. by destruct (Hinv a b w Hin). }
  assert (∀ x, x ∈ order ↔ x ∈ vertices g) as Hord.
  { intros x. by rewrite Hperm, elem_of_elements. }
  exists (size (vertices g)). intros fuel Hfuel.
  assert (∀ col, ∃ r d', bip_outer fuel order (graph g) ∅ = Some (Ok r, d')
      ∧ (∀ k, nbrs d' k = nbrs (graph g) k)
      ∧ if r then
          ∃ color',
            (∀ x c, color' !! x = Some c → c = 0 ∨ c = 1)
            ∧ (∀ a b, is_Some (color' !! a) → edge (graph g) a b →
                 ∃ ca cb, color' !! a = Some ca ∧ color' !! b = Some cb
                          ∧ ca ≠ cb)
            ∧ (∀ x c, (∅ : gmap V Z) !! x = Some c → color' !! x = Some c)
            ∧ ∀ x, x ∈ order → is_Some (color' !! x)
        else ¬ (symmetric (graph g) ∧ proper (graph g) col)) as Hrun.
  { intros col.
    apply (bip_outer_spec (graph g) col (vertices g) fuel HUe); try done.
    - intros x. apply Hord.
    - intros a b [c Ha]. by rewrite lookup_empty in Ha.
    - etrans; [|exact Hfuel]. apply subseteq_size. set_solver. }
  destruct (Hrun (λ _, true)) as (r & d' & Hr & Hd' & Hpost).
  unfold is_bipartite. rewrite Hr. exists r. eexists. split; [done|]. split.
  - intros ->. destruct Hpost as (color' & H01 & Hdone & _ & Hall).
    exists (λ x, bool_decide (color' !! x = Some 0)). intros a b Hab.
    assert (a ∈ order) as Ha.
    { apply Hord. destruct Hab as [w Hin]. by destruct (Hinv a b w Hin). }
    destruct (Hdone a b (Hall a Ha) Hab) as (ca & cb & Hca & Hcb & Hne).
    rewrite Hca, Hcb.
    destruct (H01 a ca Hca) as [->| ->], (H01 b cb Hcb) as [->| ->];
      repeat case_bool_decide; done.
  - intros Hsym [col Hcol].
    destruct (Hrun col) as (r' & d'' & Hr' & _ & Hpost').
    rewrite Hr in Hr'. injection Hr' as <- _.
    destruct r; [done|]. by destruct Hpost'.
Qed.

End BipartiteFacts.

(** * [WeightedGraph] *)

Section WeightedGraphFacts.
Import WeightedGraph.
Implicit Types (g : WeightedGraph.t) (m : list (list Z)) (i j u v w : Z).

Lemma py_index_lt len i k : py_index len i = Some k → (k < len)%nat.
Proof. unfold py_index. repeat case_decide; intros; simplify_eq; lia. Qed.

Lemma py_index_is_Some len i :
  is_Some (py_index len i) ↔ - Z.of_nat len ≤ i < Z.of_nat len.
Proof.
  unfold py_index. repeat case_decide; split; try (intros [? ?]; done);
    try lia; eauto.
Qed.

Lemma py_get_py_set {A} (l l' : list A) i j (a : A) :
  py_set l i a = Some l' →
  length l' = length l
  ∧ py_get l' j = if decide (py_index (length l) j = py_index (length l) i)
                  then Some a else py_get l j.
Proof.
  unfold py_set, py_get. destruct (py_index (length l) i) as [k|] eqn:Ei;
    [|done]. simpl. intros [= <-]. rewrite length_insert. split; [done|].
  pose proof (py_index_lt _ _ _ Ei) as Hk.
  destruct (py_index (length l) j) as [k'|] eqn:Ej; simpl.
  - case_decide as E.
    + simplify_eq. by apply list_lookup_insert_eq.
    + apply list_lookup_insert_ne. congruence.
  - done.
Qed.

Lemma py_get_index {A} (l : list A) i j :
  py_index (length l) i = py_index (length l) j → py_get l i = py_get l j.
Proof. unfold py_get. by intros ->. Qed.

Lemma py_get_is_Some {A} (l : list A) i :
  is_Some (py_get l i) ↔ is_Some (py_index (length l) i).
Proof.
  unfold py_get. split.
  - intros [a Ha]. destruct (py_index (length l) i); [eauto|done].
  - intros [k Hk]. rewrite Hk. simpl. apply lookup_lt_is_Some.
    by eapply py_index_lt.
Qed.

Lemma py_set_is_Some {A} (l : list A) i (a : A) :
  is_Some (py_set l i a) ↔ is_Some (py_index (length l) i).
Proof.
  unfold py_set. destruct (py_index (length l) i); simpl; split;
    intros [? ?]; by eauto.
Qed.

Lemma py_get_elem_of {A} (l : list A) i (a : A) : py_get l i = Some a → a ∈ l.
Proof.
  unfold py_get. destruct (py_index (length l) i); [|done]. simpl.
  apply list_elem_of_lookup_2.
Qed.

(** A matrix of [n] rows of [n] entries. *)
Lemma setitem2_spec (n : nat) m m' i j (a : Z) :
  length m = n → Forall (λ row, length row = n) m →
  setitem2 m i j a = Some m' →
  length m' = n ∧ Forall (λ row, length row = n) m'
  ∧ ∀ i' j', getitem2 m' i' j'
             = if decide (py_index n i' = py_index n i
                          ∧ py_index n j' = py_index n j)
               then Some a else getitem2 m i' j'.
Proof.
  intros Hlen Hrows. unfold setitem2.
  destruct (py_get m i) as [row|] eqn:Erow; [|done]. simpl.
  assert (length row = n) as Hrow.
  { rewrite Forall_forall in Hrows. by eapply Hrows, py_get_elem_of. }
  destruct (py_set row j a) as [row'|] eqn:Erow'; [|done]. simpl.
  intros Em'.
  pose proof (py_get_py_set row row' j) as Hr. 
  destruct (Hr j a Erow') as [Hlen' _].
  split; [|split].
  - destruct (py_get_py_set m m' i i row' Em') as [-> _]. done.
  - unfold py_set in Em'. destruct (py_index (length m) i); [|done].
    simpl in Em'. simplify_eq. apply Forall_insert; [done|]. congruence.
  - intros i' j'. unfold getitem2.
    destruct (py_get_py_set m m' i i' row' Em') as [_ ->].
    rewrite Hlen. case_decide as Ei.
    + simpl. destruct (Hr j' a Erow') as [_ ->]. rewrite Hrow.
      rewrite (py_get_index m i' i) by (by rewrite Hlen). rewrite Erow.
      simpl. case_decide as Ej.
      * by rewrite decide_True.
      * rewrite decide_False; [done|]. by intros [_ ?].
    + rewrite decide_False; [done|]. by intros [? _].
Qed.

Lemma setitem2_is_Some (n : nat) m i j (a : Z) :
  length m = n → Forall (λ row, length row = n) m →
  is_Some (setitem2 m i j a)
  ↔ is_Some (py_index n i) ∧ is_Some (py_index n j).
Proof.
  intros Hlen Hrows. unfold setitem2. split.
  - intros [m' Hm'].
    destruct (py_get m i) as [row|] eqn:Erow; [|done]. simpl in Hm'.
    assert (length row = n) as Hrow.
    { rewrite Forall_forall in Hrows. by eapply Hrows, py_get_elem_of. }
    split.
    + rewrite <- Hlen. apply py_get_is_Some. eauto.
    + destruct (py_set row j a) as [row'|] eqn:Erow'; [|done].
      rewrite <- Hrow. apply (py_set_is_Some row j a). eauto.
  - intros [Hi Hj]. rewrite <- Hlen in Hi.
    pose proof Hi as [row Erow]%py_get_is_Some. rewrite Erow. simpl.
    assert (length row = n) as Hrow.
    { rewrite Forall_forall in Hrows. by eapply Hrows, py_get_elem_of. }
    rewrite <- Hrow in Hj. apply (py_set_is_Some row j a) in Hj as [row' ->].
    simpl. by apply py_set_is_Some.
Qed.

Lemma square_Forall g :
  square g ↔ length (graph g) = Z.to_nat (V g)
             ∧ Forall (λ row, length row = Z.to_nat (V g)) (graph g).
Proof. unfold square. by rewrite Forall_forall. Qed.

Lemma add_edge_cells g u v w :
  square g →
  (- V g ≤ u < V g ∧ - V g ≤ v < V g →
   ∃ g', add_edge g u v w = (Some (), g') ∧ V g' = V g ∧ square g'
     ∧ ∀ i j, getitem2 (graph g') i j
              = if decide ((py_index (Z.to_nat (V g)) i
                              = py_index (Z.to_nat (V g)) u
                            ∧ py_index (Z.to_nat (V g)) j
                              = py_index (Z.to_nat (V g)) v)
                           ∨ (py_index (Z.to_nat (V g)) i
                                = py_index (Z.to_nat (V g)) v
                              ∧ py_index (Z.to_nat (V g)) j
                                = py_index (Z.to_nat (V g)) u))
                then Some w else getitem2 (graph g) i j)
  ∧ (¬ (- V g ≤ u < V g ∧ - V g ≤ v < V g) →
     add_edge g u v w = (None, g)).
Proof.
  intros [Hlen Hrows]%square_Forall. set (n := Z.to_nat (V g)) in *.
  assert (∀ i, is_Some (py_index n i) ↔ - V g ≤ i < V g) as Hvalid.
  { intros i. rewrite py_index_is_Some. unfold n. lia. }
  unfold add_edge. split.
  - intros [Hu Hv]. apply Hvalid in Hu, Hv.
    destruct (proj2 (setitem2_is_Some n (graph g) u v w Hlen Hrows)
                (conj Hu Hv)) as [m1 E1].
    rewrite E1.
    destruct (setitem2_spec n _ _ _ _ _ Hlen Hrows E1)
      as (Hlen1 & Hrows1 & Hget1).
    destruct (proj2 (setitem2_is_Some n m1 v u w Hlen1 Hrows1)
                (conj Hv Hu)) as [m2 E2].
    rewrite E2.
    destruct (setitem2_spec n _ _ _ _ _ Hlen1 Hrows1 E2)
      as (Hlen2 & Hrows2 & Hget2).
    eexists. split; [done|]. split; [done|].
    split; [by apply square_Forall|].
    intros i j. simpl. rewrite Hget2, Hget1.
    repeat case_decide; try done; naive_solver.
  - intros Hbad.
    destruct (setitem2 (graph g) u v w) as [m1|] eqn:E1; [|done].
    destruct Hbad.
    destruct (proj1 (setitem2_is_Some n (graph g) u v w Hlen Hrows))
      as [Hu Hv]; [eauto|].
    by rewrite <- !Hvalid.
Qed.

(** [add_edge(u, v, weight)] on a square matrix: when both indices are
    within [-V, V) it sets [graph[u][v]] and [graph[v][u]] to [weight] and
    leaves every other entry as it was; otherwise it raises [IndexError] and
    leaves the matrix unchanged. A negative index counts from the end. *)
Theorem weighted_add_edge_spec g u v w :
  square g →
  (- V g ≤ u < V g ∧ - V g ≤ v < V g →
   ∃ g', add_edge g u v w = (Some (), g') ∧ V g' = V g ∧ square g'
     ∧ ∀ i j, getitem2 (graph g') i j
              = if decide ((py_index (Z.to_nat (V g)) i
                              = py_index (Z.to_nat (V g)) u
                            ∧ py_index (Z.to_nat (V g)) j
                              = py_index (Z.to_nat (V g)) v)
                           ∨ (py_index (Z.to_nat (V g)) i
                                = py_index (Z.to_nat (V g)) v
                              ∧ py_index (Z.to_nat (V g)) j
                                = py_index (Z.to_nat (V g)) u))
                then Some w else getitem2 (graph g) i j)
  ∧ (¬ (- V g ≤ u < V g ∧ - V g ≤ v < V g) →
     add_edge g u v w = (None, g)).
Proof. apply add_edge_cells. Qed.

Lemma built_inv g : built g → square g ∧ symmetric g.
Proof.
  induction 1 as [n|g u v w _ [Hsq Hsym]].
  - split.
    + split; simpl; [by rewrite length_replicate|].
      intros row [-> _]%elem_of_replicate. by rewrite length_replicate.
    + intros i j. unfold getitem2, py_get. simpl.
      rewrite length_replicate.
      destruct (py_index _ i) as [ki|] eqn:Ei,
               (py_index _ j) as [kj|] eqn:Ej; simpl; try done.
      * pose proof (py_index_lt _ _ _ Ei). pose proof (py_index_lt _ _ _ Ej).
        rewrite !lookup_replicate_2 by done. simpl.
        rewrite !length_replicate, Ei, Ej. simpl.
        by rewrite !lookup_replicate_2.
      * pose proof (py_index_lt _ _ _ Ei).
        rewrite lookup_replicate_2 by done. simpl.
        by rewrite length_replicate, Ej.
      * pose proof (py_index_lt _ _ _ Ej).
        rewrite lookup_replicate_2 by done. simpl.
        by rewrite length_replicate, Ei.
  - destruct (add_edge_cells g u v w Hsq) as [Hok Hbad].
    destruct (decide (- V g ≤ u < V g ∧ - V g ≤ v < V g)) as [Hv|Hv].
    + destruct (Hok Hv) as (g' & -> & _ & Hsq' & Hget). simpl.
      split; [done|]. intros i j. rewrite !Hget, (Hsym i j).
      repeat case_decide; try done; naive_solver.
    + by rewrite (Hbad Hv).
Qed.

(** Whatever calls of [add_edge] were made on a [WeightedGraph(n)], with
    whatever outcome, the matrix has [V] rows of [V] entries and is
    symmetric. *)
Theorem built_square_symmetric g :
  built g → square g ∧ symmetric g.
Proof. apply built_inv. Qed.

(** ** [prim_mst] returns unless there is no vertex *)

Lemma elem_of_range (n v : Z) : v ∈ range n ↔ 0 ≤ v < n.
Proof.
  unfold range. rewrite list_elem_of_fmap. split.
  - intros (k & -> & Hk%elem_of_seq). lia.
  - intros Hv. exists (Z.to_nat v). split; [lia|]. apply elem_of_seq. lia.
Qed.

Lemma py_index_valid (len : nat) i :
  - Z.of_nat len ≤ i < Z.of_nat len → is_Some (py_index len i).
Proof. apply py_index_is_Some. Qed.

Lemma py_set_length {A} (l l' : list A) i (a : A) :
  py_set l i a = Some l' → length l' = length l.
Proof. intros E. by destruct (py_get_py_set l l' i i a E). Qed.

Lemma find_min_total (n : nat) (vs : list Z) (selected : list bool)
    (key : list dist) (min_key : dist) u :
  length selected = n → length key = n →
  (∀ v, v ∈ vs → 0 ≤ v < Z.of_nat n) →
  -1 ≤ u < Z.of_nat n →
  ∃ mu, find_min vs selected key min_key u = Some mu
        ∧ -1 ≤ mu.2 < Z.of_nat n.
Proof.
  intros Hs Hk. revert min_key u.
  induction vs as [|v vs IH]; intros min_key u Hvs Hu; simpl; [by eexists|].
  assert (0 ≤ v < Z.of_nat n) as Hv by (apply Hvs; by left).
  assert (∀ x, x ∈ vs → 0 ≤ x < Z.of_nat n) as Hvs'.
  { intros x Hx. apply Hvs. by right. }
  assert (is_Some (py_get selected v)) as [sel ->].
  { apply py_get_is_Some, py_index_valid. lia. }
  assert (is_Some (py_get key v)) as [kv ->].
  { apply py_get_is_Some, py_index_valid. lia. }
  simpl. destruct sel; [by apply IH|].
  destruct (key_lt kv min_key); apply IH; try done; lia.
Qed.

Lemma update_keys_total (n : nat) m u (vs : list Z) (selected : list bool)
    (key : list dist) (parent : list Z) :
  length m = n → Forall (λ row, length row = n) m →
  length selected = n → length key = n → length parent = n →
  (∀ v, v ∈ vs → 0 ≤ v < Z.of_nat n) →
  -1 ≤ u < Z.of_nat n → (0 < n)%nat →
  ∀ Q : Z → Prop, Q u → Forall Q parent →
  ∃ kp, update_keys m u vs selected key parent = Some kp
        ∧ length kp.1 = n ∧ length kp.2 = n
        ∧ Forall Q kp.2.
Proof.
  intros Hm Hrows Hs. revert key parent.
  induction vs as [|v vs IH];
    intros key parent Hk Hp Hvs Hu Hn Q HQ Hpar; simpl; [by eexists|].
  assert (0 ≤ v < Z.of_nat n) as Hv by (apply Hvs; by left).
  assert (∀ x, x ∈ vs → 0 ≤ x < Z.of_nat n) as Hvs'.
  { intros x Hx. apply Hvs. by right. }
  assert (is_Some (getitem2 m u v)) as [guv ->].
  { unfold getitem2.
    assert (is_Some (py_get m u)) as [row Hrow].
    { apply py_get_is_Some, py_index_valid. lia. }
    rewrite Hrow. simpl. apply py_get_is_Some, py_index_valid.
    rewrite Forall_forall in Hrows.
    rewrite (Hrows row) by (by eapply py_get_elem_of). lia. }
  simpl. destruct (0 <? guv); [|by apply IH].
  assert (is_Some (py_get selected v)) as [sel ->].
  { apply py_get_is_Some, py_index_valid. lia. }
  simpl. destruct sel; [by apply IH|].
  assert (is_Some (py_get key v)) as [kv ->].
  { apply py_get_is_Some, py_index_valid. lia. }
  simpl. destruct (dist_lt guv kv); [|by apply IH].
  assert (is_Some (py_set key v (Fin guv))) as [key' Hkey'].
  { apply py_set_is_Some, py_index_valid. lia. }
  assert (is_Some (py_set parent v u)) as [parent' Hparent'].
  { apply py_set_is_Some, py_index_valid. lia. }
  rewrite Hkey', Hparent'. simpl. apply IH; try done.
  - by rewrite (py_set_length _ _ _ _ Hkey').
  - by rewrite (py_set_length _ _ _ _ Hparent').
  - unfold py_set in Hparent'.
    destruct (py_index (length parent) v); [|done]. simpl in Hparent'.
    simplify_eq. by apply Forall_insert.
Qed.

Lemma prim_loop_total (rounds : nat) g (selected : list bool)
    (parent : list Z) (key : list dist) (mst_edges : list (Z * Z * Z)) :
  square g → 0 < V g →
  length selected = Z.to_nat (V g) → length key = Z.to_nat (V g) →
  length parent = Z.to_nat (V g) →
  Forall (λ p, -1 ≤ p < V g) parent →
  is_Some (prim_loop rounds g selected parent key mst_edges).
Proof.
  intros [Hm Hrows]%square_Forall HV.
  set (n := Z.to_nat (V g)) in *.
  assert (Z.of_nat n = V g) as HnV by (unfold n; lia).
  revert selected parent key mst_edges.
  induction rounds as [|rounds IH];
    intros selected parent key mst_edges Hs Hk Hp Hpar; simpl; [by eexists|].
  destruct (find_min_total n (range (V g)) selected key Inf (-1))
    as ([mk u] & -> & Hu); try done.
  { intros v. rewrite elem_of_range. lia. }
  { lia. }
  simpl in *.
  assert (is_Some (py_set selected u true)) as [selected' Hsel'].
  { apply py_set_is_Some, py_index_valid. lia. }
  rewrite Hsel'. simpl.
  assert (is_Some (py_get parent u)) as [pu Hpu].
  { apply py_get_is_Some, py_index_valid. lia. }
  rewrite Hpu. simpl.
  assert (-1 ≤ pu < V g) as Hpu'.
  { rewrite Forall_forall in Hpar. by eapply Hpar, py_get_elem_of. }
  assert (∃ edges',
            (if decide (pu ≠ -1)
             then w ← getitem2 (graph g) pu u;
                  Some (mst_edges ++ [(pu, u, w)])
             else Some mst_edges) = Some edges') as [edges' ->].
  { case_decide; [|by eexists].
    assert (is_Some (getitem2 (graph g) pu u)) as [w ->]; [|by eexists].
    unfold getitem2.
    assert (is_Some (py_get (graph g) pu)) as [row Hrow].
    { apply py_get_is_Some, py_index_valid. lia. }
    rewrite Hrow. simpl. apply py_get_is_Some, py_index_valid.
    rewrite Forall_forall in Hrows.
    rewrite (Hrows row) by (by eapply py_get_elem_of). lia. }
  simpl.
  destruct (update_keys_total n (graph g) u (range (V g)) selected' key
              parent) with (Q := λ p, -1 ≤ p < V g)
    as ([key' parent'] & -> & Hk' & Hp' & Hpar');
    [done|done| |done|done| | | | | |].
  { by rewrite (py_set_length _ _ _ _ Hsel'). }
  { intros v. rewrite elem_of_range. lia. }
  { lia. }
  { lia. }
  { lia. }
  { done. }
  simpl in *. apply IH; try done.
  by rewrite (py_set_length _ _ _ _ Hsel').
Qed.

(** On a square matrix, [prim_mst()] raises [IndexError] when the graph has
    no vertex ([V <= 0]), from [key[0] = 0], and returns a list of edges
    otherwise, also when the graph is not connected. *)
Theorem prim_mst_index_error g :
  square g → prim_mst g = None ↔ V g ≤ 0.
Proof.
  intros Hsq. unfold prim_mst. split.
  - intros Hnone. destruct (decide (V g ≤ 0)) as [|Hpos]; [done|].
    exfalso.
    assert (is_Some (py_set (replicate (Z.to_nat (V g)) Inf) 0 (Fin 0)))
      as [key Hkey].
    { apply py_set_is_Some, py_index_valid. rewrite length_replicate. lia. }
    rewrite Hkey in Hnone. simpl in Hnone.
    destruct (prim_loop_total (Z.to_nat (V g)) g
                (replicate (Z.to_nat (V g)) false)
                (replicate (Z.to_nat (V g)) (-1)) key [] Hsq)
      as [r Hr]; try (by rewrite length_replicate); try lia.
    + rewrite (py_set_length _ _ _ _ Hkey). by rewrite length_replicate.
    + apply Forall_replicate. lia.
    + by rewrite Hr in Hnone.
  - intros HV. by replace (Z.to_nat (V g)) with O by lia.
Qed.

(** ** [prim_mst] on a connected graph *)

Lemma py_get_nonneg {A} (l : list A) i :
  0 ≤ i < Z.of_nat (length l) → py_get l i = l !! Z.to_nat i.
Proof.
  intros Hi. unfold py_get, py_index. by rewrite decide_True by lia.
Qed.

Lemma py_set_nonneg {A} (l : list A) i (a : A) :
  0 ≤ i < Z.of_nat (length l) →
  py_set l i a = Some (<[Z.to_nat i := a]> l).
Proof.
  intros Hi. unfold py_set, py_index. by rewrite decide_True by lia.
Qed.

Lemma count_true_cons (b : bool) (l : list bool) :
  count_true (b :: l) = ((if b then 1 else 0) + count_true l)%nat.
Proof.
  unfold count_true. rewrite filter_cons. by destruct b.
Qed.

Lemma count_true_le (l : list bool) : (count_true l ≤ length l)%nat.
Proof. unfold count_true. apply length_filter. Qed.

Lemma count_true_insert (l : list bool) (k : nat) :
  l !! k = Some false → count_true (<[k := true]> l) = S (count_true l).
Proof.
  revert k. induction l as [|b l IH]; intros k; [done|].
  destruct k as [|k]; simpl.
  - intros [= ->]. by rewrite !count_true_cons.
  - intros Hk. rewrite !count_true_cons, (IH k Hk). lia.
Qed.

Lemma count_true_all (l : list bool) (k : nat) :
  count_true l = length l → (k < length l)%nat → l !! k = Some true.
Proof.
  revert k. induction l as [|b l IH]; intros k; simpl; [lia|].
  rewrite count_true_cons. pose proof (count_true_le l).
  destruct b; [|simpl; lia]. intros Hc Hk.
  destruct k as [|k]; [done|]. simpl. apply IH; lia.
Qed.

Lemma count_true_lt (l : list bool) :
  (count_true l < length l)%nat → ∃ k, l !! k = Some false.
Proof.
  induction l as [|b l IH]; simpl; [lia|].
  rewrite count_true_cons. destruct b; [|by exists O].
  intros Hc. destruct IH as [k Hk]; [lia|]. by exists (S k).
Qed.

Lemma count_true_0 (l : list bool) (k : nat) :
  count_true l = O → l !! k ≠ Some true.
Proof.
  revert k. induction l as [|b l IH]; intros k; [done|].
  rewrite count_true_cons. destruct b; [simpl; lia|]. simpl. intros Hc.
  destruct k as [|k]; [done|]. by apply IH.
Qed.

Lemma key_lt_trans (a b c : dist) :
  key_lt a b = true → key_lt b c = true → key_lt a c = true.
Proof.
  destruct a as [x|], b as [y|], c as [z|]; simpl; try done.
  rewrite !Z.ltb_lt. lia.
Qed.

Lemma find_min_spec (N : nat) (vs : list Z) (selected : list bool)
    (key : list dist) (mk0 : dist) u0 (mk : dist) u :
  length selected = N → length key = N →
  (∀ v, v ∈ vs → 0 ≤ v < Z.of_nat N) →
  find_min vs selected key mk0 u0 = Some (mk, u) →
  (mk = mk0 ∧ u = u0
   ∧ ∀ v kv, v ∈ vs → selected !! Z.to_nat v = Some false →
             key !! Z.to_nat v = Some kv → key_lt kv mk0 = false)
  ∨ (u ∈ vs ∧ selected !! Z.to_nat u = Some false
     ∧ key !! Z.to_nat u = Some mk ∧ key_lt mk mk0 = true).
Proof.
  intros Hs Hk. revert mk0 u0.
  induction vs as [|v vs IH]; intros mk0 u0 Hvs; simpl.
  { intros [= <- <-]. left. split; [done|]. split; [done|].
    by intros v kv ?%elem_of_nil. }
  assert (0 ≤ v < Z.of_nat N) as Hv by (apply Hvs; by left).
  assert (∀ x, x ∈ vs → 0 ≤ x < Z.of_nat N) as Hvs'.
  { intros x Hx. apply Hvs. by right. }
  rewrite (py_get_nonneg selected), (py_get_nonneg key) by lia.
  destruct (selected !! Z.to_nat v) as [sel|] eqn:Esel; [|done]. simpl.
  destruct sel.
  { intros Hr. destruct (IH mk0 u0 Hvs' Hr) as [(-> & -> & Hno)|Hyes].
    - left. split; [done|]. split; [done|].
      intros x kx [->|Hx]%elem_of_cons; [congruence|by apply Hno].
    - right. destruct Hyes as (Hu & ?). split; [by right|done]. }
  destruct (key !! Z.to_nat v) as [kv|] eqn:Ekv; [|done]. simpl.
  destruct (key_lt kv mk0) eqn:Elt.
  - intros Hr. right.
    destruct (IH kv v Hvs' Hr) as [(-> & -> & Hno)|(Hu & Hsu & Hku & Hlt)].
    + split; [by left|done].
    + split; [by right|]. split; [done|]. split; [done|].
      by eapply key_lt_trans.
  - intros Hr. destruct (IH mk0 u0 Hvs' Hr) as [(-> & -> & Hno)|Hyes].
    + left. split; [done|]. split; [done|].
      intros x kx [->|Hx]%elem_of_cons; [congruence|by apply Hno].
    + right. destruct Hyes as (Hu & ?). split; [by right|done].
Qed.

Lemma update_keys_spec (N : nat) m u (vs : list Z) (selected : list bool)
    (key : list dist) (parent : list Z) (key' : list dist)
    (parent' : list Z) :
  length selected = N → length key = N → length parent = N →
  (∀ v, v ∈ vs → 0 ≤ v < Z.of_nat N) →
  update_keys m u vs selected key parent = Some (key', parent') →
  length key' = N ∧ length parent' = N
  ∧ ∀ v, 0 ≤ v < Z.of_nat N →
      ((key' !! Z.to_nat v = key !! Z.to_nat v
        ∧ parent' !! Z.to_nat v = parent !! Z.to_nat v)
       ∨ (selected !! Z.to_nat v = Some false
          ∧ ∃ x, getitem2 m u v = Some x ∧ 0 < x
                 ∧ key' !! Z.to_nat v = Some (Fin x)
                 ∧ parent' !! Z.to_nat v = Some u))
      ∧ (v ∈ vs → selected !! Z.to_nat v = Some false →
         ∀ x, getitem2 m u v = Some x → 0 < x →
              ∃ x', key' !! Z.to_nat v = Some (Fin x'))
      ∧ (∀ x, key !! Z.to_nat v = Some (Fin x) →
              ∃ x', key' !! Z.to_nat v = Some (Fin x')).
Proof.
  intros Hs. revert key parent.
  induction vs as [|v0 vs IH]; intros key parent Hk Hp Hvs; simpl.
  { intros [= <- <-]. split; [done|]. split; [done|]. intros v Hv.
    split; [by left|]. split; [by intros ?%elem_of_nil|eauto]. }
  assert (0 ≤ v0 < Z.of_nat N) as Hv0 by (apply Hvs; by left).
  assert (∀ x, x ∈ vs → 0 ≤ x < Z.of_nat N) as Hvs'.
  { intros x Hx. apply Hvs. by right. }
  destruct (getitem2 m u v0) as [guv|] eqn:Eg; [|done]. simpl.
  destruct (0 <? guv) eqn:Epos.
  2:{ intros Hr. destruct (IH key parent Hk Hp Hvs' Hr) as (Hk' & Hp' & Hall).
      split; [done|]. split; [done|]. intros v Hv.
      destruct (Hall v Hv) as (H1 & H2 & H3).
      split; [done|]. split; [|done].
      intros [->|Hin]%elem_of_cons; [|by apply H2].
      intros _ x Hx Hx0. rewrite Eg in Hx. simplify_eq.
      apply Z.ltb_ge in Epos. lia. }
  apply Z.ltb_lt in Epos.
  rewrite (py_get_nonneg selected) by lia.
  destruct (selected !! Z.to_nat v0) as [sel|] eqn:Esel; [|done]. simpl.
  destruct sel.
  { intros Hr. destruct (IH key parent Hk Hp Hvs' Hr) as (Hk' & Hp' & Hall).
    split; [done|]. split; [done|]. intros v Hv.
    destruct (Hall v Hv) as (H1 & H2 & H3).
    split; [done|]. split; [|done].
    intros [->|Hin]%elem_of_cons; [congruence|by apply H2]. }
  rewrite (py_get_nonneg key) by lia.
  destruct (key !! Z.to_nat v0) as [kv|] eqn:Ekv; [|done]. simpl.
  destruct (dist_lt guv kv) eqn:Elt.
  2:{ intros Hr. destruct (IH key parent Hk Hp Hvs' Hr) as (Hk' & Hp' & Hall).
      split; [done|]. split; [done|]. intros v Hv.
      destruct (Hall v Hv) as (H1 & H2 & H3).
      split; [done|]. split; [|done].
      intros [->|Hin]%elem_of_cons; [|by apply H2].
      intros _ x _ _. destruct kv as [y|]; [|done]. by apply (H3 y). }
  rewrite (py_set_nonneg key), (py_set_nonneg parent) by lia. simpl.
  intros Hr.
  destruct (IH (<[Z.to_nat v0 := Fin guv]> key)
               (<[Z.to_nat v0 := u]> parent)) as (Hk' & Hp' & Hall);
    [by rewrite length_insert|by rewrite length_insert|done|done|].
  split; [done|]. split; [done|]. intros v Hv.
  destruct (Hall v Hv) as (H1 & H2 & H3).
  destruct (decide (v = v0)) as [->|Hne].
  - rewrite list_lookup_insert_eq in H1, H3 by lia.
    rewrite list_lookup_insert_eq in H1 by lia.
    split; [|split].
    + right. split; [done|]. destruct H1 as [[-> ->]|(_ & x & ? & ? & ? & ?)].
      * by exists guv.
      * by exists x.
    + intros _ _ x _ _. by apply (H3 guv).
    + intros x _. by apply (H3 guv).
  - assert (Z.to_nat v0 ≠ Z.to_nat v) as Hne' by lia.
    rewrite list_lookup_insert_ne in H1, H3 by done.
    rewrite list_lookup_insert_ne in H1 by done.
    split; [done|]. split; [|done].
    intros [?|Hin]%elem_of_cons; [done|by apply H2].
Qed.

Lemma rtc_crossing {A} (R : relation A) (P : A → Prop)
    `{∀ x, Decision (P x)} (a b : A) :
  rtc R a b → P a → ¬ P b → ∃ s t : A, P s ∧ ¬ P t ∧ R s t.
Proof.
  induction 1 as [|a a' b Haa' _ IH]; intros Ha Hb; [done|].
  destruct (decide (P a')) as [Ha'|Ha']; [by apply IH|].
  by exists a, a'.
Qed.

Lemma lookup_not_true (l : list bool) (k : nat) :
  (k < length l)%nat → l !! k ≠ Some true → l !! k = Some false.
Proof.
  intros [b Hb]%lookup_lt_is_Some Hk. rewrite Hb in *. by destruct b.
Qed.

Lemma lookup_insert_true (l : list bool) u v :
  0 ≤ u < Z.of_nat (length l) → 0 ≤ v →
  <[Z.to_nat u := true]> l !! Z.to_nat v = Some true
  ↔ v = u ∨ l !! Z.to_nat v = Some true.
Proof.
  intros Hu Hv. destruct (decide (v = u)) as [->|Hne].
  - rewrite list_lookup_insert_eq by lia. naive_solver.
  - rewrite list_lookup_insert_ne by lia. naive_solver.
Qed.

(** One round of the outer loop, while some vertex is not selected. *)
Lemma prim_round g (rounds : nat) (selected : list bool) (parent : list Z)
    (key : list dist) (edges : list (Z * Z * Z)) :
  square g → 0 < V g → connected g →
  prim_inv g selected parent key edges →
  (count_true selected < Z.to_nat (V g))%nat →
  ∃ selected' parent' key' edges',
    prim_loop (S rounds) g selected parent key edges
    = prim_loop rounds g selected' parent' key' edges'
    ∧ prim_inv g selected' parent' key' edges'
    ∧ count_true selected' = S (count_true selected).
Proof.
  intros Hsq HV Hconn Hinv Hcount.
  pose proof Hsq as [Hm Hrows]%square_Forall.
  destruct Hinv as ((Hls & Hlp & Hlk) & Hreach & Hedges & Hnd & Hkey
                    & Hfront & Hstart).
  set (N := Z.to_nat (V g)) in *.
  assert (Z.of_nat N = V g) as HN by (unfold N; lia).
  set (sel := λ v : Z, selected !! Z.to_nat v = Some true).
  assert (∀ v, 0 ≤ v < V g → ¬ sel v →
            selected !! Z.to_nat v = Some false) as Hunsel.
  { intros v Hv Hnv. apply lookup_not_true; [lia|done]. }
  (* some unselected vertex has a finite key *)
  assert (∃ v x, 0 ≤ v < V g ∧ ¬ sel v
                 ∧ key !! Z.to_nat v = Some (Fin x)) as (v0 & x0 & Hv0 & Hsv0
                                                        & Hkv0).
  { destruct Hstart as [(Hc0 & _ & Hk0 & _)|(Hs0 & _)].
    - exists 0, 0. split; [lia|]. split; [|done].
      by apply count_true_0.
    - destruct (count_true_lt selected) as [k Hk]; [lia|].
      pose proof (lookup_lt_Some _ _ _ Hk) as Hk'.
      destruct (rtc_crossing (joined g) sel 0 (Z.of_nat k))
        as (s & t & Hs & Ht & Hst).
      + apply Hconn. lia.
      + done.
      + unfold sel. rewrite Nat2Z.id. congruence.
      + destruct (Hfront s t Hs Ht Hst) as [x Hx].
        destruct Hst as (_ & Ht' & _). by exists t, x. }
  (* the first inner loop finds one *)
  destruct (find_min_total N (range (V g)) selected key Inf (-1))
    as ([mk u] & Hfm & _); [done|done| |lia|].
  { intros v. rewrite elem_of_range. lia. }
  assert (∃ xu, 0 ≤ u < V g ∧ ¬ sel u
                ∧ key !! Z.to_nat u = Some (Fin xu)) as (xu & Hu & Hsu & Hku).
  { destruct (find_min_spec N (range (V g)) selected key Inf (-1) mk u)
      as [(_ & _ & Hno)|(Hin & Hsel & Hk & Hlt)]; [done|done| |done| |].
    - intros v. rewrite elem_of_range. lia.
    - assert (key_lt (Fin x0) Inf = false) as Hlt; [|done].
      apply (Hno v0); [apply elem_of_range; lia|by apply Hunsel|done].
    - apply elem_of_range in Hin. destruct mk as [xu|]; [|done].
      exists xu. split; [done|]. split; [|done]. unfold sel. congruence. }
  (* its parent *)
  assert (is_Some (parent !! Z.to_nat u)) as [pu Hpu].
  { apply lookup_lt_is_Some. lia. }
  assert ((u = 0 ∧ pu = -1 ∧ edges = [] ∧ count_true selected = O)
          ∨ (sel 0 ∧ 0 ≤ pu < V g ∧ sel pu
             ∧ getitem2 (graph g) pu u = Some xu ∧ 0 < xu
             ∧ S (length edges) = count_true selected)) as Hpar.
  { destruct Hstart as [(Hc0 & -> & Hk0 & Hp0)|(Hs0 & Hlen)].
    - left. destruct (Hkey u xu Hu Hsu Hku) as [[-> _]|(p & _ & _ & Hsp & _)].
      + change (Z.to_nat 0) with O in Hpu. rewrite Hp0 in Hpu.
        by simplify_eq.
      + by apply count_true_0 in Hsp.
    - right. destruct (Hkey u xu Hu Hsu Hku) as [[_ Hnone]|(p & Hp & ? & ? & ?
                                                        & ?)].
      + destruct (Hnone 0); [lia|done].
      + rewrite Hpu in Hp. by simplify_eq. }
  (* the second inner loop *)
  set (selected' := <[Z.to_nat u := true]> selected).
  assert (length selected' = N) as Hls'.
  { unfold selected'. by rewrite length_insert. }
  destruct (update_keys_total N (graph g) u (range (V g)) selected' key
              parent) with (Q := λ _ : Z, True)
    as ([key' parent'] & Huk & _);
    [done|done|done|done|done| |lia|lia|done| |].
  { intros v. rewrite elem_of_range. lia. }
  { by apply Forall_forall. }
  destruct (update_keys_spec N (graph g) u (range (V g)) selected' key
              parent key' parent') as (Hlk' & Hlp' & Hupd);
    [done|done|done| |done|].
  { intros v. rewrite elem_of_range. lia. }
  assert (∀ v, 0 ≤ v →
            selected' !! Z.to_nat v = Some true ↔ v = u ∨ sel v) as Hsel'.
  { intros v Hv. apply lookup_insert_true; lia. }
  set (edges' := if decide (pu ≠ -1) then edges ++ [(pu, u, xu)]
                 else edges).
  assert (∀ a b, tree_edge edges a b → tree_edge edges' a b) as Hmono.
  { intros a b [w Hw]. exists w. unfold edges'. case_decide; [|done].
    apply elem_of_app. by left. }
  assert (u = 0 ∨ sel 0) as Hu0.
  { destruct Hpar as [(? & _)|(? & _)]; [by left|by right]. }
  exists selected', parent', key', edges'. split; [|split].
  - simpl. rewrite Hfm. simpl.
    rewrite (py_set_nonneg selected) by lia. simpl.
    rewrite (py_get_nonneg parent), Hpu by lia. simpl.
    fold selected'. unfold edges'.
    destruct Hpar as [(_ & -> & _)|(_ & Hpu' & _ & Hg & _)].
    + destruct (decide (-1 ≠ -1)); [done|]. simpl. by rewrite Huk.
    + destruct (decide (pu ≠ -1)); [|lia]. rewrite Hg. simpl.
      by rewrite Huk.
  - unfold prim_inv. cbv zeta.
    split; [done|]. split; [|split; [|split; [|split; [|split]]]].
    + (* the selected vertices are reached *)
      intros v Hv Hs. apply Hsel' in Hs; [|lia].
      destruct Hs as [->|Hs].
      2:{ eapply rtc_subrel; [exact Hmono|]. by apply Hreach. }
      destruct Hpar as [(-> & _)|(_ & Hpu' & Hspu & Hg & Hx & _)]; [done|].
      assert (rtc (tree_edge edges') 0 pu) as Hrpu.
      { eapply rtc_subrel; [exact Hmono|]. by apply Hreach. }
      eapply rtc_r; [exact Hrpu|].
      exists xu. unfold edges'. rewrite decide_True by lia.
      apply elem_of_app. right. by left.
    + (* the edges are edges of the graph *)
      intros p t w Hin.
      assert ((p, t, w) ∈ edges
              ∨ ((p, t, w) = (pu, u, xu) ∧ 0 ≤ pu < V g
                 ∧ getitem2 (graph g) pu u = Some xu ∧ 0 < xu)) as [Hold|Hnew].
      { unfold edges' in Hin. case_decide; [|by left].
        apply elem_of_app in Hin as [?|Hin%list_elem_of_singleton];
          [by left|].
        right. destruct Hpar as [(_ & ? & _)|(_ & ? & _ & ? & ? & _)];
          [done|done]. }
      * destruct (Hedges p t w Hold) as (? & ? & ? & ? & ?).
        do 4 (split; [done|]). apply Hsel'; [lia|by right].
      * destruct Hnew as ([= -> -> ->] & ? & ? & ?).
        do 4 (split; [done|]). apply Hsel'; [lia|by left].
    + (* no vertex is the end of two edges *)
      unfold edges'. case_decide; [|done].
      rewrite fmap_app. apply NoDup_app. split; [done|].
      split; [|apply NoDup_singleton].
      intros t Ht ->%list_elem_of_singleton.
      apply list_elem_of_fmap in Ht as ([[p t] w] & Ht & Hin).
      simpl in Ht. subst t.
      by destruct (Hedges p u w Hin) as (_ & _ & _ & _ & ?).
    + (* finite keys come with a selected parent *)
      intros v x Hv Hnv Hkx. right.
      assert (v ≠ u ∧ ¬ sel v) as [Hvu Hnsv].
      { split; intros ?; apply Hnv, Hsel'; [lia|by left|lia|by right]. }
      destruct (Hupd v ltac:(lia)) as ([[Ek Ep]|(_ & x' & Hg & Hx' & Ek & Ep)]
                                      & _ & _).
      * rewrite Ek in Hkx.
        destruct (Hkey v x Hv Hnsv Hkx) as [[-> Hnone]|(p & Hp & ? & ? & ?
                                                        & ?)].
        -- destruct Hu0 as [->|Hs0]; [done|]. by destruct (Hnone 0).
        -- exists p. rewrite Ep. do 2 (split; [done|]).
           split; [apply Hsel'; [lia|by right]|done].
      * rewrite Ek in Hkx. simplify_eq. exists u.
        do 2 (split; [done|]). split; [apply Hsel'; [lia|by left]|done].
    + (* the neighbors of the selected vertices have finite keys *)
      intros s v Hs Hnv Hsv. destruct Hsv as (Hs' & Hv & w & Hg & Hw).
      assert (v ≠ u ∧ ¬ sel v) as [Hvu Hnsv].
      { split; intros ?; apply Hnv, Hsel'; [lia|by left|lia|by right]. }
      destruct (Hupd v ltac:(lia)) as (_ & Hnew & Hfin).
      apply Hsel' in Hs; [|lia]. destruct Hs as [->|Hs].
      * apply (Hnew ltac:(apply elem_of_range; lia)) with (x := w);
          [|done|done].
        unfold selected'. rewrite list_lookup_insert_ne by lia.
        by apply Hunsel.
      * destruct (Hfront s v Hs Hnsv) as [x Hx].
        { split; [done|]. split; [done|]. by exists w. }
        by apply (Hfin x).
    + (* the count of edges *)
      right. split; [apply Hsel'; [lia|]; destruct Hu0; eauto|].
      unfold selected'. rewrite count_true_insert by (by apply Hunsel).
      unfold edges'.
      destruct Hpar as [(_ & -> & -> & ->)|(_ & ? & _ & _ & _ & <-)].
      * by rewrite decide_False by lia.
      * rewrite decide_True by lia. rewrite length_app. simpl. lia.
  - unfold selected'. apply count_true_insert. by apply Hunsel.
Qed.

Lemma prim_loop_spanning g :
  square g → 0 < V g → connected g →
  ∀ (rounds : nat) (selected : list bool) (parent : list Z)
    (key : list dist) (edges : list (Z * Z * Z)),
    prim_inv g selected parent key edges →
    (count_true selected + rounds = Z.to_nat (V g))%nat →
    ∃ edges' selected' parent' key',
      prim_loop rounds g selected parent key edges = Some edges'
      ∧ prim_inv g selected' parent' key' edges'
      ∧ count_true selected' = Z.to_nat (V g).
Proof.
  intros Hsq HV Hconn. induction rounds as [|rounds IH];
    intros selected parent key edges Hinv Hcount.
  - exists edges, selected, parent, key. split; [done|]. split; [done|]. lia.
  - destruct (prim_round g rounds selected parent key edges)
      as (selected' & parent' & key' & edges' & -> & Hinv' & Hc'); try done.
    { lia. }
    apply IH; [done|lia].
Qed.

Lemma count_true_replicate (n : nat) : count_true (replicate n false) = O.
Proof.
  induction n as [|n IH]; [done|]. simpl. by rewrite count_true_cons.
Qed.

(** On a square matrix with at least one vertex in which every vertex can
    be reached from vertex 0 along positive entries, [prim_mst()] returns
    [V - 1] edges [(p, u, w)]: each is an edge of the graph with its weight
    [w = graph[p][u] > 0], no vertex is the end [u] of two of them, and
    every vertex is reached from vertex 0 along them: the edges form a
    spanning tree. *)
Theorem prim_mst_spanning_tree g :
  square g → 0 < V g → connected g →
  ∃ edges, prim_mst g = Some edges
    ∧ length edges = (Z.to_nat (V g) - 1)%nat
    ∧ NoDup ((λ e, e.1.2) <$> edges)
    ∧ (∀ p u w, (p, u, w) ∈ edges →
         0 ≤ p < V g ∧ 0 ≤ u < V g
         ∧ getitem2 (graph g) p u = Some w ∧ 0 < w)
    ∧ ∀ v, 0 ≤ v < V g → rtc (tree_edge edges) 0 v.
Proof.
  intros Hsq HV Hconn. unfold prim_mst.
  set (N := Z.to_nat (V g)).
  assert (0 < N)%nat as HN by (unfold N; lia).
  rewrite py_set_nonneg by (rewrite length_replicate; lia). simpl.
  change (Z.to_nat 0) with O.
  destruct (prim_loop_spanning g Hsq HV Hconn N (replicate N false)
              (replicate N (-1)) (<[O := Fin 0]> (replicate N Inf)) [])
    as (edges & selected & parent & key & -> & Hinv & Hc).
  - unfold prim_inv. cbv zeta. fold N.
    split; [by rewrite length_insert, !length_replicate|].
    split; [|split; [|split; [|split; [|split]]]].
    + intros v Hv Hs. apply lookup_replicate in Hs as [? _]. done.
    + by intros p u w ?%elem_of_nil.
    + constructor.
    + intros v x Hv _ Hk. left. split.
      * destruct (decide (v = 0)) as [|Hne]; [done|].
        rewrite list_lookup_insert_ne in Hk by lia.
        apply lookup_replicate in Hk as [? _]. done.
      * intros v' _ Hs. apply lookup_replicate in Hs as [? _]. done.
    + intros s v Hs. apply lookup_replicate in Hs as [? _]. done.
    + left. split; [apply count_true_replicate|]. split; [done|].
      split.
      * apply list_lookup_insert_eq. by rewrite length_replicate.
      * by apply lookup_replicate_2.
  - rewrite count_true_replicate. done.
  - exists edges. split; [done|].
    destruct Hinv as ((Hls & Hlp & Hlk) & Hreach & Hedges & Hnd & Hkey
                      & Hfront & Hstart).
    assert (∀ v, 0 ≤ v < V g → selected !! Z.to_nat v = Some true) as Hall.
    { intros v Hv. apply count_true_all; [by rewrite Hls|lia]. }
    split; [|split; [done|split]].
    + destruct Hstart as [(Hc0 & _)|(_ & Hlen)]; [lia|]. lia.
    + intros p u w Hin.
      destruct (Hedges p u w Hin) as (? & ? & ? & ? & _). done.
    + intros v Hv. apply Hreach; [done|by apply Hall].
Qed.

End WeightedGraphFacts.

(** * The properties at concrete graphs *)

Local Open Scope string_scope.

(** C1, counterexample: after two calls [add_edge('A', 'B')] on a fresh
    undirected graph, [has_cycle()] returns [True], not [False], in either
    iteration order of the vertex set. *)
Lemma parallel_AB_has_cycle :
  fst <$> has_cycle 2 parallel_AB ["A"; "B"] = Some true
  ∧ fst <$> has_cycle 2 parallel_AB ["B"; "A"] = Some true
  ∧ ¬ (∀ order, order ≡ₚ elements (vertices parallel_AB) →
         fst <$> has_cycle 2 parallel_AB order = Some false).
Proof.
  split; [by vm_compute|]. split; [by vm_compute|].
  intros Hall. specialize (Hall (elements (vertices parallel_AB)) (reflexivity _)).
  vm_compute in Hall. discriminate.
Qed.

Lemma has_cycle_parallel_edges_witness :
  fst <$> has_cycle 2 (add_edge (add_edge (init false) "A" "B" 1) "A" "B" 1)
                    ["A"; "B"]
  = Some true.
Proof.
  apply (has_cycle_parallel_edges (init false) "A" "B" 1 1 ["A"; "B"] 2).
  - reflexivity.
  - intros k. reflexivity.
  - discriminate.
  - reflexivity.
  - reflexivity.
  - by vm_compute.
  - lia.
Defined.

Lemma dag_check_all :
  forallb dag_check (permutations (elements (vertices dag))) = true.
Proof. by vm_compute. Qed.

(** C4, counterexample: when the vertex set is iterated in the order
    A, B, C, D, E, F, [topological_sort()] returns B, D, A, C, E, F, where
    D comes before A. *)
Lemma dag_topological_sort_not_layered :
  ["A"; "B"; "C"; "D"; "E"; "F"] ≡ₚ elements (vertices dag)
  ∧ fst <$> topological_sort 6 dag ["A"; "B"; "C"; "D"; "E"; "F"]
    = Some (Ok ["B"; "D"; "A"; "C"; "E"; "F"])
  ∧ layered ["B"; "D"; "A"; "C"; "E"; "F"] = false
  ∧ precedes "A" "D" ["B"; "D"; "A"; "C"; "E"; "F"] = false.
Proof.
  split; [|by vm_compute].
  apply (bool_decide_unpack _). by vm_compute.
Qed.

(** C4 (as the code behaves): on the directed graph A→C, B→C, B→D, C→E,
    D→F, E→F, for every iteration order of the vertex set, [has_cycle()]
    returns [False] and [topological_sort()] returns an ordering of the six
    vertices in which the source of every edge comes before its target. *)
Theorem dag_acyclic_and_sorted order fuel :
  order ≡ₚ elements (vertices dag) →
  (6 ≤ fuel)%nat →
  fst <$> has_cycle fuel dag order = Some false
  ∧ ∃ r, fst <$> topological_sort fuel dag order = Some (Ok r)
         ∧ r ≡ₚ ["A"; "B"; "C"; "D"; "E"; "F"]
         ∧ respects_edges r = true.
Proof.
  intros Hperm Hfuel.
  assert (dag_check order = true) as Hc.
  { pose proof dag_check_all as Hall.
    rewrite forallb_forall in Hall. apply Hall.
    apply list_elem_of_In, permutations_Permutation. by symmetry. }
  unfold dag_check in Hc.
  destruct (has_cycle 6 dag order) as [[[] g1]|] eqn:E1; try done.
  destruct (topological_sort 6 dag order) as [[[r|] g2]|] eqn:E2; try done.
  apply andb_prop in Hc as [Hr Hp]. apply bool_decide_eq_true in Hp.
  rewrite (has_cycle_mono _ _ _ _ _ Hfuel E1).
  rewrite (topological_sort_mono _ _ _ _ _ Hfuel E2). simpl.
  split; [done|]. exists r. split; [done|]. split; [|done].
  rewrite Hp, Hperm. apply (bool_decide_unpack _). by vm_compute.
Qed.

Lemma dag_acyclic_and_sorted_witness :
  fst <$> has_cycle 6 dag ["C"; "D"; "A"; "B"; "E"; "F"] = Some false
  ∧ ∃ r, fst <$> topological_sort 6 dag ["C"; "D"; "A"; "B"; "E"; "F"]
         = Some (Ok r)
         ∧ r ≡ₚ ["A"; "B"; "C"; "D"; "E"; "F"]
         ∧ respects_edges r = true.
Proof.
  apply (dag_acyclic_and_sorted ["C"; "D"; "A"; "B"; "E"; "F"] 6).
  - apply (bool_decide_unpack _). by vm_compute.
  - lia.
Defined.

(** C2, counterexample: on a fresh graph, [get_neighbors('X')] creates the
    key ['X'] in the adjacency map while [vertices] stays empty. *)
Lemma get_neighbors_breaks_superset :
  ∃ g : Graph string,
    reaches false [OpGetNeighbors "X"] g
    ∧ "X" ∈ dom (graph g) ∧ ("X" ∉ vertices g)
    ∧ ¬ vertices_superset g.
Proof.
  exists (get_neighbors (init false) "X").2.
  split; [|split; [|split]].
  - apply (reaches_snoc false [] (init false) 0 (OpGetNeighbors "X"));
      [apply reaches_nil|reflexivity].
  - by vm_compute.
  - by vm_compute.
  - intros [Hkeys _]. specialize (Hkeys "X").
    assert ("X" ∈ vertices (get_neighbors (init false : Graph string) "X").2)
      as Hx by (apply Hkeys; by vm_compute).
    revert Hx. by vm_compute.
Qed.

Lemma reaches_edges_in_vertices_witness :
  edges_in_vertices
    (get_neighbors (add_edge (init false) "A" "B" 1) "X").2.
Proof.
  apply (reaches_edges_in_vertices false
           [OpAddEdge "A" "B" 1; OpGetNeighbors "X"]).
  apply (reaches_snoc false [OpAddEdge "A" "B" 1]
           (add_edge (init false) "A" "B" 1) 0 (OpGetNeighbors "X"));
    [|reflexivity].
  apply (reaches_snoc false [] (init false) 0 (OpAddEdge "A" "B" 1));
    [|reflexivity].
  apply reaches_nil.
Defined.

Lemma add_vertex_keeps_adjacency_witness :
  graph (add_vertex (add_edge (init false) "A" "B" 1) "A")
  = graph (add_edge (init false) "A" "B" 1)
  ∧ graph (add_vertex (add_edge (init false) "A" "B" 1) "A") !! "A"
    = Some [("B", 1)].
Proof.
  apply (add_vertex_keeps_adjacency (add_edge (init false) "A" "B" 1) "A"
           [("B", 1)]).
  - by vm_compute.
  - discriminate.
Defined.

Lemma dijkstra_unknown_end_raises_witness :
  ∃ fuel0, ∀ fuel, (fuel0 ≤ fuel)%nat →
    fst <$> dijkstra fuel (add_edge (init false) "A" "B" 1) "A" (Some "Z")
    = Some (Raise KeyError).
Proof.
  apply (dijkstra_unknown_end_raises (add_edge (init false) "A" "B" 1)
           "A" "Z").
  - discriminate.
  - by vm_compute.
  - reflexivity.
Defined.

(** C3, the two inputs on which [dijkstra] does not return the pair: with
    non-negative weights, a target that was never added makes
    [distances[end]] raise [KeyError] where the sentinel pair is due, and a
    falsy target (the integer [0]) fails the test [if end], so that the
    distance dictionary is returned although the target is reachable. *)
Theorem dijkstra_end_not_handled :
  fst <$> dijkstra 10 (add_edge (init false) "A" "B" 1) "A" (Some "Z")
  = Some (Raise KeyError)
  ∧ fst <$> dijkstra 10 (add_edge (init false) 1 0 5) 1 (Some 0)
    = Some (Ok (Distances (<[0 := Fin 5]> (<[1 := Fin 0]> ∅)))).
Proof. split; by vm_compute. Qed.

Lemma unknown_vertex_queries_witness :
  (get_neighbors (add_edge (init false) "A" "B" 1) "X").1 = []
  ∧ fst <$> bfs 1 (add_edge (init false) "A" "B" 1) "X" = Some ["X"]
  ∧ fst <$> dfs 1 (add_edge (init false) "A" "B" 1) "X" = Some ["X"].
Proof.
  apply (unknown_vertex_queries false [OpAddEdge "A" "B" 1]
           (add_edge (init false) "A" "B" 1) "X" 1).
  - apply (reaches_snoc false [] (init false) 0 (OpAddEdge "A" "B" 1));
      [|reflexivity].
    apply reaches_nil.
  - apply Forall_singleton. simpl. intros [?|?]; discriminate.
  - lia.
Defined.

Local Close Scope string_scope.

Lemma triangle_nonneg :
  ∀ a b w, (b, w) ∈ nbrs (graph triangle) a → (0 ≤ w)%Z.
Proof.
  apply (map_Forall_nbrs (λ _ _ w, (0 ≤ w)%Z)).
  apply (bool_decide_unpack _). by vm_compute.
Qed.

Lemma triangle_edges_in_vertices : edges_in_vertices triangle.
Proof.
  apply edges_in_vertices_nbrs.
  apply (map_Forall_nbrs (λ k n _, k ∈ vertices triangle
                                   ∧ n ∈ vertices triangle)).
  apply (bool_decide_unpack _). by vm_compute.
Qed.

Lemma dijkstra_correct_witness :
  ∃ fuel0, ∀ fuel, (fuel0 ≤ fuel)%nat →
    ∃ r g', dijkstra fuel triangle "A" (Some "B") = Some (Ok r, g')
      ∧ ((∃ p z, r = PathDist (Some p) (Fin z)
                 ∧ head p = Some "A" ∧ last p = Some "B"
                 ∧ path_weight (graph triangle) p z
                 ∧ ∀ q z', head q = Some "A" → last q = Some "B" →
                           path_weight (graph triangle) q z' → (z ≤ z')%Z)
         ∨ (r = PathDist None Inf ∧ ¬ rtc (edge (graph triangle)) "A" "B")).
Proof.
  apply (dijkstra_correct triangle "A" "B").
  - exact triangle_nonneg.
  - exact triangle_edges_in_vertices.
  - reflexivity.
  - by vm_compute.
Defined.

Lemma dijkstra_distances_correct_witness :
  ∃ fuel0, ∀ fuel, (fuel0 ≤ fuel)%nat →
    ∃ dm g', dijkstra fuel triangle "A" None = Some (Ok (Distances dm), g')
      ∧ dom dm = {["A"]} ∪ vertices triangle
      ∧ ∀ x, x ∈ {["A"]} ∪ vertices triangle →
          (∃ z, dm !! x = Some (Fin z)
                ∧ (∃ p, head p = Some "A" ∧ last p = Some x
                        ∧ path_weight (graph triangle) p z)
                ∧ ∀ q z', head q = Some "A" → last q = Some x →
                          path_weight (graph triangle) q z' → (z ≤ z')%Z)
          ∨ (dm !! x = Some Inf ∧ ¬ rtc (edge (graph triangle)) "A" x).
Proof.
  apply (dijkstra_distances_correct triangle "A").
  - exact triangle_nonneg.
  - exact triangle_edges_in_vertices.
Defined.

Lemma dijkstra_falsy_end_witness :
  dijkstra 10 (add_edge (init false) 1%Z 0%Z 5) 1%Z (Some 0%Z)
  = dijkstra 10 (add_edge (init false) 1%Z 0%Z 5) 1%Z None.
Proof.
  apply (dijkstra_falsy_end (add_edge (init false) 1%Z 0%Z 5) 1%Z 0%Z 10).
  reflexivity.
Defined.

Lemma add_remove_edge_witness :
  (∀ k, nbrs (graph (remove_edge (add_edge (init false) "A" "B" 1) "A" "B")) k
        = nbrs (graph (init false)) k)
  ∧ vertices (remove_edge (add_edge (init false) "A" "B" 1) "A" "B")
    = {["B"]} ∪ ({["A"]} ∪ vertices (init false)).
Proof.
  apply (add_remove_edge (init false) "A" "B" 1).
  - intros [w Hin]. by apply elem_of_nil in Hin.
  - intros _ [w Hin]. by apply elem_of_nil in Hin.
Defined.

Lemma queries_keep_graph_witness :
  vertices (has_edge triangle "A" "Z").2 = vertices triangle
  ∧ directed (has_edge triangle "A" "Z").2 = directed triangle
  ∧ ∀ k, nbrs (graph (has_edge triangle "A" "Z").2) k
         = nbrs (graph triangle) k.
Proof.
  apply (queries_keep_graph 0 (OpHasEdge "A" "Z") triangle); reflexivity.
Defined.

Lemma undirected_symmetric_witness :
  symmetric (graph (add_edge (init false) "A" "B" 1))
  ∧ ∀ u v, (has_edge (add_edge (init false) "A" "B" 1) u v).1
           = (has_edge (add_edge (init false) "A" "B" 1) v u).1.
Proof.
  apply (undirected_symmetric [OpAddEdge "A" "B" 1]).
  apply (reaches_snoc false [] (init false) 0 (OpAddEdge "A" "B" 1));
    [|reflexivity].
  apply reaches_nil.
Defined.

Lemma add_remove_vertex_witness :
  vertices (remove_vertex (add_vertex triangle "Z") "Z") = vertices triangle
  ∧ ∀ k, nbrs (graph (remove_vertex (add_vertex triangle "Z") "Z")) k
         = nbrs (graph triangle) k.
Proof.
  apply (add_remove_vertex triangle "Z").
  - exact triangle_edges_in_vertices.
  - by vm_compute.
Defined.

Lemma dag_edges_in_vertices : edges_in_vertices dag.
Proof.
  apply edges_in_vertices_nbrs.
  apply (map_Forall_nbrs (λ k n _, k ∈ vertices dag ∧ n ∈ vertices dag)).
  apply (bool_decide_unpack _). by vm_compute.
Qed.

Lemma topological_sort_correct_witness :
  ∃ fuel0, ∀ fuel, (fuel0 ≤ fuel)%nat →
    ∃ r g', topological_sort fuel dag (elements (vertices dag))
            = Some (Ok r, g')
      ∧ r ≡ₚ elements (vertices dag)
      ∧ ∀ a b, edge (graph dag) a b → ¬ rtc (edge (graph dag)) b a →
               before a b r.
Proof.
  apply (topological_sort_correct dag (elements (vertices dag))).
  - reflexivity.
  - exact dag_edges_in_vertices.
  - reflexivity.
Defined.

Lemma has_cycle_directed_correct_witness :
  ∃ fuel0, ∀ fuel, (fuel0 ≤ fuel)%nat →
    ∃ r g', has_cycle fuel dag (elements (vertices dag)) = Some (r, g')
      ∧ (r = true ↔ ∃ c, tc (edge (graph dag)) c c).
Proof.
  apply (has_cycle_directed_correct dag (elements (vertices dag))).
  - reflexivity.
  - exact dag_edges_in_vertices.
  - reflexivity.
Defined.

Lemma connected_components_correct_witness :
  ∃ fuel0, ∀ fuel, (fuel0 ≤ fuel)%nat →
    ∃ cs g', connected_components fuel triangle (elements (vertices triangle))
             = Some (cs, g')
      ∧ concat cs ≡ₚ elements (vertices triangle)
      ∧ (∀ c, c ∈ cs →
           ∃ x rest, c = x :: rest
                     ∧ ∀ y, y ∈ c → rtc (edge (graph triangle)) x y)
      ∧ (symmetric (graph triangle) →
         ∀ c x y, c ∈ cs → x ∈ c →
                  (y ∈ c ↔ rtc (edge (graph triangle)) x y)).
Proof.
  apply (connected_components_correct triangle
           (elements (vertices triangle))).
  - exact triangle_edges_in_vertices.
  - reflexivity.
Defined.

Lemma is_bipartite_correct_witness :
  ∃ fuel0, ∀ fuel, (fuel0 ≤ fuel)%nat →
    ∃ r g', is_bipartite fuel triangle (elements (vertices triangle))
            = Some (Ok r, g')
      ∧ (r = true → ∃ col, proper (graph triangle) col)
      ∧ (symmetric (graph triangle) →
         (∃ col, proper (graph triangle) col) → r = true).
Proof.
  apply (is_bipartite_correct triangle (elements (vertices triangle))).
  - exact triangle_edges_in_vertices.
  - reflexivity.
Defined.

Lemma weighted_demo_built : WeightedGraph.built weighted_demo.
Proof.
  unfold weighted_demo. cbn [foldl].
  repeat apply WeightedGraph.built_add_edge. apply WeightedGraph.built_init.
Qed.

Lemma weighted_demo_connected : WeightedGraph.connected weighted_demo.
Proof.
  assert (∀ a b w, WeightedGraph.getitem2
                     (WeightedGraph.graph weighted_demo) a b = Some w →
                   (0 ≤ a < 5)%Z → (0 ≤ b < 5)%Z → (0 < w)%Z →
                   WeightedGraph.joined weighted_demo a b) as Hj.
  { intros a b w Hg Ha Hb Hw. split; [done|]. split; [done|]. by exists w. }
  assert (WeightedGraph.joined weighted_demo 0 1) as H01
    by (by apply (Hj 0 1 2)%Z).
  assert (WeightedGraph.joined weighted_demo 1 2) as H12
    by (by apply (Hj 1 2 3)%Z).
  assert (WeightedGraph.joined weighted_demo 0 3) as H03
    by (by apply (Hj 0 3 6)%Z).
  assert (WeightedGraph.joined weighted_demo 1 4) as H14
    by (by apply (Hj 1 4 5)%Z).
  intros v Hv. change (WeightedGraph.V weighted_demo) with 5%Z in Hv.
  assert (v = 0 ∨ v = 1 ∨ v = 2 ∨ v = 3 ∨ v = 4)%Z
    as [->|[->|[->|[->| ->]]]] by lia.
  - done.
  - by apply rtc_once.
  - eapply rtc_l; [exact H01|]. by apply rtc_once.
  - by apply rtc_once.
  - eapply rtc_l; [exact H01|]. by apply rtc_once.
Qed.

Lemma weighted_add_edge_spec_witness :
  WeightedGraph.add_edge weighted_demo 0%Z 7%Z 1%Z = (None, weighted_demo).
Proof.
  apply (proj2 (weighted_add_edge_spec weighted_demo 0%Z 7%Z 1%Z
                  (proj1 (built_inv weighted_demo weighted_demo_built)))).
  change (WeightedGraph.V weighted_demo) with 5%Z. lia.
Defined.

Lemma built_square_symmetric_witness :
  WeightedGraph.square weighted_demo ∧ WeightedGraph.symmetric weighted_demo.
Proof. apply (built_square_symmetric weighted_demo), weighted_demo_built. Defined.

Lemma prim_mst_index_error_witness :
  WeightedGraph.prim_mst (WeightedGraph.init 0) = None
  ↔ (WeightedGraph.V (WeightedGraph.init 0) ≤ 0)%Z.
Proof.
  apply (prim_mst_index_error (WeightedGraph.init 0)).
  apply built_inv. constructor.
Defined.

Lemma prim_mst_spanning_tree_witness :
  ∃ edges, WeightedGraph.prim_mst weighted_demo = Some edges
    ∧ length edges = (Z.to_nat (WeightedGraph.V weighted_demo) - 1)%nat
    ∧ NoDup ((λ e, e.1.2) <$> edges)
    ∧ (∀ p u w, (p, u, w) ∈ edges →
         (0 ≤ p < WeightedGraph.V weighted_demo)%Z
         ∧ (0 ≤ u < WeightedGraph.V weighted_demo)%Z
         ∧ WeightedGraph.getitem2 (WeightedGraph.graph weighted_demo) p u
           = Some w ∧ (0 < w)%Z)
    ∧ ∀ v, (0 ≤ v < WeightedGraph.V weighted_demo)%Z →
           rtc (WeightedGraph.tree_edge edges) 0%Z v.
Proof.
  apply (prim_mst_spanning_tree weighted_demo).
  - apply built_inv, weighted_demo_built.
  - reflexivity.
  - exact weighted_demo_connected.
Defined.
